(** * Permafrost Engine: hierarchical navigation (src/navigation/nav.c)

    A shallow embedding of the navigation builder of Permafrost Engine:
    the cost field builder ([n_tile_pathable], [n_set_cost_for_tile]),
    portal discovery ([n_link_chunks], [n_create_portals]), the portal
    linker ([n_link_chunk_portals]), the store constructor
    ([N_BuildForMapData]) and the debug overlay ([n_render_portals],
    [n_render_grid_path], [N_RenderPathableChunk]); and of the part of the
    map loader (src/map/map_asset_load.c) that reads the tiles the store is
    built from ([m_al_parse_tile], [m_al_read_row], [m_al_read_pfchunk])
    and patches them ([m_al_patch_adjacency_info]).

    Conventions of the embedding.
    - C arrays of fixed capacity are functions from the index; a write goes
      through [store], which checks the index against the declared
      capacity and yields [OutOfBounds] where the C program would write
      outside the array (undefined behaviour).
    - [assert] is live: a failed assertion aborts the run ([AssertFail]).
    - A pointer to a chunk is the index of the chunk in [priv->chunks]; a
      pointer to a portal record is the pair (index of the chunk, index of
      the slot in [chunk->portals]); a pointer into a cost field is the
      chunk and the offset of the cell.  The difference of two such
      pointers in bytes ([CURSOR_OFF]) follows from the size of a
      [struct nav_chunk], a parameter of the development.
    - Loop counters and sizes ([size_t], and [int] counters that only run
      upwards from 0) are [nat]; [int] data ([struct coord]) and the
      [uint8_t] cost cells are [Z], and a sum of two [int] members is
      reduced to 32 bits ([int_wrap]).
    - [float] is an abstract type: path costs are only carried around.  *)

From Stdlib Require Import ZArith List Bool Arith Lia.
From Stdlib Require Ascii.
Import ListNotations.
Import Ascii.AsciiSyntax.
Delimit Scope char_scope with char.

Set Implicit Arguments.

(** ** Outcomes and sequencing *)

Inductive result (A : Type) : Type :=
| Ok (x : A)
| AssertFail
| OutOfBounds
| DivByZero.

Arguments Ok {A} x.
Arguments AssertFail {A}.
Arguments OutOfBounds {A}.
Arguments DivByZero {A}.

Definition bind {A B : Type} (m : result A) (k : A -> result B) : result B :=
  match m with
  | Ok x => k x
  | AssertFail => AssertFail
  | OutOfBounds => OutOfBounds
  | DivByZero => DivByZero
  end.

Notation "x <- m ;; k" := (bind m (fun x => k))
  (at level 61, m at next level, right associativity).
Notation "' p <- m ;; k" := (bind m (fun x => let p := x in k))
  (at level 61, p pattern, m at next level, right associativity).
Notation "m ;;; k" := (bind m (fun _ => k))
  (at level 61, right associativity).

Definition assert (b : bool) : result unit :=
  if b then Ok tt else AssertFail.

(** [for (i = first; ...; i++) body] over the listed counter values. *)
Fixpoint for_each {Ix St : Type} (l : list Ix) (body : Ix -> St -> result St)
  (s : St) : result St :=
  match l with
  | [] => Ok s
  | i :: l' => s' <- body i s ;; for_each l' body s'
  end.

(** Unsigned division and remainder of the C program. *)
Definition udiv (a b : nat) : result nat :=
  if b =? 0 then DivByZero else Ok (a / b).

Definition umod (a b : nat) : result nat :=
  if b =? 0 then DivByZero else Ok (a mod b).

(** ** Arrays *)

Definition upd {A : Type} (f : nat -> A) (k : nat) (v : A) : nat -> A :=
  fun i => if i =? k then v else f i.

Definition store {A : Type} (cap : nat) (f : nat -> A) (k : nat) (v : A)
  : result (nat -> A) :=
  if k <? cap then Ok (upd f k v) else OutOfBounds.

Definition load {A : Type} (cap : nat) (f : nat -> A) (k : nat) : result A :=
  if k <? cap then Ok (f k) else OutOfBounds.

(** ** nav_data.h *)

Definition MAX_PORTALS_PER_CHUNK : nat := 64.
Definition FIELD_RES_R : nat := 64.
Definition FIELD_RES_C : nat := 64.
Definition COST_IMPASSABLE : Z := 255.

Arguments MAX_PORTALS_PER_CHUNK : simpl never.
Arguments FIELD_RES_R : simpl never.
Arguments FIELD_RES_C : simpl never.
Arguments COST_IMPASSABLE : simpl never.
#[local] Arguments Nat.div : simpl never.
#[local] Arguments Nat.modulo : simpl never.
#[local] Arguments Nat.mul : simpl never.
#[local] Arguments Nat.add : simpl never.
#[local] Arguments Nat.sub : simpl never.
#[local] Arguments Nat.ltb : simpl never.
#[local] Arguments Nat.leb : simpl never.
#[local] Arguments Nat.eqb : simpl never.

Record coord : Type := mkcoord { r : Z; c : Z }.

(** [struct portal *]. *)
Inductive portal_ptr : Type :=
| NULL
| PortalAt (chunk_idx : nat) (slot : nat).

Inductive edge_type : Type := EDGE_BOT | EDGE_LEFT | EDGE_RIGHT | EDGE_TOP.

Definition edge_bits (e : edge_type) : Z :=
  match e with
  | EDGE_BOT => Z.shiftl 1 0
  | EDGE_LEFT => Z.shiftl 1 1
  | EDGE_RIGHT => Z.shiftl 1 2
  | EDGE_TOP => Z.shiftl 1 3
  end.

Definition edge_type_eqb (x y : edge_type) : bool :=
  (edge_bits x =? edge_bits y)%Z.

Definition CHUNK_IDX (r width c : nat) : nat := r * width + c.

(** Offset of [cost_base[r][c]] from [&cost_base[0][0]]. *)
Definition cell_off (r c : nat) : nat := r * FIELD_RES_C + c.

(** ** map/public/tile.h

    The header is not part of the sources at hand.  The three members the
    navigation code reads are kept; [type] is the integer value of the
    [enum tiletype] member. *)

Record tile : Type := mktile {
  pathable : bool;
  type : Z;
  ramp_height : Z
}.

(** Tiles and tile sets used in the worked instances. *)

Definition flat_tile : tile := mktile true 0 0.
Definition wall_tile : tile := mktile false 0 0.
Definition steep_ramp_tile : tile := mktile true 1 2.

(** A chunk of 64 by 64 tiles, all walls but the last tile of the first
    row and the last tile of the last row. *)
Definition corner_tiles (k : nat) : tile :=
  mktile ((k =? 63) || (k =? 4095)) 0 0.

(** A chunk of 64 by 64 tiles whose boundary alternates open and closed
    tiles: on the first and last column the tiles of even rows are open,
    on the first and last row the tiles of even columns. *)
Definition comb_tiles (k : nat) : tile :=
  let row := k / 64 in
  let col := k mod 64 in
  mktile ((((col =? 0) || (col =? 63)) && Nat.even row)
          || (((row =? 0) || (row =? 63)) && Nat.even col)) 0 0.

(** A chunk of 32 by 32 tiles with the same boundary, two cells to a
    tooth. *)
Definition wide_comb_tiles (k : nat) : tile :=
  let row := k / 32 in
  let col := k mod 32 in
  mktile ((((col =? 0) || (col =? 31)) && Nat.even row)
          || (((row =? 0) || (row =? 31)) && Nat.even col)) 0 0.

(** A map of one tile per chunk: the first two chunks open, the others
    walls. *)
Definition strip_tiles (idx : nat) (k : nat) : tile :=
  if idx <? 2 then flat_tile else wall_tile.

(** A stand-in for the pathfinder in the worked instances, with integer
    costs: it finds the straight paths along a row or a column. *)
Definition straight_pathfinder (a b : coord) (field : list Z) : option Z :=
  if (r a =? r b)%Z || (c a =? c b)%Z
  then Some (Z.abs (r a - r b) + Z.abs (c a - c b))%Z
  else None.

(** The layout of a chunk in the worked instances: [size_t] and pointers
    of 8 bytes, [int] and [float] of 4.  A [struct portal] then takes
    8 + 16 + 8 + 63 * 16 + 8 = 1048 bytes, and [num_portals] and [portals]
    take 8 + 64 * 1048 bytes of a [struct nav_chunk]. *)
Definition lp64_chunk_head : N := 67080.

Section Nav.

(** The value of the enumerator [TILETYPE_FLAT] (declared in tile.h). *)
Variable TILETYPE_FLAT : Z.

(** [float], and the value [0.0f]. *)
Variable float : Type.
Variable fzero : float.

Record edge : Type := mkedge {
  neighbour : portal_ptr;
  cost : float
}.

Record portal : Type := mkportal {
  chunk : coord;
  endpoints0 : coord;
  endpoints1 : coord;
  num_neighbours : nat;
  edges : nat -> edge;
  connected : portal_ptr
}.

Record nav_chunk : Type := mkchunk {
  num_portals : nat;
  portals : nat -> portal;
  cost_base : nat -> Z
}.

(** [struct nav_private] (nav_private.h): the members nav.c uses. *)
Record nav_private : Type := mkpriv {
  width : nat;
  height : nat;
  chunks : nat -> nav_chunk
}.

(** The chunks of a store are the elements of one array,
    [priv->chunks]; the address of a chunk is its index in that array.
    [NAV_CHUNK_HEAD] is the number of bytes of a [struct nav_chunk] that
    are not cost cells ([num_portals], [portals] and padding): the C
    implementation fixes it.  A cost cell is one byte. *)
Variable NAV_CHUNK_HEAD : N.

Definition sizeof_nav_chunk : Z :=
  (Z.of_N NAV_CHUNK_HEAD + Z.of_nat (FIELD_RES_R * FIELD_RES_C))%Z.

(** [CURSOR_OFF(cursor, base)], where [cursor] points [off] cells into the
    cost field of the chunk at [ptr] and [base] is
    [&chunk->cost_base[0][0]] of the chunk at [base_ptr]. *)
Definition CURSOR_OFF (ptr off base_ptr : nat) : Z :=
  ((Z.of_nat ptr - Z.of_nat base_ptr) * sizeof_nav_chunk + Z.of_nat off)%Z.

(** The grid pathfinder [AStar_GridPath] (a_star.h) is an external
    collaborator.  It is given the two cells and the contents of the
    [FIELD_RES_R * FIELD_RES_C] cost cells and answers with the cost of a
    path, or with [None] when it returns [false]. *)
Variable AStar_GridPath : coord -> coord -> list Z -> option float.

(** ** Cost field builder *)

(** [!x] of C. *)
Definition lnot (x : Z) : Z := if (x =? 0)%Z then 1%Z else 0%Z.

Definition n_tile_pathable (t : tile) : bool :=
  if negb (pathable t) then false
  else if (lnot (type t) =? TILETYPE_FLAT)%Z && (ramp_height t >? 1)%Z
       then false
       else true.

Definition set_cost (ch : nav_chunk) (row col : nat) (v : Z)
  : result nav_chunk :=
  if (row <? FIELD_RES_R) && (col <? FIELD_RES_C)
  then Ok (mkchunk (num_portals ch) (portals ch)
                   (upd (cost_base ch) (cell_off row col) v))
  else OutOfBounds.

Definition n_set_cost_for_tile (ch : nav_chunk) (chunk_w chunk_h : nat)
  (tile_r tile_c : nat) (t : tile) : result nav_chunk :=
  field_per_map_r <- udiv FIELD_RES_R chunk_h ;;
  field_per_map_c <- udiv FIELD_RES_C chunk_w ;;
  let r_base := tile_r * field_per_map_r in
  let c_base := tile_c * field_per_map_c in
  let cost := if n_tile_pathable t then 1%Z else COST_IMPASSABLE in
  for_each (seq 0 field_per_map_r) (fun r ch1 =>
    for_each (seq 0 field_per_map_c) (fun c ch2 =>
      set_cost ch2 (r_base + r) (c_base + c) cost) ch1) ch.

(** ** Portal discovery *)

(** A non-zero [int] used as a condition. *)
Definition truthy (x : Z) : bool := negb (x =? 0)%Z.

Definition Z_of_bool (b : bool) : Z := if b then 1%Z else 0%Z.

(** [a_type & (EDGE_BOT | EDGE_TOP)]. *)
Definition on_horizontal_edge (t : edge_type) : bool :=
  truthy (Z.land (edge_bits t)
                 (Z.lor (edge_bits EDGE_BOT) (edge_bits EDGE_TOP))).

(** [a_type & (EDGE_LEFT | EDGE_RIGHT)]. *)
Definition on_vertical_edge (t : edge_type) : bool :=
  truthy (Z.land (edge_bits t)
                 (Z.lor (edge_bits EDGE_LEFT) (edge_bits EDGE_RIGHT))).

(** The first assertion of [n_link_chunks], with the precedence the C
    grammar gives it: [==] binds tighter than [|]. *)
Definition edge_types_assertion (a_type b_type : edge_type) : bool :=
  truthy (Z.lor (Z.lor (edge_bits a_type)
                       (Z_of_bool (edge_type_eqb b_type EDGE_BOT)))
                (edge_bits EDGE_TOP))
  || truthy (Z.lor (Z.lor (edge_bits a_type)
                          (Z_of_bool (edge_type_eqb b_type EDGE_LEFT)))
                   (edge_bits EDGE_RIGHT)).

Definition fixed_idx (t : edge_type) : Z :=
  if edge_type_eqb t EDGE_TOP then 0%Z
  else if edge_type_eqb t EDGE_BOT then Z.of_nat FIELD_RES_R - 1
  else if edge_type_eqb t EDGE_LEFT then 0%Z
  else Z.of_nat FIELD_RES_C - 1.

(** [&chunk->cost_base[t == EDGE_BOT ? FIELD_RES_R-1 : 0]
                      [t == EDGE_RIGHT ? FIELD_RES_C-1 : 0]]. *)
Definition cursor_start (t : edge_type) : nat :=
  cell_off (if edge_type_eqb t EDGE_BOT then FIELD_RES_R - 1 else 0)
           (if edge_type_eqb t EDGE_RIGHT then FIELD_RES_C - 1 else 0).

(** The coordinate of position [i] along an edge of type [t]. *)
Definition edge_coord (t : edge_type) (i : Z) : coord :=
  if on_horizontal_edge t then mkcoord (fixed_idx t) i
  else mkcoord i (fixed_idx t).

Definition zero_coord : coord := mkcoord 0 0.

Definition zero_edge : edge := mkedge NULL fzero.

(** The compound literal assigned to a slot when a run opens; the members
    that are not named are zero. *)
Definition new_portal (chunk_coord : coord) (t : edge_type) (i : nat)
  (other : portal_ptr) : portal :=
  mkportal chunk_coord (edge_coord t (Z.of_nat i)) zero_coord 0
           (fun _ => zero_edge) other.

Definition set_endpoints1 (p : portal) (e : coord) : portal :=
  mkportal (chunk p) (endpoints0 p) e (num_neighbours p) (edges p)
           (connected p).

Definition set_portals (ch : nav_chunk) (ps : nat -> portal) : nav_chunk :=
  mkchunk (num_portals ch) ps (cost_base ch).

Definition set_num_portals (ch : nav_chunk) (n : nat) : nav_chunk :=
  mkchunk n (portals ch) (cost_base ch).

(** The variables of the scan loop of [n_link_chunks]. *)
Record link_state : Type := mklink {
  ls_a : nav_chunk;
  ls_b : nav_chunk;
  ls_a_cursor : nat;
  ls_b_cursor : nat;
  ls_in_portal : bool
}.

(** One iteration of the scan loop.  [a_ptr] and [b_ptr] are the addresses
    of the two chunks.  The second operand of the second assertion measures
    [a_cursor], not [b_cursor], from the cost field of [b]. *)
Definition link_step (a_ptr : nat) (a_type : edge_type) (a_coord : coord)
  (b_ptr : nat) (b_type : edge_type) (b_coord : coord)
  (stride line_len : nat) (i : nat) (s : link_state) : result link_state :=
  let a := ls_a s in
  let b := ls_b s in
  assert ((0 <=? CURSOR_OFF a_ptr (ls_a_cursor s) a_ptr)%Z
          && (CURSOR_OFF a_ptr (ls_a_cursor s) a_ptr
              <? Z.of_nat (FIELD_RES_R * FIELD_RES_C))%Z) ;;;
  assert ((0 <=? CURSOR_OFF b_ptr (ls_b_cursor s) b_ptr)%Z
          && (CURSOR_OFF a_ptr (ls_a_cursor s) b_ptr
              <? Z.of_nat (FIELD_RES_R * FIELD_RES_C))%Z) ;;;
  a_cell <- load (FIELD_RES_R * FIELD_RES_C) (cost_base a) (ls_a_cursor s) ;;
  b_cell <- load (FIELD_RES_R * FIELD_RES_C) (cost_base b) (ls_b_cursor s) ;;
  let can_cross :=
    negb (a_cell =? COST_IMPASSABLE)%Z && negb (b_cell =? COST_IMPASSABLE)%Z in
  s' <-
    (if can_cross && negb (ls_in_portal s) then
       pa <- store MAX_PORTALS_PER_CHUNK (portals a) (num_portals a)
               (new_portal a_coord a_type i (PortalAt b_ptr (num_portals b))) ;;
       pb <- store MAX_PORTALS_PER_CHUNK (portals b) (num_portals b)
               (new_portal b_coord b_type i (PortalAt a_ptr (num_portals a))) ;;
       Ok (mklink (set_portals a pa) (set_portals b pb)
                  (ls_a_cursor s) (ls_b_cursor s) true)
     else if ls_in_portal s && (negb can_cross || (i =? line_len - 1)) then
       let idx := if negb can_cross then (Z.of_nat i - 1)%Z else Z.of_nat i in
       pa <- store MAX_PORTALS_PER_CHUNK (portals a) (num_portals a)
               (set_endpoints1 (portals a (num_portals a))
                               (edge_coord a_type idx)) ;;
       pb <- store MAX_PORTALS_PER_CHUNK (portals b) (num_portals b)
               (set_endpoints1 (portals b (num_portals b))
                               (edge_coord b_type idx)) ;;
       let a' := set_num_portals (set_portals a pa) (num_portals a + 1) in
       let b' := set_num_portals (set_portals b pb) (num_portals b + 1) in
       assert (num_portals a' <=? MAX_PORTALS_PER_CHUNK) ;;;
       assert (num_portals b' <=? MAX_PORTALS_PER_CHUNK) ;;;
       Ok (mklink a' b' (ls_a_cursor s) (ls_b_cursor s) false)
     else Ok s) ;;
  Ok (mklink (ls_a s') (ls_b s')
             (ls_a_cursor s' + stride) (ls_b_cursor s' + stride)
             (ls_in_portal s')).

Definition n_link_chunks (a : nav_chunk) (a_ptr : nat) (a_type : edge_type)
  (a_coord : coord) (b : nav_chunk) (b_ptr : nat) (b_type : edge_type)
  (b_coord : coord) : result (nav_chunk * nav_chunk) :=
  assert (edge_types_assertion a_type b_type) ;;;
  let stride := if on_horizontal_edge a_type then 1 else FIELD_RES_C in
  let line_len :=
    if on_horizontal_edge a_type then FIELD_RES_C else FIELD_RES_R in
  s <- for_each (seq 0 line_len)
         (link_step a_ptr a_type a_coord b_ptr b_type b_coord stride line_len)
         (mklink a b (cursor_start a_type) (cursor_start b_type) false) ;;
  Ok (ls_a s, ls_b s).

(** *** The scan loop, read as a function of the crossable positions *)

(** Offset of the cost cell at position [i] of the edge [t] of a chunk. *)
Definition edge_off (t : edge_type) (i : nat) : nat :=
  cursor_start t + i * (if on_horizontal_edge t then 1 else FIELD_RES_C).

Definition passable (ch : nav_chunk) (off : nat) : bool :=
  negb (cost_base ch off =? COST_IMPASSABLE)%Z.

(** Position [i] of the edge shared by [a] and [b] can be crossed: neither
    of the two aligned boundary cells is impassable. *)
Definition crossable (a : nav_chunk) (a_type : edge_type) (b : nav_chunk)
  (b_type : edge_type) (i : nat) : bool :=
  passable a (edge_off a_type i) && passable b (edge_off b_type i).

(** The two edges run in the same direction. *)
Definition same_orientation (a_type b_type : edge_type) : Prop :=
  on_horizontal_edge a_type = on_horizontal_edge b_type.

(** What the scan has recorded after some positions: the runs closed so
    far (first and last position, oldest first) and the first position of
    the run that is open, if one is. *)
Record scan_state : Type := mkscan {
  runs : list (nat * nat);
  opened : option nat
}.

Definition scan_step (mask : nat -> bool) (line_len : nat) (st : scan_state)
  (i : nat) : scan_state :=
  match opened st with
  | None => if mask i then mkscan (runs st) (Some i) else st
  | Some i0 =>
      if negb (mask i) then mkscan (runs st ++ [(i0, i - 1)]) None
      else if i =? line_len - 1 then mkscan (runs st ++ [(i0, i)]) None
      else st
  end.

Definition scan (mask : nat -> bool) (line_len n : nat) : scan_state :=
  fold_left (scan_step mask line_len) (seq 0 n) (mkscan [] None).

Definition is_open (st : scan_state) : bool :=
  match opened st with Some _ => true | None => false end.

(** Slots taken by the scan so far: one per closed run, one for an open
    run. *)
Definition scan_count (st : scan_state) : nat :=
  length (runs st) + match opened st with Some _ => 1 | None => 0 end.

(** Position [i] starts a maximal run of crossable positions. *)
Definition run_start (mask : nat -> bool) (i : nat) : bool :=
  mask i && negb ((0 <? i) && mask (i - 1)).

(** The number of maximal runs of crossable positions among the first [n]
    positions. *)
Definition count_runs (mask : nat -> bool) (n : nat) : nat :=
  length (filter (run_start mask) (seq 0 n)).

(** The portal record of a closed run. *)
Definition closed_portal (chunk_coord : coord) (t : edge_type)
  (i0 i1 : nat) (other : portal_ptr) : portal :=
  set_endpoints1 (new_portal chunk_coord t i0 other)
                 (edge_coord t (Z.of_nat i1)).

(** Chunk [a'] is chunk [a] with the runs [rs] recorded in the slots that
    follow the portals [a] had, each connected to the slot of the same rank
    after the first [nb] slots of the chunk at [b_ptr]. *)
Definition linked (a : nav_chunk) (a_type : edge_type) (a_coord : coord)
  (b_ptr nb : nat) (rs : list (nat * nat)) (a' : nav_chunk) : Prop :=
  cost_base a' = cost_base a /\
  num_portals a' = num_portals a + length rs /\
  (forall k, k < num_portals a -> portals a' k = portals a k) /\
  (forall k i0 i1, nth_error rs k = Some (i0, i1) ->
     portals a' (num_portals a + k)
     = closed_portal a_coord a_type i0 i1 (PortalAt b_ptr (nb + k))).

(** The scan does not run out of slots in either chunk. *)
Definition capacity_ok (na nb : nat) (st : scan_state) : bool :=
  (scan_count st =? 0)
  || ((na + scan_count st <=? MAX_PORTALS_PER_CHUNK)
      && (nb + scan_count st <=? MAX_PORTALS_PER_CHUNK)).

(** A call [n_link_chunks(&chunks[ia], ..., &chunks[ib], ...)] on the chunk
    array.  Every call made by [n_create_portals] has [ia <> ib]. *)
Definition link_in_store (chs : nat -> nav_chunk) (ia : nat)
  (a_type : edge_type) (a_coord : coord) (ib : nat) (b_type : edge_type)
  (b_coord : coord) : result (nat -> nav_chunk) :=
  ab <- n_link_chunks (chs ia) ia a_type a_coord (chs ib) ib b_type b_coord ;;
  Ok (upd (upd chs ia (fst ab)) ib (snd ab)).

(** [!!p] for a pointer [p]. *)
Definition not_null {A : Type} (p : option A) : nat :=
  match p with Some _ => 1 | None => 0 end.

Definition chunk_coord (r c : nat) : coord :=
  mkcoord (Z.of_nat r) (Z.of_nat c).

(** The body of the two loops of [n_create_portals]; the state is the chunk
    array and the counter [n_links]. *)
Definition create_portals_step (w h r c : nat)
  (s : (nat -> nav_chunk) * nat) : result ((nat -> nav_chunk) * nat) :=
  let curr := CHUNK_IDX r w c in
  let bot := if r <? h - 1 then Some (CHUNK_IDX (r + 1) w c) else None in
  let right := if c <? w - 1 then Some (CHUNK_IDX r w (c + 1)) else None in
  chs1 <- match bot with
          | Some b => link_in_store (fst s) curr EDGE_BOT (chunk_coord r c)
                                    b EDGE_TOP (chunk_coord (r + 1) c)
          | None => Ok (fst s)
          end ;;
  chs2 <- match right with
          | Some b => link_in_store chs1 curr EDGE_RIGHT (chunk_coord r c)
                                    b EDGE_LEFT (chunk_coord r (c + 1))
          | None => Ok chs1
          end ;;
  Ok (chs2, snd s + (not_null bot + not_null right)).

Definition create_portals_loops (w h : nat) (chs : nat -> nav_chunk)
  : result ((nat -> nav_chunk) * nat) :=
  for_each (seq 0 h) (fun r s =>
    for_each (seq 0 w) (fun c s' => create_portals_step w h r c s') s)
    (chs, 0).

(** The arguments of one call to [n_link_chunks]. *)
Record link_call : Type := mkcall {
  lc_a : nat;
  lc_a_type : edge_type;
  lc_a_coord : coord;
  lc_b : nat;
  lc_b_type : edge_type;
  lc_b_coord : coord
}.

(** The calls issued by the loop body for chunk [(r, c)], in order. *)
Definition link_calls_at (w h r c : nat) : list link_call :=
  (if r <? h - 1
   then [mkcall (CHUNK_IDX r w c) EDGE_BOT (chunk_coord r c)
                (CHUNK_IDX (r + 1) w c) EDGE_TOP (chunk_coord (r + 1) c)]
   else [])
  ++ (if c <? w - 1
      then [mkcall (CHUNK_IDX r w c) EDGE_RIGHT (chunk_coord r c)
                   (CHUNK_IDX r w (c + 1)) EDGE_LEFT (chunk_coord r (c + 1))]
      else []).

(** The calls issued by the two loops of [n_create_portals], in order. *)
Definition link_calls (w h : nat) : list link_call :=
  flat_map (fun r => flat_map (link_calls_at w h r) (seq 0 w)) (seq 0 h).

Definition run_link_call (lc : link_call) (chs : nat -> nav_chunk)
  : result (nat -> nav_chunk) :=
  link_in_store chs (lc_a lc) (lc_a_type lc) (lc_a_coord lc)
                (lc_b lc) (lc_b_type lc) (lc_b_coord lc).

Definition call_pair (lc : link_call) : nat * nat := (lc_a lc, lc_b lc).

(** Chunk [ib] is the bottom or the right neighbour of chunk [ia] in the
    grid of [w] by [h] chunks. *)
Definition internal_adjacency (w h ia ib : nat) : Prop :=
  exists r c, r < h /\ c < w /\ ia = CHUNK_IDX r w c /\
    ((r + 1 < h /\ ib = CHUNK_IDX (r + 1) w c) \/
     (c + 1 < w /\ ib = CHUNK_IDX r w (c + 1))).

Definition n_create_portals (priv : nav_private) : result nav_private :=
  let w := width priv in
  let h := height priv in
  s <- create_portals_loops w h (chunks priv) ;;
  assert (snd s =? w * (w - 1) + h * (h - 1)) ;;;
  Ok (mkpriv w h (fst s)).

(** ** Portal linker *)

(** The value of an [int] expression whose exact value is [x].  An [int]
    has 32 bits; a sum that leaves its range is taken to wrap around, as
    two's complement implementations have it (the C standard leaves the
    overflow undefined). *)
Definition int_wrap (x : Z) : Z :=
  ((x + 2147483648) mod 4294967296 - 2147483648)%Z.

(** The cell midway between the two endpoints of a portal:
    [(endpoints[0].r + endpoints[1].r) / 2] and the same for [c]; the
    division of C rounds towards zero. *)
Definition midpoint (p : portal) : coord :=
  mkcoord (Z.quot (int_wrap (r (endpoints0 p) + r (endpoints1 p))) 2)
          (Z.quot (int_wrap (c (endpoints0 p) + c (endpoints1 p))) 2).

(** The contents of [chunk->cost_base], row by row. *)
Definition cost_field (ch : nav_chunk) : list Z :=
  map (cost_base ch) (seq 0 (FIELD_RES_R * FIELD_RES_C)).

Definition add_edge (p : portal) (es : nat -> edge) : portal :=
  mkportal (chunk p) (endpoints0 p) (endpoints1 p) (num_neighbours p + 1) es
           (connected p).

(** The body of the inner loop of [n_link_chunk_portals].  The state is the
    chunk together with the list of the calls made to the pathfinder so
    far (start cell, goal cell, cost grid), oldest first.  [self] is the
    address of the chunk. *)
Definition link_portals_step (self i j : nat)
  (s : nav_chunk * list (coord * coord * list Z))
  : result (nav_chunk * list (coord * coord * list Z)) :=
  if i =? j then Ok s
  else
    let ch := fst s in
    port <- load MAX_PORTALS_PER_CHUNK (portals ch) i ;;
    link_candidate <- load MAX_PORTALS_PER_CHUNK (portals ch) j ;;
    let a := midpoint port in
    let b := midpoint link_candidate in
    let calls := snd s ++ [(a, b, cost_field ch)] in
    match AStar_GridPath a b (cost_field ch) with
    | Some cost =>
        es <- store (MAX_PORTALS_PER_CHUNK - 1) (edges port)
                (num_neighbours port) (mkedge (PortalAt self j) cost) ;;
        Ok (set_portals ch (upd (portals ch) i (add_edge port es)), calls)
    | None => Ok (ch, calls)
    end.

Definition n_link_chunk_portals (self : nat) (ch : nav_chunk)
  : result (nav_chunk * list (coord * coord * list Z)) :=
  for_each (seq 0 (num_portals ch)) (fun i s =>
    for_each (seq 0 (num_portals (fst s))) (fun j s' =>
      link_portals_step self i j s') s)
    (ch, []).

(** ** Navigation store *)

(** The tile loops of [N_BuildForMapData] for one chunk. *)
Definition build_cost_field (chunk_w chunk_h : nat) (tiles : nat -> tile)
  (ch : nav_chunk) : result nav_chunk :=
  for_each (seq 0 chunk_h) (fun tile_r ch1 =>
    for_each (seq 0 chunk_w) (fun tile_c ch2 =>
      n_set_cost_for_tile ch2 chunk_w chunk_h tile_r tile_c
        (tiles (tile_r * chunk_w + tile_c))) ch1)
    (set_num_portals ch 0).

Definition build_cost_fields (w h chunk_w chunk_h : nat)
  (chunk_tiles : nat -> nat -> tile) (chs : nat -> nav_chunk)
  : result (nat -> nav_chunk) :=
  for_each (seq 0 h) (fun chunk_r chs1 =>
    for_each (seq 0 w) (fun chunk_c chs2 =>
      let idx := CHUNK_IDX chunk_r w chunk_c in
      ch <- build_cost_field chunk_w chunk_h (chunk_tiles idx) (chs2 idx) ;;
      Ok (upd chs2 idx ch)) chs1) chs.

Definition link_all_chunk_portals (w h : nat) (chs : nat -> nav_chunk)
  : result (nat -> nav_chunk) :=
  for_each (seq 0 h) (fun chunk_r chs1 =>
    for_each (seq 0 w) (fun chunk_c chs2 =>
      let idx := CHUNK_IDX chunk_r w chunk_c in
      res <- n_link_chunk_portals idx (chs2 idx) ;;
      Ok (upd chs2 idx (fst res))) chs1) chs.

(** [FIELD_RES >= chunk_dim && FIELD_RES % chunk_dim == 0]. *)
Definition resolution_assertion (res chunk_dim : nat) : result unit :=
  if chunk_dim <=? res
  then m <- umod res chunk_dim ;; assert (m =? 0)
  else AssertFail.

(** [heap] is what [malloc] answers: [None] for a null pointer, otherwise
    the block with whatever it holds.  [chunk_tiles idx k] is
    [chunk_tiles[idx][k]].  The result [Ok None] is the null handle. *)
Definition N_BuildForMapData (w h chunk_w chunk_h : nat)
  (chunk_tiles : nat -> nat -> tile) (heap : option (nat -> nav_chunk))
  : result (option nav_private) :=
  match heap with
  | None => Ok None
  | Some block =>
      resolution_assertion FIELD_RES_R chunk_h ;;;
      resolution_assertion FIELD_RES_C chunk_w ;;;
      chs <- build_cost_fields w h chunk_w chunk_h chunk_tiles block ;;
      priv <- n_create_portals (mkpriv w h chs) ;;
      chs' <- link_all_chunk_portals (width priv) (height priv)
                (chunks priv) ;;
      Ok (Some (mkpriv (width priv) (height priv) chs'))
  end.

(** ** Debug overlay *)

(** A [vec3_t] colour whose components are 0.0f or 1.0f. *)
Definition color : Type := (Z * Z * Z)%type.
Definition red : color := (1, 0, 0)%Z.
Definition green : color := (0, 1, 0)%Z.
Definition yellow : color := (1, 1, 0)%Z.

(** One overlay quad: the cost cell it covers and its colour.  The four
    corners are a floating-point function of the cell alone, the same in
    every renderer of nav.c. *)
Record quad : Type := mkquad {
  quad_cell : coord;
  quad_color : color
}.

(** The values of [for (int x = lo; x <= hi; x++)]. *)
Definition int_range (lo hi : Z) : list Z :=
  map (fun k => (lo + Z.of_nat k)%Z) (seq 0 (Z.to_nat (hi - lo + 1))).

(** [*colors_base++ = q] into a buffer of [cap] entries. *)
Definition push_quad (cap : nat) (buf : list quad) (q : quad)
  : result (list quad) :=
  if length buf <? cap then Ok (buf ++ [q]) else OutOfBounds.

(** [n_render_portals]: the quads handed to [R_GL_DrawMapOverlayQuads]. *)
Definition n_render_portals (ch : nav_chunk) : result (list quad) :=
  for_each (seq 0 (num_portals ch)) (fun i buf =>
    port <- load MAX_PORTALS_PER_CHUNK (portals ch) i ;;
    let r_start := Z.min (r (endpoints0 port)) (r (endpoints1 port)) in
    let r_end := Z.max (r (endpoints0 port)) (r (endpoints1 port)) in
    for_each (int_range r_start r_end) (fun row buf1 =>
      let c_start := Z.min (c (endpoints0 port)) (c (endpoints1 port)) in
      let c_end := Z.max (c (endpoints0 port)) (c (endpoints1 port)) in
      for_each (int_range c_start c_end) (fun col buf2 =>
        push_quad (2 * FIELD_RES_C + 2 * FIELD_RES_R) buf2
                  (mkquad (mkcoord row col) yellow)) buf1) buf) [].

(** The cell loops of [N_RenderPathableChunk]. *)
Definition render_cells (ch : nav_chunk) : result (list quad) :=
  for_each (seq 0 FIELD_RES_R) (fun row buf =>
    for_each (seq 0 FIELD_RES_C) (fun col buf1 =>
      cell <- load (FIELD_RES_R * FIELD_RES_C) (cost_base ch)
                (cell_off row col) ;;
      push_quad (FIELD_RES_R * FIELD_RES_C) buf1
        (mkquad (mkcoord (Z.of_nat row) (Z.of_nat col))
                (if (cell =? COST_IMPASSABLE)%Z then red else green))) buf)
    [].

(** [N_RenderPathableChunk]: the batches handed to
    [R_GL_DrawMapOverlayQuads], in the order of the calls. *)
Definition N_RenderPathableChunk (priv : nav_private) (chunk_r chunk_c : Z)
  : result (list (list quad)) :=
  assert ((0 <=? chunk_r)%Z && (chunk_r <? Z.of_nat (height priv))%Z) ;;;
  assert ((0 <=? chunk_c)%Z && (chunk_c <? Z.of_nat (width priv))%Z) ;;;
  let ch := chunks priv (CHUNK_IDX (Z.to_nat chunk_r) (width priv)
                                   (Z.to_nat chunk_c)) in
  portal_quads <- n_render_portals ch ;;
  cell_quads <- render_cells ch ;;
  assert (length cell_quads =? FIELD_RES_R * FIELD_RES_C) ;;;
  Ok [portal_quads; cell_quads].

(** The state of the scan loop of [n_link_chunks a .. b ..] before
    iteration [i]: what the loop has written is what [scan] recorded. *)
Definition link_inv (a : nav_chunk) (a_ptr : nat) (a_type : edge_type)
  (a_coord : coord) (b : nav_chunk) (b_ptr : nat) (b_type : edge_type)
  (b_coord : coord) (line_len i : nat) (s : link_state) : Prop :=
  let st := scan (crossable a a_type b b_type) line_len i in
  linked a a_type a_coord b_ptr (num_portals b) (runs st) (ls_a s) /\
  linked b b_type b_coord a_ptr (num_portals a) (runs st) (ls_b s) /\
  ls_a_cursor s = edge_off a_type i /\
  ls_b_cursor s = edge_off b_type i /\
  ls_in_portal s = is_open st /\
  (forall i0, opened st = Some i0 ->
     i0 < i /\
     portals (ls_a s) (num_portals (ls_a s))
     = new_portal a_coord a_type i0 (PortalAt b_ptr (num_portals (ls_b s))) /\
     portals (ls_b s) (num_portals (ls_b s))
     = new_portal b_coord b_type i0 (PortalAt a_ptr (num_portals (ls_a s)))) /\
  capacity_ok (num_portals a) (num_portals b) st = true.


(** *** The state of the chunk array during discovery *)

Definition opposite (t : edge_type) : edge_type :=
  match t with
  | EDGE_BOT => EDGE_TOP
  | EDGE_TOP => EDGE_BOT
  | EDGE_LEFT => EDGE_RIGHT
  | EDGE_RIGHT => EDGE_LEFT
  end.

(** The chunk that lies across the edge [t] of chunk [idx] in the grid of
    [w] by [h] chunks; [None] on the boundary of the world. *)
Definition neighbour_across (w h idx : nat) (t : edge_type) : option nat :=
  let row := idx / w in
  let col := idx mod w in
  match t with
  | EDGE_BOT => if row + 1 <? h then Some (CHUNK_IDX (row + 1) w col) else None
  | EDGE_TOP => if 1 <=? row then Some (CHUNK_IDX (row - 1) w col) else None
  | EDGE_RIGHT => if col + 1 <? w then Some (CHUNK_IDX row w (col + 1)) else None
  | EDGE_LEFT => if 1 <=? col then Some (CHUNK_IDX row w (col - 1)) else None
  end.

(** Portal [k] of chunk [idx] is one half of a pair: it spans the
    positions [i0..i1] of an edge [t] that faces chunk [idx'], every one
    of them crossable, and slot [k'] of [idx'] holds the other half. *)
Definition portal_paired (w h : nat) (chs : nat -> nav_chunk)
  (idx k : nat) : Prop :=
  exists t idx' k' i0 i1,
    neighbour_across w h idx t = Some idx' /\
    k' < num_portals (chs idx') /\
    connected (portals (chs idx) k) = PortalAt idx' k' /\
    connected (portals (chs idx') k') = PortalAt idx k /\
    chunk (portals (chs idx) k) = chunk_coord (idx / w) (idx mod w) /\
    endpoints0 (portals (chs idx) k) = edge_coord t (Z.of_nat i0) /\
    endpoints1 (portals (chs idx) k) = edge_coord t (Z.of_nat i1) /\
    endpoints0 (portals (chs idx') k') = edge_coord (opposite t) (Z.of_nat i0) /\
    endpoints1 (portals (chs idx') k') = edge_coord (opposite t) (Z.of_nat i1) /\
    i0 <= i1 < 64 /\
    (forall i, i0 <= i <= i1 ->
       crossable (chs idx) t (chs idx') (opposite t) i = true).

(** Every recorded portal of every chunk of the map is half of a pair. *)
Definition discovered (w h : nat) (chs : nat -> nav_chunk) : Prop :=
  forall idx k, idx < h * w -> k < num_portals (chs idx) ->
    portal_paired w h chs idx k.

(** A call links two chunks of the map across the edge they share, the
    first stored before the second. *)
Definition call_ok (w h : nat) (lc : link_call) : Prop :=
  lc_a lc < h * w /\ lc_b lc < h * w /\ lc_a lc < lc_b lc /\
  lc_b_type lc = opposite (lc_a_type lc) /\
  neighbour_across w h (lc_a lc) (lc_a_type lc) = Some (lc_b lc) /\
  neighbour_across w h (lc_b lc) (lc_b_type lc) = Some (lc_a lc) /\
  lc_a_coord lc = chunk_coord (lc_a lc / w) (lc_a lc mod w) /\
  lc_b_coord lc = chunk_coord (lc_b lc / w) (lc_b lc mod w).

(** The chunk array [chs'] keeps the cost fields and the recorded portals
    of [chs]. *)
Definition extends (chs chs' : nat -> nav_chunk) : Prop :=
  forall idx,
    cost_base (chs' idx) = cost_base (chs idx) /\
    num_portals (chs idx) <= num_portals (chs' idx) /\
    (forall k, k < num_portals (chs idx) ->
       portals (chs' idx) k = portals (chs idx) k).


(** *** What the portal linker is to produce *)

(** The calls made to the pathfinder for portal [i] of [ch] against the
    portals [js]: one for each [j] other than [i], from the midpoint of [i]
    to the midpoint of [j], on the cost field of [ch]. *)
Definition pathfinder_calls (ch : nav_chunk) (i : nat) (js : list nat)
  : list (coord * coord * list Z) :=
  flat_map (fun j =>
    if i =? j then []
    else [(midpoint (portals ch i), midpoint (portals ch j), cost_field ch)])
    js.

(** The edges found from portal [i] of [ch] to the portals [js]: one for
    each [j] other than [i] to which the pathfinder reports a path, with
    the cost it returns. *)
Definition found_edges (self : nat) (ch : nav_chunk) (i : nat)
  (js : list nat) : list edge :=
  flat_map (fun j =>
    if i =? j then []
    else match AStar_GridPath (midpoint (portals ch i))
                              (midpoint (portals ch j)) (cost_field ch) with
         | Some cost => [mkedge (PortalAt self j) cost]
         | None => []
         end) js.

(** Portal [p'] is portal [p] with the edges [es] added after the edges
    [p] had. *)
Definition edges_appended (p p' : portal) (es : list edge) : Prop :=
  chunk p' = chunk p /\
  endpoints0 p' = endpoints0 p /\
  endpoints1 p' = endpoints1 p /\
  connected p' = connected p /\
  num_neighbours p' = num_neighbours p + length es /\
  (forall k, k < num_neighbours p -> edges p' k = edges p k) /\
  (forall k e, nth_error es k = Some e ->
     edges p' (num_neighbours p + k) = e).

(** The state of the linker before it turns to portal [i]. *)
Definition linker_inv (self : nat) (ch : nav_chunk) (i : nat)
  (s : nav_chunk * list (coord * coord * list Z)) : Prop :=
  num_portals (fst s) = num_portals ch /\
  cost_base (fst s) = cost_base ch /\
  (forall k, k < i ->
     edges_appended (portals ch k) (portals (fst s) k)
       (found_edges self ch k (seq 0 (num_portals ch)))) /\
  (forall k, i <= k -> portals (fst s) k = portals ch k) /\
  snd s = flat_map (fun k => pathfinder_calls ch k (seq 0 (num_portals ch)))
                   (seq 0 i).

(** The state of the linker before it tries portal [i] against
    portal [j]. *)
Definition linker_row_inv (self : nat) (ch : nav_chunk) (i j : nat)
  (s : nav_chunk * list (coord * coord * list Z)) : Prop :=
  num_portals (fst s) = num_portals ch /\
  cost_base (fst s) = cost_base ch /\
  (forall k, k < i ->
     edges_appended (portals ch k) (portals (fst s) k)
       (found_edges self ch k (seq 0 (num_portals ch)))) /\
  edges_appended (portals ch i) (portals (fst s) i)
    (found_edges self ch i (seq 0 j)) /\
  (forall k, i < k -> portals (fst s) k = portals ch k) /\
  snd s = flat_map (fun k => pathfinder_calls ch k (seq 0 (num_portals ch)))
                   (seq 0 i)
          ++ pathfinder_calls ch i (seq 0 j).


(** *** Cells that can be entered *)

(** The cost cell [(row, col)] of a chunk is not impassable. *)
Definition open_cell (ch : nav_chunk) (row col : nat) : Prop :=
  cost_base ch (cell_off row col) <> COST_IMPASSABLE.

(** *** The portal linker, as the specification words it *)

(** The midpoint cell of a portal: the componentwise average of its two
    endpoints, an integer; the quotient rounds towards zero. *)
Definition spec_midpoint (p : portal) : coord :=
  mkcoord (Z.quot (r (endpoints0 p) + r (endpoints1 p)) 2)
          (Z.quot (c (endpoints0 p) + c (endpoints1 p)) 2).

(** The sums of the two endpoints of [p], by row and by column, are
    values of an [int]. *)
Definition sums_fit_int (p : portal) : Prop :=
  (-2147483648 <= r (endpoints0 p) + r (endpoints1 p) <= 2147483647)%Z /\
  (-2147483648 <= c (endpoints0 p) + c (endpoints1 p) <= 2147483647)%Z.

(** [g] is the cost grid of the chunk [ch]: it has the
    FIELD_RES_R * FIELD_RES_C cost cells of [ch], row after row. *)
Definition is_cost_grid (ch : nav_chunk) (g : list Z) : Prop :=
  length g = FIELD_RES_R * FIELD_RES_C /\
  forall row col, row < FIELD_RES_R -> col < FIELD_RES_C ->
    nth_error g (row * FIELD_RES_C + col)
    = Some (cost_base ch (cell_off row col)).

(** The start and goal cells of the pathfinder calls for [ch]: one call
    for every ordered pair of distinct portals, by first portal and then
    by second. *)
Definition spec_pairs (ch : nav_chunk) : list (coord * coord) :=
  flat_map (fun i =>
    flat_map (fun j =>
      if i =? j then []
      else [(spec_midpoint (portals ch i), spec_midpoint (portals ch j))])
      (seq 0 (num_portals ch)))
    (seq 0 (num_portals ch)).

(** The edges of portal [i] of [ch]: one to every other portal [j] to
    which the pathfinder reports a path on the grid [g], with the cost of
    that path, by increasing [j]. *)
Definition spec_edges (self : nat) (ch : nav_chunk) (g : list Z) (i : nat)
  : list edge :=
  flat_map (fun j =>
    if i =? j then []
    else match AStar_GridPath (spec_midpoint (portals ch i))
                              (spec_midpoint (portals ch j)) g with
         | Some cost => [mkedge (PortalAt self j) cost]
         | None => []
         end)
    (seq 0 (num_portals ch)).

(** *** The overlay, as lists *)

(** One quad per cost cell, row by row: red on an impassable cell, green
    on any other. *)
Definition cell_quads (ch : nav_chunk) : list quad :=
  flat_map (fun row =>
    map (fun col =>
      mkquad (mkcoord (Z.of_nat row) (Z.of_nat col))
             (if (cost_base ch (cell_off row col) =? COST_IMPASSABLE)%Z
              then red else green))
        (seq 0 FIELD_RES_C))
    (seq 0 FIELD_RES_R).

(** One yellow quad per cell of the rectangle spanned by the two endpoints
    of a portal. *)
Definition portal_span_quads (p : portal) : list quad :=
  flat_map (fun row =>
    map (fun col => mkquad (mkcoord row col) yellow)
        (int_range (Z.min (c (endpoints0 p)) (c (endpoints1 p)))
                   (Z.max (c (endpoints0 p)) (c (endpoints1 p)))))
    (int_range (Z.min (r (endpoints0 p)) (r (endpoints1 p)))
               (Z.max (r (endpoints0 p)) (r (endpoints1 p)))).

(** The yellow quads of all the recorded portals of a chunk, portal by
    portal. *)
Definition portal_quads (ch : nav_chunk) : list quad :=
  flat_map (fun i => portal_span_quads (portals ch i))
           (seq 0 (num_portals ch)).

(** Cell [(row, col)] lies in the span of portal [p]. *)
Definition in_span (p : portal) (row col : Z) : Prop :=
  (Z.min (r (endpoints0 p)) (r (endpoints1 p)) <= row
   <= Z.max (r (endpoints0 p)) (r (endpoints1 p)))%Z /\
  (Z.min (c (endpoints0 p)) (c (endpoints1 p)) <= col
   <= Z.max (c (endpoints0 p)) (c (endpoints1 p)))%Z.


(** *** Comparing two runs *)

(** Two runs end the same way, with results related by [R] when both
    return. *)
Inductive result_rel (A B : Type) (R : A -> B -> Prop)
  : result A -> result B -> Prop :=
| rel_ok (x : A) (y : B) : R x y -> result_rel R (Ok x) (Ok y)
| rel_assert_fail : result_rel R AssertFail AssertFail
| rel_out_of_bounds : result_rel R OutOfBounds OutOfBounds
| rel_div_by_zero : result_rel R DivByZero DivByZero.

(** Two chunks hold the same navigation data: the same cost cells, the
    same number of portals and the same portal records below that number.
    What lies in the unused slots of the portal array is left aside. *)
Definition chunk_eqv (c1 c2 : nav_chunk) : Prop :=
  num_portals c1 = num_portals c2 /\
  (forall k, k < num_portals c1 -> portals c1 k = portals c2 k) /\
  (forall off, off < FIELD_RES_R * FIELD_RES_C ->
     cost_base c1 off = cost_base c2 off).

Definition store_eqv (n : nat) (chs1 chs2 : nat -> nav_chunk) : Prop :=
  forall idx, idx < n -> chunk_eqv (chs1 idx) (chs2 idx).

Definition nav_eqv (p1 p2 : nav_private) : Prop :=
  width p1 = width p2 /\ height p1 = height p2 /\
  store_eqv (height p1 * width p1) (chunks p1) (chunks p2).

Definition handle_eqv (h1 h2 : option nav_private) : Prop :=
  match h1, h2 with
  | Some p1, Some p2 => nav_eqv p1 p2
  | None, None => True
  | _, _ => False
  end.

(** The cost cell at offset [off] of a chunk built from [tiles]. *)
Definition built_cost (chunk_w chunk_h : nat) (tiles : nat -> tile)
  (off : nat) : Z :=
  let row := off / FIELD_RES_C in
  let col := off mod FIELD_RES_C in
  let t := tiles (row / (FIELD_RES_R / chunk_h) * chunk_w
                  + col / (FIELD_RES_C / chunk_w)) in
  if n_tile_pathable t then 1%Z else COST_IMPASSABLE.

Definition blank_portal : portal :=
  mkportal zero_coord zero_coord zero_coord 0 (fun _ => zero_edge) NULL.

(** A chunk with the cost field built from [tiles] and no portal. *)
Definition built_chunk (chunk_w chunk_h : nat) (tiles : nat -> tile)
  : nav_chunk :=
  mkchunk 0 (fun _ => blank_portal) (built_cost chunk_w chunk_h tiles).

(** Portal discovery and the portal linker, run on a chunk array. *)
Definition discover_and_link (w h : nat) (chs : nat -> nav_chunk)
  : result (option nav_private) :=
  priv <- n_create_portals (mkpriv w h chs) ;;
  chs' <- link_all_chunk_portals (width priv) (height priv) (chunks priv) ;;
  Ok (Some (mkpriv (width priv) (height priv) chs')).


(** Chunk [c'] has the cost cells, the number of portals and, slot by
    slot, the owner, endpoints and counterpart of chunk [c]. *)
Definition same_layout (c c' : nav_chunk) : Prop :=
  num_portals c' = num_portals c /\
  cost_base c' = cost_base c /\
  forall k,
    chunk (portals c' k) = chunk (portals c k) /\
    endpoints0 (portals c' k) = endpoints0 (portals c k) /\
    endpoints1 (portals c' k) = endpoints1 (portals c k) /\
    connected (portals c' k) = connected (portals c k).


(** *** Chunk arrays of the worked instances *)

(** A chunk without portals whose cost cells are all 1. *)
Definition open_chunk : nav_chunk :=
  mkchunk 0 (fun _ => blank_portal) (fun _ => 1%Z).

(** What [malloc] might hand out: nothing is assumed of it. *)
Definition stale_chunk : nav_chunk :=
  mkchunk 7 (fun _ => blank_portal) (fun _ => 3%Z).

(** A chunk with two recorded portals, on its bottom and on its top
    edge. *)
Definition two_portal_chunk : nav_chunk :=
  mkchunk 2
    (fun k => if k =? 0
              then closed_portal (chunk_coord 1 0) EDGE_BOT 0 63 (PortalAt 2 0)
              else closed_portal (chunk_coord 1 0) EDGE_TOP 0 62
                                 (PortalAt 0 0))
    (fun _ => 1%Z).

(** The store of the map of 2 by 2 chunks with the tiles [strip_tiles]. *)
Definition strip_nav : nav_private :=
  match discover_and_link 2 2
          (fun idx => built_chunk 1 1 (strip_tiles idx)) with
  | Ok (Some p) => p
  | _ => mkpriv 0 0 (fun _ => open_chunk)
  end.

Definition is_ok {A : Type} (m : result A) : bool :=
  match m with Ok _ => true | _ => false end.


(** *** Capacity of the portal arrays *)

(** The scan loop of [n_link_chunks], stopped after [n] positions. *)
Definition link_scan (a : nav_chunk) (a_ptr : nat) (a_type : edge_type)
  (a_coord : coord) (b : nav_chunk) (b_ptr : nat) (b_type : edge_type)
  (b_coord : coord) (n : nat) : result link_state :=
  for_each (seq 0 n)
    (link_step a_ptr a_type a_coord b_ptr b_type b_coord
       (if on_horizontal_edge a_type then 1 else FIELD_RES_C)
       (if on_horizontal_edge a_type then FIELD_RES_C else FIELD_RES_R))
    (mklink a b (cursor_start a_type) (cursor_start b_type) false).

(** The call [lc] has chunk [idx] on one of its two sides. *)
Definition touches (idx : nat) (lc : link_call) : bool :=
  (lc_a lc =? idx) || (lc_b lc =? idx).

(** Along every edge of the chunk the cost cells come in pairs: positions
    [2m] and [2m+1] hold the same cost.  This is the case when every tile
    covers an even number of cells in both directions. *)
Definition paired_cells (ch : nav_chunk) : Prop :=
  forall t m, m < 32 ->
    cost_base ch (edge_off t (2 * m + 1)) = cost_base ch (edge_off t (2 * m)).

(** ** The cost of a tile, as the specification words it *)

(** What the specification asks of a tile: cost 1 unless the tile is not
    pathable, or is not flat and has a ramp height above 1. *)
Definition spec_tile_blocked (t : tile) : bool :=
  negb (pathable t)
  || (negb (type t =? TILETYPE_FLAT)%Z && (ramp_height t >? 1)%Z).

Definition spec_tile_cost (t : tile) : Z :=
  if spec_tile_blocked t then COST_IMPASSABLE else 1%Z.

(** The block of cost cells that belongs to tile [(tile_r, tile_c)]. *)
Definition in_block (chunk_w chunk_h tile_r tile_c row col : nat) : Prop :=
  tile_r * (FIELD_RES_R / chunk_h) <= row
    < tile_r * (FIELD_RES_R / chunk_h) + FIELD_RES_R / chunk_h /\
  tile_c * (FIELD_RES_C / chunk_w) <= col
    < tile_c * (FIELD_RES_C / chunk_w) + FIELD_RES_C / chunk_w.



(** *** Maximal runs *)




(** *** The portal graph of a chunk *)

(** Every recorded portal of the map is within the capacity of its chunk
    and has no edge yet: the state of the chunk array between portal
    discovery and the portal linker. *)
Definition unlinked (w h : nat) (chs : nat -> nav_chunk) : Prop :=
  forall idx, idx < h * w ->
    num_portals (chs idx) <= MAX_PORTALS_PER_CHUNK /\
    forall k, k < num_portals (chs idx) ->
      num_neighbours (portals (chs idx) k) = 0.

(** Portal [k] of the chunk [ch], stored at index [self] of the chunk
    array, has an edge to portal [j] of the same chunk with cost [w]. *)
Definition has_edge (self : nat) (ch : nav_chunk) (k j : nat) (w : float)
  : Prop :=
  exists e, e < num_neighbours (portals ch k) /\
            edges (portals ch k) e = mkedge (PortalAt self j) w.

(** *** Cells covered by portals *)

(** The number of positions covered by the runs [rs]. *)
Definition run_cells (rs : list (nat * nat)) : nat :=
  list_sum (map (fun run => snd run - fst run + 1) rs).


(** ** Path overlay *)

(** [coord_vec_t] is a vector of klib; kvec.h is not among the sources at
    hand.  Of such a vector, [kv_size] elements are in use, out of a
    storage for [kv_max] elements held in [kv_a].  [kv_A(v, i)] is
    [v.a[i]]: it reads the storage and does not look at the size. *)
Record coord_vec : Type := mkvec {
  kv_size : nat;
  kv_max : nat;
  kv_a : nat -> coord
}.

Definition kv_A (v : coord_vec) (i : nat) : result coord :=
  load (kv_max v) (kv_a v) i.

Definition blue : color := (0, 0, 1)%Z.

(** The declaration of a variable length array of [n] elements.  The
    length of such an array has to be greater than zero; the behaviour is
    undefined when it is not. *)
Definition vla (n : nat) : result unit :=
  if n =? 0 then OutOfBounds else Ok tt.

(** [n_render_grid_path]: the quads handed to [R_GL_DrawMapOverlayQuads].
    The state of the loop is the colour buffer filled so far and the cell
    [(r, c)] that the loop header has read for the iteration to come: the
    header reads element 0 before the first test of [i < kv_size], and
    element [i + 1] after every iteration. *)
Definition n_render_grid_path (path : coord_vec) : result (list quad) :=
  vla (4 * kv_size path) ;;;
  vla (kv_size path) ;;;
  first <- kv_A path 0 ;;
  s <- for_each (seq 0 (kv_size path)) (fun i s =>
         buf <- push_quad (kv_size path) (fst s) (mkquad (snd s) blue) ;;
         next <- kv_A path (i + 1) ;;
         Ok (buf, next)) ([], first) ;;
  assert (length (fst s) =? kv_size path) ;;;
  Ok (fst s).


(** A map of 3 by 3 chunks of one tile each: the chunks of the middle
    column are open, the others are walls. *)
Definition column_tiles (idx : nat) (k : nat) : tile :=
  if idx mod 3 =? 1 then flat_tile else wall_tile.


(** ** Map loader (src/map/map_asset_load.c): the tiles of a chunk

    The navigation store is built from the tiles that the loader reads
    from the text of a map.  A string is the list of the characters of a C
    string, the terminator left out. *)

Section MapLoader.

(** Whether plain [char] is a signed type (the C implementation decides). *)
Variable char_is_signed : bool.

(** The value of a [char], as an [int]. *)
Definition char_value (a : Ascii.ascii) : Z :=
  let n := Z.of_nat (Ascii.nat_of_ascii a) in
  if char_is_signed && (128 <=? n)%Z then (n - 256)%Z else n.

(** [A2I(_a)], that is [(_a) - '0']. *)
Definition A2I (a : Ascii.ascii) : Z := (char_value a - 48)%Z.

(** [str[i]], for [i] below [strlen(str)]. *)
Definition char_at (str : list Ascii.ascii) (i : nat) : Ascii.ascii :=
  nth i str Ascii.zero.

(** [strtol(s, NULL, 16)] for the string [s] that consists of the one
    character [a]: the value of [a] as a hexadecimal digit, and 0 when [a]
    is no such digit. *)
Definition strtol_hex_digit (a : Ascii.ascii) : Z :=
  let n := Ascii.nat_of_ascii a in
  if (48 <=? n) && (n <=? 57) then Z.of_nat (n - 48)
  else if (65 <=? n) && (n <=? 70) then Z.of_nat (n - 55)
  else if (97 <=? n) && (n <=? 102) then Z.of_nat (n - 87)
  else 0%Z.

(** [struct tile] (map/public/tile.h, not among the sources at hand) with
    all the members that [m_al_parse_tile] assigns: the three that the
    navigation code reads, in [nav_part], and five more. *)
Record map_tile : Type := mkmaptile {
  nav_part : tile;
  base_height : Z;
  top_mat_idx : Z;
  sides_mat_idx : Z;
  blend_mode : Z;
  blend_normals : bool
}.

(** What [m_al_parse_tile] writes to [*out] when it succeeds: the record
    is cleared, then the eight members are assigned from the characters at
    the positions 0 to 14. *)
Definition tile_of_text (str : list Ascii.ascii) : map_tile :=
  mkmaptile
    (mktile (negb (A2I (char_at str 12) =? 0)%Z)
            (strtol_hex_digit (char_at str 0))
            (10 * A2I (char_at str 4) + A2I (char_at str 5))%Z)
    ((if Ascii.eqb (char_at str 1) "-"%char then -1 else 1)
     * (10 * A2I (char_at str 2) + A2I (char_at str 3)))%Z
    (100 * A2I (char_at str 6) + 10 * A2I (char_at str 7)
     + A2I (char_at str 8))%Z
    (100 * A2I (char_at str 9) + 10 * A2I (char_at str 10)
     + A2I (char_at str 11))%Z
    (A2I (char_at str 13))
    (negb (A2I (char_at str 14) =? 0)%Z).

(** [m_al_parse_tile]: [None] when the function returns [false] and leaves
    [*out] alone, otherwise the tile written to [*out]. *)
Definition m_al_parse_tile (str : list Ascii.ascii) : option map_tile :=
  if negb (length str =? 24) then None else Some (tile_of_text str).

(** One of the delimiters [" \t\n"] of the calls to [strtok_r]. *)
Definition is_delimiter (a : Ascii.ascii) : bool :=
  Ascii.eqb a " "%char || Ascii.eqb a "009"%char || Ascii.eqb a "010"%char.

(** The tokens that the successive calls to [strtok_r] find in a line: the
    maximal runs of characters that are not delimiters.  [cur] is the token
    being read, most recent character first. *)
Fixpoint strtok_from (cur : list Ascii.ascii) (line : list Ascii.ascii)
  : list (list Ascii.ascii) :=
  match line with
  | [] => match cur with [] => [] | _ => [rev cur] end
  | a :: rest =>
      if is_delimiter a
      then match cur with
           | [] => strtok_from [] rest
           | _ => rev cur :: strtok_from [] rest
           end
      else strtok_from (a :: cur) rest
  end.

Definition strtok_all (line : list Ascii.ascii) : list (list Ascii.ascii) :=
  strtok_from [] line.

(** The number of tiles of a chunk, each way (pfchunk.h). *)
Variable TILES_PER_CHUNK_WIDTH : nat.
Variable TILES_PER_CHUNK_HEIGHT : nat.

(** The number of elements of the array [tiles] of a [struct pfchunk]
    (pfchunk.h, not among the sources at hand): the array is taken to hold
    one tile for every tile of a chunk, as the loop of [m_al_read_pfchunk]
    and the indices [tile_r * TILES_PER_CHUNK_WIDTH + tile_c] of the
    sources have it. *)
Definition TILES_PER_CHUNK : nat :=
  TILES_PER_CHUNK_WIDTH * TILES_PER_CHUNK_HEIGHT.

(** The token loop of [m_al_read_row].  [base] is the offset of [out] in
    the array of tiles and [nread] the value of [*out_nread].  The answer
    is the flag the function returns, with the array and the count as the
    loop leaves them. *)
Fixpoint read_row_tokens (tokens : list (list Ascii.ascii))
  (tiles : nat -> map_tile) (base nread : nat)
  : result (bool * (nat -> map_tile) * nat) :=
  match tokens with
  | [] => Ok (true, tiles, nread)
  | string :: tokens' =>
      match m_al_parse_tile string with
      | None => Ok (false, tiles, nread)
      | Some t =>
          tiles' <- store TILES_PER_CHUNK tiles (base + nread) t ;;
          read_row_tokens tokens' tiles' base (nread + 1)
      end
  end.

(** The stream is represented by the lines that are left in it.
    [READ_LINE] is a macro of asset_load.h, which is not among the sources
    at hand: it is taken to deliver the next line of the stream, and to
    jump to the failure label when no line is left. *)
Definition READ_LINE (stream : list (list Ascii.ascii))
  : option (list Ascii.ascii * list (list Ascii.ascii)) :=
  match stream with
  | [] => None
  | line :: rest => Some (line, rest)
  end.

(** [m_al_read_row]: the flag returned, the array of tiles, [*out_nread]
    (kept at [nread0] when the line cannot be read) and the stream. *)
Definition m_al_read_row (stream : list (list Ascii.ascii))
  (tiles : nat -> map_tile) (base nread0 : nat)
  : result (bool * (nat -> map_tile) * nat * list (list Ascii.ascii)) :=
  match READ_LINE stream with
  | None => Ok (false, tiles, nread0, stream)
  | Some (line, rest) =>
      res <- read_row_tokens (strtok_all line) tiles base 0 ;;
      Ok (res, rest)
  end.

(** The loop of [m_al_read_pfchunk], by recursion on the lines that are
    left: every iteration takes one line off the stream. *)
Fixpoint read_pfchunk_loop (stream : list (list Ascii.ascii))
  (tiles : nat -> map_tile) (tiles_read : nat)
  : result (bool * (nat -> map_tile) * list (list Ascii.ascii)) :=
  if tiles_read <? TILES_PER_CHUNK_WIDTH * TILES_PER_CHUNK_HEIGHT then
    match stream with
    | [] => Ok (false, tiles, stream)
    | line :: rest =>
        res <- read_row_tokens (strtok_all line) tiles tiles_read 0 ;;
        match res with
        | (true, tiles', tiles_in_row) =>
            read_pfchunk_loop rest tiles' (tiles_read + tiles_in_row)
        | (false, tiles', _) => Ok (false, tiles', rest)
        end
    end
  else Ok (true, tiles, stream).

Definition m_al_read_pfchunk (stream : list (list Ascii.ascii))
  (tiles : nat -> map_tile)
  : result (bool * (nat -> map_tile) * list (list Ascii.ascii)) :=
  read_pfchunk_loop stream tiles 0.

(** The array [tiles] with the tiles [ts] written from index [base] on. *)
Definition write_tiles (tiles : nat -> map_tile) (base : nat)
  (ts : list map_tile) (i : nat) : map_tile :=
  if base <=? i
  then match nth_error ts (i - base) with
       | Some t => t
       | None => tiles i
       end
  else tiles i.

(** The tokens of some lines, in the order of the text. *)
Definition tokens_of (lines : list (list Ascii.ascii))
  : list (list Ascii.ascii) :=
  flat_map strtok_all lines.

(** A token has the length of the text of a tile. *)
Definition tile_text (str : list Ascii.ascii) : Prop := length str = 24.

(** [struct tile_desc]: a tile of the map, by the row and the column of its
    chunk and its row and column in the chunk, as the initialiser
    [{r, c, tile_r, tile_c}] of [m_al_patch_adjacency_info] fills it. *)
Record tile_desc : Type := mktiledesc {
  chunk_r : nat;
  chunk_c : nat;
  tile_r : nat;
  tile_c : nat
}.

(** The calls that [m_al_patch_adjacency_info] makes into the renderer.
    [chunk_rprivate] is the index of the chunk whose [render_private]
    pointer is passed; the map itself is passed [const]. *)
Inductive render_call : Type :=
| R_GL_TilePatchVertsBlend (chunk_rprivate : nat) (desc : tile_desc)
| R_GL_TilePatchVertsSmooth (chunk_rprivate : nat) (desc : tile_desc).

(** The body of the innermost loop of [m_al_patch_adjacency_info], on the
    calls made so far.  [chunks idx] is the array [tiles] of the chunk at
    [idx]. *)
Definition patch_tile (map_width : nat) (chunks : nat -> nat -> map_tile)
  (r c tile_r tile_c : nat) (calls : list render_call)
  : result (list render_call) :=
  let chunk_rprivate := r * map_width + c in
  let desc := mktiledesc r c tile_r tile_c in
  let tile := tile_r * TILES_PER_CHUNK_WIDTH + tile_c in
  let calls := calls ++ [R_GL_TilePatchVertsBlend chunk_rprivate desc] in
  t <- load TILES_PER_CHUNK (chunks (r * map_width + c)) tile ;;
  Ok (if blend_normals t
      then calls ++ [R_GL_TilePatchVertsSmooth chunk_rprivate desc]
      else calls).

(** [m_al_patch_adjacency_info] for a map of [map_height] rows of
    [map_width] chunks: the calls it makes, in order.  Both loops over the
    tiles of a chunk run to [TILES_PER_CHUNK_HEIGHT]. *)
Definition m_al_patch_adjacency_info (map_width map_height : nat)
  (chunks : nat -> nat -> map_tile) : result (list render_call) :=
  for_each (seq 0 map_height) (fun r calls1 =>
    for_each (seq 0 map_width) (fun c calls2 =>
      for_each (seq 0 TILES_PER_CHUNK_HEIGHT) (fun tile_r calls3 =>
        for_each (seq 0 TILES_PER_CHUNK_HEIGHT) (fun tile_c calls4 =>
          patch_tile map_width chunks r c tile_r tile_c calls4) calls3)
        calls2) calls1) [].

(** The calls that [patch_tile] adds for a tile whose index is in the
    array. *)
Definition tile_calls (map_width : nat) (chunks : nat -> nat -> map_tile)
  (r c tile_r tile_c : nat) : list render_call :=
  R_GL_TilePatchVertsBlend (r * map_width + c) (mktiledesc r c tile_r tile_c)
  :: (if blend_normals (chunks (r * map_width + c)
                          (tile_r * TILES_PER_CHUNK_WIDTH + tile_c))
      then [R_GL_TilePatchVertsSmooth (r * map_width + c)
              (mktiledesc r c tile_r tile_c)]
      else []).

(** The calls for the tiles whose row and column in their chunk are both
    below [TILES_PER_CHUNK_HEIGHT], chunk by chunk and row by row. *)
Definition square_block_calls (map_width map_height : nat)
  (chunks : nat -> nat -> map_tile) : list render_call :=
  flat_map (fun r =>
    flat_map (fun c =>
      flat_map (fun tile_r =>
        flat_map (fun tile_c =>
          tile_calls map_width chunks r c tile_r tile_c)
          (seq 0 TILES_PER_CHUNK_HEIGHT))
        (seq 0 TILES_PER_CHUNK_HEIGHT))
      (seq 0 map_width))
    (seq 0 map_height).

(** The lines [pre] and the line [last] after them are the text of one
    chunk: every token has the length of a tile, and [last] is the line
    that brings their number to one per tile of the chunk. *)
Definition chunk_text (pre : list (list Ascii.ascii))
  (last : list Ascii.ascii) : Prop :=
  Forall tile_text (tokens_of (pre ++ [last])) /\
  length (tokens_of pre) < TILES_PER_CHUNK_WIDTH * TILES_PER_CHUNK_HEIGHT /\
  length (tokens_of (pre ++ [last]))
  = TILES_PER_CHUNK_WIDTH * TILES_PER_CHUNK_HEIGHT.

(** The line [last], read after the lines [pre], runs over the end of the
    chunk: it holds more tokens than the chunk still lacks, and the tokens
    of [pre] and those of [last] up to the first one in excess have the
    length of a tile. *)
Definition row_overruns (pre : list (list Ascii.ascii))
  (last : list Ascii.ascii) : Prop :=
  Forall tile_text (tokens_of pre) /\
  length (tokens_of pre) < TILES_PER_CHUNK_WIDTH * TILES_PER_CHUNK_HEIGHT /\
  TILES_PER_CHUNK_WIDTH * TILES_PER_CHUNK_HEIGHT - length (tokens_of pre)
  < length (strtok_all last) /\
  Forall tile_text
    (firstn (TILES_PER_CHUNK_WIDTH * TILES_PER_CHUNK_HEIGHT
             - length (tokens_of pre) + 1) (strtok_all last)).

(** The text of a tile with every digit 0. *)
Definition zero_text : list Ascii.ascii := repeat "0"%char 24.

End MapLoader.

(** * Properties *)

(** ** Loops *)

Lemma bind_ok_inv (A B : Type) (m : result A) (k : A -> result B) (y : B) :
  bind m k = Ok y -> exists x, m = Ok x /\ k x = Ok y.
Proof.
  destruct m; simpl; intros H; try discriminate. eauto.
Qed.

Lemma for_each_app (Ix St : Type) (l1 l2 : list Ix)
  (body : Ix -> St -> result St) (s : St) :
  for_each (l1 ++ l2) body s = (s' <- for_each l1 body s ;; for_each l2 body s').
Proof.
  revert s. induction l1 as [|i l1 IH]; intros s; simpl; [reflexivity|].
  destruct (body i s); simpl; auto.
Qed.

(** Total correctness of a counted loop: an invariant that every iteration
    re-establishes while returning normally holds at the exit, and the loop
    returns normally. *)
Lemma for_each_seq_total (St : Type) (I : nat -> St -> Prop)
  (body : nat -> St -> result St) (n : nat) :
  (forall i s, i < n -> I i s -> exists s', body i s = Ok s' /\ I (1 + i) s') ->
  forall s, I 0 s -> exists s', for_each (seq 0 n) body s = Ok s' /\ I n s'.
Proof.
  intros Hstep.
  assert (G : forall k a s, a + k = n -> I a s ->
            exists s', for_each (seq a k) body s = Ok s' /\ I n s').
  { induction k as [|k IH]; intros a s Hak Ha; simpl.
    - replace n with a by lia. eauto.
    - destruct (Hstep a s) as (s1 & E1 & I1); [lia|exact Ha|].
      rewrite E1; simpl. apply IH; [lia|exact I1]. }
  intros s Hs. apply (G n 0 s); [lia|exact Hs].
Qed.

(** Partial correctness of a counted loop. *)
Lemma for_each_seq_partial (St : Type) (I : nat -> St -> Prop)
  (body : nat -> St -> result St) (n : nat) :
  (forall i s s', i < n -> I i s -> body i s = Ok s' -> I (1 + i) s') ->
  forall s s', I 0 s -> for_each (seq 0 n) body s = Ok s' -> I n s'.
Proof.
  intros Hstep.
  assert (G : forall k a s s', a + k = n -> I a s ->
            for_each (seq a k) body s = Ok s' -> I n s').
  { induction k as [|k IH]; intros a s s' Hak Ha; simpl.
    - intros E. injection E as <-. replace n with a by lia. exact Ha.
    - intros E. apply bind_ok_inv in E. destruct E as (s1 & E1 & E2).
      apply (IH (1 + a) s1 s'); [lia| |exact E2].
      apply (Hstep a s s1); [lia|exact Ha|exact E1]. }
  intros s s' Hs E. apply (G n 0 s s'); [lia|exact Hs|exact E].
Qed.

(** ** Cost field builder *)

Lemma cell_off_split (row col off : nat) :
  col < FIELD_RES_C ->
  (off = cell_off row col <->
   off / FIELD_RES_C = row /\ off mod FIELD_RES_C = col).
Proof.
  unfold cell_off, FIELD_RES_C. intros Hc. split.
  - intros ->. split.
    + rewrite Nat.div_add_l by lia. rewrite Nat.div_small by lia. lia.
    + rewrite Nat.add_comm, Nat.Div0.mod_add. apply Nat.mod_small. lia.
  - intros [<- <-]. pose proof (Nat.div_mod_eq off 64). lia.
Qed.

Lemma upd_same (A : Type) (f : nat -> A) (k : nat) (v : A) : upd f k v k = v.
Proof. unfold upd. rewrite Nat.eqb_refl. reflexivity. Qed.

Lemma upd_other (A : Type) (f : nat -> A) (k i : nat) (v : A) :
  i <> k -> upd f k v i = f i.
Proof.
  unfold upd. intros H. destruct (Nat.eqb_spec i k); [contradiction|reflexivity].
Qed.

Lemma n_tile_pathable_spec (t : tile) :
  TILETYPE_FLAT = 0%Z ->
  (if n_tile_pathable t then 1%Z else COST_IMPASSABLE) = spec_tile_cost t.
Proof.
  intros HF. unfold n_tile_pathable, spec_tile_cost, spec_tile_blocked, lnot.
  rewrite HF. destruct (pathable t); simpl; [|reflexivity].
  destruct (Z.eqb_spec (type t) 0); simpl; [reflexivity|].
  destruct (ramp_height t >? 1)%Z; reflexivity.
Qed.

Lemma block_fits (n k i j : nat) :
  0 < n -> i < n -> j < FIELD_RES_R / n -> i * (FIELD_RES_R / n) + j < FIELD_RES_R.
Proof.
  intros Hn Hi Hj.
  assert (n * (FIELD_RES_R / n) <= FIELD_RES_R) by (apply Nat.Div0.mul_div_le).
  nia.
Qed.

(** The effect of [n_set_cost_for_tile], for any value written. *)
Lemma n_set_cost_for_tile_effect (ch : nav_chunk) (chunk_w chunk_h : nat)
  (tile_r tile_c : nat) (t : tile) :
  0 < chunk_w -> 0 < chunk_h -> tile_r < chunk_h -> tile_c < chunk_w ->
  exists ch',
    n_set_cost_for_tile ch chunk_w chunk_h tile_r tile_c t = Ok ch' /\
    num_portals ch' = num_portals ch /\
    portals ch' = portals ch /\
    forall off,
      (in_block chunk_w chunk_h tile_r tile_c
         (off / FIELD_RES_C) (off mod FIELD_RES_C) ->
       cost_base ch' off
       = (if n_tile_pathable t then 1%Z else COST_IMPASSABLE)) /\
      (~ in_block chunk_w chunk_h tile_r tile_c
           (off / FIELD_RES_C) (off mod FIELD_RES_C) ->
       cost_base ch' off = cost_base ch off).
Proof.
  intros Hw Hh Hr Hc. unfold n_set_cost_for_tile, udiv.
  destruct (Nat.eqb_spec chunk_h 0) as [|_]; [lia|].
  destruct (Nat.eqb_spec chunk_w 0) as [|_]; [lia|]. simpl.
  set (fr := FIELD_RES_R / chunk_h). set (fc := FIELD_RES_C / chunk_w).
  set (v := if n_tile_pathable t then 1%Z else COST_IMPASSABLE).
  pose (Irow := fun (k : nat) (s : nav_chunk) =>
    num_portals s = num_portals ch /\ portals s = portals ch /\
    forall off row col,
      row = off / FIELD_RES_C -> col = off mod FIELD_RES_C ->
      ((tile_r * fr <= row < tile_r * fr + k /\
        tile_c * fc <= col < tile_c * fc + fc) -> cost_base s off = v) /\
      (~ (tile_r * fr <= row < tile_r * fr + k /\
          tile_c * fc <= col < tile_c * fc + fc) ->
       cost_base s off = cost_base ch off)).
  destruct (@for_each_seq_total nav_chunk Irow
    (fun r ch1 => for_each (seq 0 fc) (fun c ch2 =>
        set_cost ch2 (tile_r * fr + r) (tile_c * fc + c) v) ch1) fr)
    with (s := ch) as (ch' & E & Np & Pp & Hcells).
  - intros i s Hi (Np & Pp & Hs).
    pose (Icol := fun (j : nat) (s2 : nav_chunk) =>
      num_portals s2 = num_portals ch /\ portals s2 = portals ch /\
      forall off row col,
        row = off / FIELD_RES_C -> col = off mod FIELD_RES_C ->
        ((row = tile_r * fr + i /\ tile_c * fc <= col < tile_c * fc + j)
         -> cost_base s2 off = v) /\
        (~ (row = tile_r * fr + i /\ tile_c * fc <= col < tile_c * fc + j)
         -> cost_base s2 off = cost_base s off)).
    destruct (@for_each_seq_total nav_chunk Icol
      (fun c ch2 => set_cost ch2 (tile_r * fr + i) (tile_c * fc + c) v) fc)
      with (s := s) as (s' & E & Np' & Pp' & Hs').
    + intros j s2 Hj (Np2 & Pp2 & Hs2). unfold set_cost.
      assert (Hrow : tile_r * fr + i < FIELD_RES_R)
        by (apply block_fits; auto).
      assert (Hcol : tile_c * fc + j < FIELD_RES_C)
        by (apply (@block_fits chunk_w 0); auto).
      destruct (Nat.ltb_spec (tile_r * fr + i) FIELD_RES_R); [|lia].
      destruct (Nat.ltb_spec (tile_c * fc + j) FIELD_RES_C); [|lia]. simpl.
      eexists; split; [reflexivity|]. unfold Icol; simpl.
      split; [exact Np2|]. split; [exact Pp2|].
      intros off row col Erow Ecol.
      destruct (Hs2 off row col Erow Ecol) as [Hin Hout].
      destruct (Nat.eq_dec off (cell_off (tile_r * fr + i) (tile_c * fc + j)))
        as [Heq|Hne].
      * rewrite Heq at 1 2. rewrite upd_same.
        apply cell_off_split in Heq; [|exact Hcol]. split; [auto|].
        intros Hn. exfalso. apply Hn. lia.
      * rewrite upd_other by exact Hne.
        assert (Hne' : ~ (row = tile_r * fr + i /\ col = tile_c * fc + j)).
        { intros Hx. apply Hne. apply cell_off_split; [assumption|].
          rewrite <- Erow, <- Ecol. exact Hx. }
        split.
        -- intros Hx. apply Hin. lia.
        -- intros Hx. apply Hout. lia.
    + unfold Icol. split; [exact Np|]. split; [exact Pp|].
      intros off row col _ _. split; [lia|reflexivity].
    + exists s'. split; [exact E|]. unfold Irow. simpl.
      split; [exact Np'|]. split; [exact Pp'|].
      intros off row col Erow Ecol.
      destruct (Hs off row col Erow Ecol) as [Hin Hout].
      destruct (Hs' off row col Erow Ecol) as [Hin' Hout']. split.
      * intros Hx.
        destruct (Nat.eq_dec row (tile_r * fr + i)).
        -- apply Hin'. lia.
        -- rewrite Hout' by lia. apply Hin. lia.
      * intros Hx. rewrite Hout' by lia. apply Hout. lia.
  - unfold Irow. split; [reflexivity|]. split; [reflexivity|].
    intros off row col _ _. split; [lia|reflexivity].
  - exists ch'. split; [exact E|]. split; [exact Np|]. split; [exact Pp|].
    intros off. destruct (Hcells off _ _ eq_refl eq_refl) as [Hin Hout].
    unfold in_block. fold fr fc. split; [exact Hin|exact Hout].
Qed.

(** C1.  For every tile handed to the cost field builder (a tile of the
    chunk's tile grid, the enumerator TILETYPE_FLAT being 0), the call
    returns normally and every cost cell of the tile's block holds
    COST_IMPASSABLE when the tile is not pathable, or is not flat and has a
    ramp height above 1, and holds 1 otherwise. *)
Theorem cost_field_tile_block (ch : nav_chunk) (chunk_w chunk_h : nat)
  (tile_r tile_c : nat) (t : tile) :
  TILETYPE_FLAT = 0%Z ->
  0 < chunk_w -> 0 < chunk_h -> tile_r < chunk_h -> tile_c < chunk_w ->
  exists ch',
    n_set_cost_for_tile ch chunk_w chunk_h tile_r tile_c t = Ok ch' /\
    forall row col,
      in_block chunk_w chunk_h tile_r tile_c row col ->
      cost_base ch' (cell_off row col)
      = (if negb (pathable t)
            || (negb (type t =? TILETYPE_FLAT)%Z && (ramp_height t >? 1)%Z)
         then COST_IMPASSABLE else 1%Z).
Proof.
  intros HF Hw Hh Hr Hc.
  destruct (@n_set_cost_for_tile_effect ch chunk_w chunk_h tile_r tile_c t)
    as (ch' & E & _ & _ & Hcells); auto.
  exists ch'. split; [exact E|].
  intros row col Hin.
  assert (Hcol : col < FIELD_RES_C).
  { destruct Hin as [_ [_ Hin]].
    assert (chunk_w * (FIELD_RES_C / chunk_w) <= FIELD_RES_C)
      by (apply Nat.Div0.mul_div_le).
    nia. }
  destruct (proj1 (cell_off_split row (cell_off row col) Hcol) eq_refl)
    as [Hd Hm].
  destruct (Hcells (cell_off row col)) as [Hset _].
  rewrite Hd, Hm in Hset. rewrite (Hset Hin).
  rewrite n_tile_pathable_spec by exact HF. reflexivity.
Qed.

(** ** The schedule of portal discovery *)

Lemma create_portals_row_schedule (w h r : nat) (n a k : nat)
  (chs : nat -> nav_chunk) :
  for_each (seq a n) (fun c s' => create_portals_step w h r c s') (chs, k)
  = (chs' <- for_each (flat_map (link_calls_at w h r) (seq a n))
               run_link_call chs ;;
     Ok (chs', k + length (flat_map (link_calls_at w h r) (seq a n)))).
Proof.
  revert a k chs. induction n as [|n IH]; intros a k chs.
  - simpl. rewrite Nat.add_0_r. reflexivity.
  - cbn [seq flat_map for_each]. rewrite for_each_app, length_app.
    unfold create_portals_step at 1, link_calls_at at 1 3.
    cbn [fst snd].
    destruct (r <? h - 1); destruct (a <? w - 1);
      cbn [for_each app bind not_null length].
    + unfold run_link_call at 1;
        cbn [lc_a lc_a_type lc_a_coord lc_b lc_b_type lc_b_coord].
      destruct (link_in_store chs _ _ _ _ _ _) as [chs1| | |];
        cbn [bind]; try reflexivity.
      unfold run_link_call at 1;
        cbn [lc_a lc_a_type lc_a_coord lc_b lc_b_type lc_b_coord].
      destruct (link_in_store chs1 _ _ _ _ _ _) as [chs2| | |];
        cbn [bind]; try reflexivity.
      rewrite IH. destruct (for_each _ run_link_call chs2); cbn [bind];
        try reflexivity. do 2 f_equal. lia.
    + unfold run_link_call at 1;
        cbn [lc_a lc_a_type lc_a_coord lc_b lc_b_type lc_b_coord].
      destruct (link_in_store chs _ _ _ _ _ _) as [chs1| | |];
        cbn [bind]; try reflexivity.
      rewrite IH. destruct (for_each _ run_link_call chs1); cbn [bind];
        try reflexivity. do 2 f_equal. lia.
    + unfold run_link_call at 1;
        cbn [lc_a lc_a_type lc_a_coord lc_b lc_b_type lc_b_coord].
      destruct (link_in_store chs _ _ _ _ _ _) as [chs1| | |];
        cbn [bind]; try reflexivity.
      rewrite IH. destruct (for_each _ run_link_call chs1); cbn [bind];
        try reflexivity. do 2 f_equal. lia.
    + rewrite IH. destruct (for_each _ run_link_call chs); cbn [bind];
        try reflexivity. do 2 f_equal. lia.
Qed.

Lemma create_portals_loops_schedule (w h : nat) (chs : nat -> nav_chunk) :
  create_portals_loops w h chs
  = (chs' <- for_each (link_calls w h) run_link_call chs ;;
     Ok (chs', length (link_calls w h))).
Proof.
  unfold create_portals_loops, link_calls.
  assert (G : forall n a k chs0,
    for_each (seq a n) (fun r s =>
      for_each (seq 0 w) (fun c s' => create_portals_step w h r c s') s)
      (chs0, k)
    = (chs' <- for_each (flat_map (fun r =>
                  flat_map (link_calls_at w h r) (seq 0 w)) (seq a n))
                 run_link_call chs0 ;;
       Ok (chs', k + length (flat_map (fun r =>
                  flat_map (link_calls_at w h r) (seq 0 w)) (seq a n))))).
  { induction n as [|n IH]; intros a k chs0.
    - simpl. rewrite Nat.add_0_r. reflexivity.
    - cbn [seq flat_map for_each]. rewrite for_each_app, length_app.
      rewrite create_portals_row_schedule.
      destruct (for_each _ run_link_call chs0) as [chs1| | |]; cbn [bind];
        try reflexivity.
      rewrite IH. destruct (for_each _ run_link_call chs1); cbn [bind];
        try reflexivity. do 2 f_equal. lia. }
  rewrite G. reflexivity.
Qed.

Lemma length_link_calls_at (w h r c : nat) :
  length (link_calls_at w h r c)
  = (if r <? h - 1 then 1 else 0) + (if c <? w - 1 then 1 else 0).
Proof.
  unfold link_calls_at. rewrite length_app.
  destruct (r <? h - 1), (c <? w - 1); reflexivity.
Qed.

Lemma length_link_calls_row (w h r : nat) (n : nat) :
  n <= w ->
  length (flat_map (link_calls_at w h r) (seq 0 n))
  = (if r <? h - 1 then n else 0) + Nat.min n (w - 1).
Proof.
  induction n as [|n IH]; intros Hn.
  - simpl. destruct (r <? h - 1); reflexivity.
  - rewrite seq_S, flat_map_app, length_app, IH by lia.
    cbn [flat_map]. rewrite app_nil_r, length_link_calls_at.
    rewrite Nat.add_0_l.
    destruct (r <? h - 1); destruct (Nat.ltb_spec n (w - 1)); lia.
Qed.

Lemma length_link_calls_rows (w h : nat) (n : nat) :
  1 <= w -> n <= h ->
  length (flat_map (fun r => flat_map (link_calls_at w h r) (seq 0 w))
                   (seq 0 n))
  = Nat.min n (h - 1) * w + n * (w - 1).
Proof.
  intros Hw. induction n as [|n IH]; intros Hn.
  - reflexivity.
  - rewrite seq_S, flat_map_app, length_app, IH by lia.
    cbn [flat_map]. rewrite app_nil_r, length_link_calls_row by lia.
    rewrite Nat.add_0_l.
    destruct (Nat.ltb_spec n (h - 1)).
    + replace (Nat.min (S n) (h - 1)) with (S (Nat.min n (h - 1))) by lia.
      replace (Nat.min w (w - 1)) with (w - 1) by lia. nia.
    + replace (Nat.min (S n) (h - 1)) with (Nat.min n (h - 1)) by lia.
      replace (Nat.min w (w - 1)) with (w - 1) by lia. nia.
Qed.

Lemma length_link_calls (w h : nat) :
  1 <= w -> 1 <= h ->
  length (link_calls w h) = (w - 1) * h + w * (h - 1).
Proof.
  intros Hw Hh. unfold link_calls.
  rewrite length_link_calls_rows by lia.
  replace (Nat.min h (h - 1)) with (h - 1) by lia. nia.
Qed.

Lemma in_link_calls_at (w h r c : nat) (lc : link_call) :
  In lc (link_calls_at w h r c) <->
  (r + 1 < h /\
   lc = mkcall (CHUNK_IDX r w c) EDGE_BOT (chunk_coord r c)
               (CHUNK_IDX (r + 1) w c) EDGE_TOP (chunk_coord (r + 1) c)) \/
  (c + 1 < w /\
   lc = mkcall (CHUNK_IDX r w c) EDGE_RIGHT (chunk_coord r c)
               (CHUNK_IDX r w (c + 1)) EDGE_LEFT (chunk_coord r (c + 1))).
Proof.
  unfold link_calls_at. rewrite in_app_iff.
  destruct (Nat.ltb_spec r (h - 1)); destruct (Nat.ltb_spec c (w - 1));
    simpl; intuition (try lia; auto).
Qed.

Lemma in_link_calls (w h : nat) (lc : link_call) :
  In lc (link_calls w h) <->
  exists r c, r < h /\ c < w /\ In lc (link_calls_at w h r c).
Proof.
  unfold link_calls. rewrite in_flat_map. split.
  - intros (r & Hr & Hin). apply in_flat_map in Hin.
    destruct Hin as (c & Hc & Hin). apply in_seq in Hr, Hc.
    exists r, c. repeat split; [lia|lia|exact Hin].
  - intros (r & c & Hr & Hc & Hin). exists r. split.
    + apply in_seq. lia.
    + apply in_flat_map. exists c. split; [apply in_seq; lia|exact Hin].
Qed.

Lemma NoDup_map_flat_map_seq (B C : Type) (g : B -> C) (f : nat -> list B)
  (a n : nat) :
  (forall i, NoDup (map g (f i))) ->
  (forall i j x y, a <= i < a + n -> a <= j < a + n ->
     In x (f i) -> In y (f j) -> g x = g y -> i = j) ->
  NoDup (map g (flat_map f (seq a n))).
Proof.
  revert a. induction n as [|n IH]; intros a Hnd Hdis.
  - constructor.
  - cbn [seq flat_map]. rewrite map_app. apply NoDup_app.
    + apply Hnd.
    + apply IH; [exact Hnd|].
      intros i j x y Hi Hj. apply Hdis; lia.
    + intros z Hz Hz'. apply in_map_iff in Hz, Hz'.
      destruct Hz as (x & Ex & Hx). destruct Hz' as (y & Ey & Hy).
      apply in_flat_map in Hy. destruct Hy as (j & Hj & Hy).
      apply in_seq in Hj.
      assert (a = j); [|lia].
      apply (Hdis a j x y); [lia|lia|exact Hx|exact Hy|congruence].
Qed.

Lemma chunk_idx_inj (w r1 c1 r2 c2 : nat) :
  c1 < w -> c2 < w -> CHUNK_IDX r1 w c1 = CHUNK_IDX r2 w c2 ->
  r1 = r2 /\ c1 = c2.
Proof.
  unfold CHUNK_IDX. intros H1 H2 E.
  assert (r1 = r2).
  { destruct (Nat.lt_trichotomy r1 r2) as [L|[L|L]]; [nia|exact L|nia]. }
  subst. split; [reflexivity|lia].
Qed.

Lemma NoDup_link_calls (w h : nat) :
  NoDup (map call_pair (link_calls w h)).
Proof.
  unfold link_calls. apply NoDup_map_flat_map_seq.
  - intros r. apply NoDup_map_flat_map_seq.
    + intros c. unfold link_calls_at.
      destruct (r <? h - 1); destruct (Nat.ltb_spec c (w - 1)); simpl;
        repeat constructor; simpl; try tauto.
      unfold call_pair, CHUNK_IDX; simpl. intros [E|[]].
      injection E as E. nia.
    + intros c1 c2 x y _ _ Hx Hy E.
      apply in_link_calls_at in Hx, Hy. unfold call_pair in E.
      destruct Hx as [[_ ->]|[_ ->]]; destruct Hy as [[_ ->]|[_ ->]];
        simpl in E; injection E as E _; unfold CHUNK_IDX in E; lia.
  - intros r1 r2 x y _ _ Hx Hy E.
    apply in_flat_map in Hx, Hy.
    destruct Hx as (c1 & Hc1 & Hx). destruct Hy as (c2 & Hc2 & Hy).
    apply in_seq in Hc1, Hc2.
    apply in_link_calls_at in Hx, Hy. unfold call_pair in E.
    destruct Hx as [[_ ->]|[_ ->]]; destruct Hy as [[_ ->]|[_ ->]];
      simpl in E; injection E as E _;
      apply chunk_idx_inj in E; try lia.
Qed.

Lemma link_calls_adjacency (w h ia ib : nat) :
  In (ia, ib) (map call_pair (link_calls w h)) <->
  internal_adjacency w h ia ib.
Proof.
  rewrite in_map_iff. unfold internal_adjacency. split.
  - intros (lc & E & Hin). apply in_link_calls in Hin.
    destruct Hin as (r & c & Hr & Hc & Hin).
    apply in_link_calls_at in Hin. exists r, c.
    unfold call_pair in E.
    destruct Hin as [[Hb ->]|[Hb ->]]; simpl in E; injection E as <- <-;
      repeat split; auto.
  - intros (r & c & Hr & Hc & -> & [[Hb ->]|[Hb ->]]).
    + eexists. split; [|apply in_link_calls; exists r, c;
        repeat split; [exact Hr|exact Hc|apply in_link_calls_at; left;
        split; [exact Hb|reflexivity]]]. reflexivity.
    + eexists. split; [|apply in_link_calls; exists r, c;
        repeat split; [exact Hr|exact Hc|apply in_link_calls_at; right;
        split; [exact Hb|reflexivity]]]. reflexivity.
Qed.

(** C5.  For a map of [w >= 1] by [h >= 1] chunks, [n_create_portals],
    and with it the build, makes exactly the calls to [n_link_chunks] of
    the list [link_calls w h], one after the other and each one once: the
    portal stage of the build is one pass over that list, between the cost
    field stage and the portal linker.  The list holds, for every chunk
    [(r, c)], the call for its bottom neighbour (if it has one) and the
    call for its right neighbour (if it has one), and nothing else: every
    internal adjacency of the grid is linked, no pair of chunks twice, and
    the number of calls, which is the counter [n_links] handed to the
    final assertion, is (w-1)*h + w*(h-1). *)
Theorem create_portals_links_each_adjacency_once (w h : nat) :
  1 <= w -> 1 <= h ->
  (forall chs,
     n_create_portals (mkpriv w h chs)
     = (chs' <- for_each (link_calls w h) (fun lc chs1 =>
                  ab <- n_link_chunks
                          (chs1 (lc_a lc)) (lc_a lc) (lc_a_type lc)
                          (lc_a_coord lc)
                          (chs1 (lc_b lc)) (lc_b lc) (lc_b_type lc)
                          (lc_b_coord lc) ;;
                  Ok (upd (upd chs1 (lc_a lc) (fst ab)) (lc_b lc) (snd ab)))
                chs ;;
        assert ((w - 1) * h + w * (h - 1) =? w * (w - 1) + h * (h - 1)) ;;;
        Ok (mkpriv w h chs'))) /\
  (forall chunk_w chunk_h chunk_tiles block,
     N_BuildForMapData w h chunk_w chunk_h chunk_tiles (Some block)
     = (resolution_assertion FIELD_RES_R chunk_h ;;;
        resolution_assertion FIELD_RES_C chunk_w ;;;
        chs <- build_cost_fields w h chunk_w chunk_h chunk_tiles block ;;
        chs' <- for_each (link_calls w h) (fun lc chs1 =>
                  ab <- n_link_chunks
                          (chs1 (lc_a lc)) (lc_a lc) (lc_a_type lc)
                          (lc_a_coord lc)
                          (chs1 (lc_b lc)) (lc_b lc) (lc_b_type lc)
                          (lc_b_coord lc) ;;
                  Ok (upd (upd chs1 (lc_a lc) (fst ab)) (lc_b lc) (snd ab)))
                chs ;;
        assert ((w - 1) * h + w * (h - 1) =? w * (w - 1) + h * (h - 1)) ;;;
        chs'' <- link_all_chunk_portals w h chs' ;;
        Ok (Some (mkpriv w h chs'')))) /\
  (forall lc,
     In lc (link_calls w h) <->
     exists r c, r < h /\ c < w /\
       ((r + 1 < h /\
         lc = mkcall (r * w + c) EDGE_BOT
                     (mkcoord (Z.of_nat r) (Z.of_nat c))
                     ((r + 1) * w + c) EDGE_TOP
                     (mkcoord (Z.of_nat (r + 1)) (Z.of_nat c))) \/
        (c + 1 < w /\
         lc = mkcall (r * w + c) EDGE_RIGHT
                     (mkcoord (Z.of_nat r) (Z.of_nat c))
                     (r * w + (c + 1)) EDGE_LEFT
                     (mkcoord (Z.of_nat r) (Z.of_nat (c + 1)))))) /\
  length (link_calls w h) = (w - 1) * h + w * (h - 1) /\
  NoDup (map call_pair (link_calls w h)) /\
  (forall ia ib,
     In (ia, ib) (map call_pair (link_calls w h)) <->
     internal_adjacency w h ia ib).
Proof.
  intros Hw Hh.
  assert (Hcreate : forall chs,
    n_create_portals (mkpriv w h chs)
    = (chs' <- for_each (link_calls w h) run_link_call chs ;;
       assert ((w - 1) * h + w * (h - 1) =? w * (w - 1) + h * (h - 1)) ;;;
       Ok (mkpriv w h chs'))).
  { intros chs. unfold n_create_portals. cbn [width height chunks].
    rewrite create_portals_loops_schedule.
    rewrite length_link_calls by assumption.
    destruct (for_each (link_calls w h) run_link_call chs); reflexivity. }
  split; [exact Hcreate|]. split; [|split; [|split; [|split]]].
  - intros chunk_w chunk_h chunk_tiles block. unfold N_BuildForMapData.
    destruct (resolution_assertion FIELD_RES_R chunk_h) as [[]| | |];
      try reflexivity.
    destruct (resolution_assertion FIELD_RES_C chunk_w) as [[]| | |];
      try reflexivity.
    cbn [bind].
    destruct (build_cost_fields w h chunk_w chunk_h chunk_tiles block)
      as [chs| | |]; try reflexivity.
    cbn [bind]. rewrite Hcreate.
    change (for_each (link_calls w h) (fun lc chs1 =>
              ab <- n_link_chunks
                      (chs1 (lc_a lc)) (lc_a lc) (lc_a_type lc)
                      (lc_a_coord lc)
                      (chs1 (lc_b lc)) (lc_b lc) (lc_b_type lc)
                      (lc_b_coord lc) ;;
              Ok (upd (upd chs1 (lc_a lc) (fst ab)) (lc_b lc) (snd ab))) chs)
      with (for_each (link_calls w h) run_link_call chs).
    destruct (for_each (link_calls w h) run_link_call chs) as [chs'| | |];
      try reflexivity.
    cbn [bind].
    destruct (assert _) as [[]| | |]; reflexivity.
  - intros lc. rewrite in_link_calls. unfold chunk_coord, CHUNK_IDX. split.
    + intros (r & c & Hr & Hc & Hin). apply in_link_calls_at in Hin.
      exists r, c. split; [exact Hr|]. split; [exact Hc|exact Hin].
    + intros (r & c & Hr & Hc & Hin). exists r, c.
      split; [exact Hr|]. split; [exact Hc|].
      apply in_link_calls_at. exact Hin.
  - apply length_link_calls; assumption.
  - apply NoDup_link_calls.
  - intros ia ib. apply link_calls_adjacency.
Qed.

(** The assertion that closes [n_create_portals] compares the counter with
    w*(w-1) + h*(h-1); it holds exactly on square maps. *)
Lemma n_links_assertion_iff_square (w h : nat) :
  1 <= w -> 1 <= h ->
  ((w - 1) * h + w * (h - 1) =? w * (w - 1) + h * (h - 1)) = true <-> w = h.
Proof.
  intros Hw Hh. rewrite Nat.eqb_eq. split; [|intros ->; lia].
  intros E. destruct (Nat.lt_trichotomy w h) as [L|[L|L]]; [|exact L|].
  - exfalso. assert (exists d, h = w + S d) as [d ->] by (exists (h - w - 1); lia).
    nia.
  - exfalso. assert (exists d, w = h + S d) as [d ->] by (exists (w - h - 1); lia).
    nia.
Qed.

Lemma n_create_portals_non_square (priv : nav_private)
  (s : (nat -> nav_chunk) * nat) :
  1 <= width priv -> 1 <= height priv -> width priv <> height priv ->
  create_portals_loops (width priv) (height priv) (chunks priv) = Ok s ->
  n_create_portals priv = AssertFail.
Proof.
  intros Hw Hh Hne E. unfold n_create_portals. rewrite E. cbn [bind].
  rewrite create_portals_loops_schedule in E.
  destruct (for_each _ run_link_call _); cbn [bind] in E; try discriminate.
  injection E as <-. cbn [snd]. rewrite length_link_calls by assumption.
  destruct ((width priv - 1) * height priv + width priv * (height priv - 1)
            =? width priv * (width priv - 1) + height priv * (height priv - 1))
    eqn:A; [|reflexivity].
  apply n_links_assertion_iff_square in A; [contradiction|assumption|assumption].
Qed.

(** ** The scan loop of portal discovery *)

Lemma edge_off_eq (t : edge_type) (i : nat) :
  edge_off t i
  = match t with
    | EDGE_BOT => 4032 + i
    | EDGE_TOP => i
    | EDGE_LEFT => i * 64
    | EDGE_RIGHT => 63 + i * 64
    end.
Proof.
  unfold edge_off.
  destruct t.
  - change (cursor_start EDGE_BOT) with 4032.
    change (on_horizontal_edge EDGE_BOT) with true. cbv iota. lia.
  - change (cursor_start EDGE_LEFT) with 0.
    change (on_horizontal_edge EDGE_LEFT) with false.
    cbv iota. change FIELD_RES_C with 64. lia.
  - change (cursor_start EDGE_RIGHT) with 63.
    change (on_horizontal_edge EDGE_RIGHT) with false.
    cbv iota. change FIELD_RES_C with 64. lia.
  - change (cursor_start EDGE_TOP) with 0.
    change (on_horizontal_edge EDGE_TOP) with true. cbv iota. lia.
Qed.

Lemma edge_off_bound (t : edge_type) (i : nat) :
  i < 64 -> edge_off t i < FIELD_RES_R * FIELD_RES_C.
Proof.
  intros Hi. rewrite edge_off_eq.
  change (FIELD_RES_R * FIELD_RES_C) with 4096. destruct t; lia.
Qed.

Lemma edge_coord_eq (t : edge_type) (i : Z) :
  edge_coord t i
  = match t with
    | EDGE_BOT => mkcoord 63 i
    | EDGE_TOP => mkcoord 0 i
    | EDGE_LEFT => mkcoord i 0
    | EDGE_RIGHT => mkcoord i 63
    end.
Proof. destruct t; reflexivity. Qed.

Lemma edge_off_cell (t : edge_type) (i : nat) :
  i < 64 ->
  edge_off t i = cell_off (Z.to_nat (r (edge_coord t (Z.of_nat i))))
                          (Z.to_nat (c (edge_coord t (Z.of_nat i)))).
Proof.
  intros Hi. rewrite edge_off_eq, edge_coord_eq. unfold cell_off.
  change FIELD_RES_C with 64.
  destruct t; cbn [r c]; rewrite ?Nat2Z.id;
    change (Z.to_nat 63) with 63; change (Z.to_nat 0) with 0; lia.
Qed.

(** A counted loop whose iterations either keep an invariant or stop the
    run with an out-of-bounds write; [bad] records that the error is
    due. *)
Lemma for_each_seq_cases (St : Type) (I : nat -> St -> Prop)
  (bad : nat -> Prop) (body : nat -> St -> result St) (n : nat) :
  (forall i s, i < n -> I i s ->
     (exists s', body i s = Ok s' /\ I (1 + i) s') \/
     (body i s = OutOfBounds /\ bad (1 + i))) ->
  (forall i, i < n -> bad i -> bad (1 + i)) ->
  forall s, I 0 s ->
    (exists s', for_each (seq 0 n) body s = Ok s' /\ I n s') \/
    (for_each (seq 0 n) body s = OutOfBounds /\ bad n).
Proof.
  intros Hstep Hmono.
  assert (Hbad : forall k a, a + k = n -> bad a -> bad n).
  { induction k as [|k IH]; intros a Hak Ha.
    - replace n with a by lia. exact Ha.
    - apply (IH (1 + a)); [lia|]. apply Hmono; [lia|exact Ha]. }
  assert (G : forall k a s, a + k = n -> I a s ->
            (exists s', for_each (seq a k) body s = Ok s' /\ I n s') \/
            (for_each (seq a k) body s = OutOfBounds /\ bad n)).
  { induction k as [|k IH]; intros a s Hak Ha; cbn [seq for_each].
    - left. replace n with a by lia. eauto.
    - destruct (Hstep a s) as [(s1 & E1 & I1)|(E1 & B1)]; [lia|exact Ha| |].
      + rewrite E1; cbn [bind]. apply IH; [lia|exact I1].
      + right. rewrite E1. split; [reflexivity|].
        apply (Hbad k (1 + a)); [lia|exact B1]. }
  intros s Hs. apply (G n 0 s); [lia|exact Hs].
Qed.

Lemma scan_S (mask : nat -> bool) (line_len n : nat) :
  scan mask line_len (S n) = scan_step mask line_len (scan mask line_len n) n.
Proof.
  unfold scan. rewrite seq_S, fold_left_app. reflexivity.
Qed.

Lemma linked_refl (a : nav_chunk) (t : edge_type) (co : coord)
  (b_ptr nb : nat) :
  linked a t co b_ptr nb [] a.
Proof.
  unfold linked. cbn [length]. repeat split; auto.
  intros k i0 i1 E. destruct k; discriminate.
Qed.

(** Writing the slot that follows the recorded runs leaves them alone. *)
Lemma linked_open (a : nav_chunk) (t : edge_type) (co : coord)
  (b_ptr nb : nat) (rs : list (nat * nat)) (a' : nav_chunk) (p : portal) :
  linked a t co b_ptr nb rs a' ->
  linked a t co b_ptr nb rs
    (set_portals a' (upd (portals a') (num_portals a') p)).
Proof.
  intros (Hc & Hn & Hold & Hnew). unfold linked, set_portals.
  cbn [cost_base num_portals portals].
  split; [exact Hc|]. split; [exact Hn|]. split.
  - intros k Hk. rewrite upd_other by lia. apply Hold; exact Hk.
  - intros k i0 i1 E.
    assert (k < length rs) by (apply nth_error_Some; congruence).
    rewrite upd_other by lia. apply Hnew; exact E.
Qed.

(** Closing the open run records it. *)
Lemma linked_close (a : nav_chunk) (t : edge_type) (co : coord)
  (b_ptr nb : nat) (rs : list (nat * nat)) (a' : nav_chunk) (i0 i1 : nat) :
  linked a t co b_ptr nb rs a' ->
  portals a' (num_portals a')
  = new_portal co t i0 (PortalAt b_ptr (nb + length rs)) ->
  linked a t co b_ptr nb (rs ++ [(i0, i1)])
    (set_num_portals
       (set_portals a'
          (upd (portals a') (num_portals a')
               (set_endpoints1 (portals a' (num_portals a'))
                               (edge_coord t (Z.of_nat i1)))))
       (num_portals a' + 1)).
Proof.
  intros (Hc & Hn & Hold & Hnew) Hopen.
  unfold linked, set_portals, set_num_portals.
  cbn [cost_base num_portals portals].
  split; [exact Hc|]. split; [rewrite length_app; cbn [length]; lia|]. split.
  - intros k Hk. rewrite upd_other by lia. apply Hold; exact Hk.
  - intros k j0 j1 E.
    assert (Hk : k < length (rs ++ [(i0, i1)]))
      by (apply nth_error_Some; congruence).
    rewrite length_app in Hk; cbn [length] in Hk.
    destruct (Nat.eq_dec k (length rs)) as [->|Hne].
    + rewrite nth_error_app2, Nat.sub_diag in E by lia.
      injection E as <- <-. rewrite <- Hn, upd_same, Hopen. reflexivity.
    + rewrite nth_error_app1 in E by lia.
      rewrite upd_other by lia. apply Hnew; exact E.
Qed.

Lemma edge_off_S (t : edge_type) (i : nat) :
  edge_off t (S i)
  = edge_off t i + (if on_horizontal_edge t then 1 else FIELD_RES_C).
Proof. unfold edge_off. rewrite Nat.mul_succ_l. lia. Qed.

Lemma line_len_eq (t : edge_type) :
  (if on_horizontal_edge t then FIELD_RES_C else FIELD_RES_R) = 64.
Proof. destruct (on_horizontal_edge t); reflexivity. Qed.

Lemma capacity_ok_open (na nb : nat) (st : scan_state) (i0 : nat) :
  opened st = Some i0 -> capacity_ok na nb st = true ->
  na + length (runs st) < MAX_PORTALS_PER_CHUNK /\
  nb + length (runs st) < MAX_PORTALS_PER_CHUNK.
Proof.
  unfold capacity_ok, scan_count. intros -> H.
  apply orb_true_iff in H. destruct H as [H|H].
  - apply Nat.eqb_eq in H. lia.
  - apply andb_true_iff in H. destruct H as [H1 H2].
    apply Nat.leb_le in H1, H2. lia.
Qed.

Lemma capacity_ok_taken (na nb : nat) (st : scan_state) :
  na + scan_count st <= MAX_PORTALS_PER_CHUNK ->
  nb + scan_count st <= MAX_PORTALS_PER_CHUNK ->
  capacity_ok na nb st = true.
Proof.
  unfold capacity_ok. intros H1 H2.
  apply orb_true_iff. right. apply andb_true_iff.
  split; apply Nat.leb_le; assumption.
Qed.

(** The first cursor assertion of the scan loop asks that [a_cursor] is
    inside the cost field of [a]. *)
Lemma cursor_assertion_own (ptr off : nat) :
  ((0 <=? CURSOR_OFF ptr off ptr)%Z
   && (CURSOR_OFF ptr off ptr <? Z.of_nat (FIELD_RES_R * FIELD_RES_C))%Z)
  = (off <? FIELD_RES_R * FIELD_RES_C).
Proof.
  unfold CURSOR_OFF. rewrite Z.sub_diag, Z.mul_0_l, Z.add_0_l.
  destruct (Nat.ltb_spec off (FIELD_RES_R * FIELD_RES_C));
    destruct (Z.leb_spec 0 (Z.of_nat off));
    destruct (Z.ltb_spec (Z.of_nat off)
                (Z.of_nat (FIELD_RES_R * FIELD_RES_C))); cbn [andb]; lia.
Qed.

(** The second one measures [a_cursor] from the cost field of [b]: with
    [a_cursor] inside the cost field of [a], it holds exactly when [a] is
    not stored after [b]. *)
Lemma cursor_assertion_other (a_ptr b_ptr off_a off_b : nat) :
  off_a < FIELD_RES_R * FIELD_RES_C ->
  ((0 <=? CURSOR_OFF b_ptr off_b b_ptr)%Z
   && (CURSOR_OFF a_ptr off_a b_ptr <? Z.of_nat (FIELD_RES_R * FIELD_RES_C))%Z)
  = (a_ptr <=? b_ptr).
Proof.
  intros Ha. unfold CURSOR_OFF, sizeof_nav_chunk.
  rewrite Z.sub_diag, Z.mul_0_l, Z.add_0_l.
  pose proof (N2Z.is_nonneg NAV_CHUNK_HEAD) as Hhead.
  set (head := Z.of_N NAV_CHUNK_HEAD) in *.
  set (cells := Z.of_nat (FIELD_RES_R * FIELD_RES_C)) in *.
  assert (Hoff : (0 <= Z.of_nat off_a < cells)%Z) by (unfold cells; lia).
  destruct (Z.leb_spec 0 (Z.of_nat off_b)); [|lia]. cbn [andb].
  destruct (Nat.leb_spec a_ptr b_ptr) as [Hle|Hgt];
    destruct (Z.ltb_spec ((Z.of_nat a_ptr - Z.of_nat b_ptr) * (head + cells)
                          + Z.of_nat off_a) cells); try reflexivity;
    exfalso; nia.
Qed.

Section LinkScan.

Variables (a b : nav_chunk) (a_ptr b_ptr : nat).
Variables (a_type b_type : edge_type) (a_coord b_coord : coord).
Hypothesis Horient : same_orientation a_type b_type.
Hypothesis Hptr : a_ptr <= b_ptr.

Local Abbreviation mask := (crossable a a_type b b_type).
Let stride : nat := if on_horizontal_edge a_type then 1 else FIELD_RES_C.
Let inv : nat -> link_state -> Prop :=
  link_inv a a_ptr a_type a_coord b b_ptr b_type b_coord 64.

Lemma link_step_spec (i : nat) (s : link_state) :
  i < 64 -> inv i s ->
  (exists s',
     link_step a_ptr a_type a_coord b_ptr b_type b_coord stride 64 i s = Ok s'
     /\ inv (1 + i) s') \/
  (link_step a_ptr a_type a_coord b_ptr b_type b_coord stride 64 i s
   = OutOfBounds /\
   capacity_ok (num_portals a) (num_portals b) (scan mask 64 (1 + i)) = false).
Proof.
  intros Hi (La & Lb & Ca & Cb & Hin & Hop & Hcap).
  pose proof (edge_off_bound a_type Hi) as Ba.
  pose proof (edge_off_bound b_type Hi) as Bb.
  assert (Hm : negb (cost_base (ls_a s) (edge_off a_type i) =? COST_IMPASSABLE)%Z
               && negb (cost_base (ls_b s) (edge_off b_type i) =? COST_IMPASSABLE)%Z
               = mask i).
  { destruct La as (-> & _), Lb as (-> & _). reflexivity. }
  assert (Sa : edge_off a_type i + stride = edge_off a_type (S i))
    by (rewrite edge_off_S; reflexivity).
  assert (Sb : edge_off b_type i + stride = edge_off b_type (S i))
    by (rewrite edge_off_S; unfold stride; rewrite Horient; reflexivity).
  pose proof La as (_ & Na & _). pose proof Lb as (_ & Nb & _).
  unfold link_step. rewrite Ca, Cb, cursor_assertion_own.
  rewrite (@cursor_assertion_other a_ptr b_ptr _ (edge_off b_type i) Ba).
  unfold assert, load.
  destruct (Nat.ltb_spec (edge_off a_type i) (FIELD_RES_R * FIELD_RES_C)); [|lia].
  destruct (Nat.leb_spec a_ptr b_ptr); [|lia].
  destruct (Nat.ltb_spec (edge_off b_type i) (FIELD_RES_R * FIELD_RES_C)); [|lia].
  cbn [bind]. rewrite Hm, Hin.
  unfold inv, link_inv. change (1 + i) with (S i). rewrite scan_S.
  set (st := scan mask 64 i) in *.
  unfold scan_step, is_open.
  destruct (opened st) as [i0|] eqn:Eo; destruct (mask i) eqn:Em;
    cbn [negb andb orb].
  - (* inside a run *)
    destruct (Hop i0 eq_refl) as (Hlt & Pa & Pb).
    destruct (capacity_ok_open _ _ _ Eo Hcap) as [Ka Kb].
    destruct (Nat.eqb_spec i (64 - 1)) as [Elast|Hnl].
    + (* the run reaches the end of the edge *)
      left. unfold store. rewrite Na, Nb.
      destruct (Nat.ltb_spec (num_portals a + length (runs st))
                             MAX_PORTALS_PER_CHUNK); [|lia].
      destruct (Nat.ltb_spec (num_portals b + length (runs st))
                             MAX_PORTALS_PER_CHUNK); [|lia].
      cbn [bind set_num_portals num_portals].
      destruct (Nat.leb_spec (num_portals a + length (runs st) + 1)
                             MAX_PORTALS_PER_CHUNK); [|lia].
      destruct (Nat.leb_spec (num_portals b + length (runs st) + 1)
                             MAX_PORTALS_PER_CHUNK); [|lia].
      cbn [bind]. eexists. split; [reflexivity|].
      cbn [ls_a ls_b ls_a_cursor ls_b_cursor ls_in_portal runs opened].
      rewrite <- Na, <- Nb.
      split; [apply linked_close; [exact La|rewrite Pa, Nb; reflexivity]|].
      split; [apply linked_close; [exact Lb|rewrite Pb, Na; reflexivity]|].
      split; [exact Sa|]. split; [exact Sb|]. split; [reflexivity|].
      split; [discriminate|].
      apply capacity_ok_taken; unfold scan_count; cbn [runs opened];
        rewrite length_app; cbn [length]; lia.
    + left. cbn [bind]. eexists. split; [reflexivity|].
      cbn [ls_a ls_b ls_a_cursor ls_b_cursor ls_in_portal].
      split; [exact La|]. split; [exact Lb|].
      split; [rewrite Ca; exact Sa|]. split; [rewrite Cb; exact Sb|].
      rewrite Hin. unfold is_open. rewrite Eo.
      split; [reflexivity|]. split; [|exact Hcap].
      intros j0 Ej. destruct (Hop j0 Ej) as (Hj & Pa' & Pb').
      split; [lia|]. split; assumption.
  - (* the run ended at the previous position *)
    destruct (Hop i0 eq_refl) as (Hlt & Pa & Pb).
    destruct (capacity_ok_open _ _ _ Eo Hcap) as [Ka Kb].
    left. unfold store. rewrite Na, Nb.
    destruct (Nat.ltb_spec (num_portals a + length (runs st))
                           MAX_PORTALS_PER_CHUNK); [|lia].
    destruct (Nat.ltb_spec (num_portals b + length (runs st))
                           MAX_PORTALS_PER_CHUNK); [|lia].
    cbn [bind set_num_portals num_portals].
    destruct (Nat.leb_spec (num_portals a + length (runs st) + 1)
                           MAX_PORTALS_PER_CHUNK); [|lia].
    destruct (Nat.leb_spec (num_portals b + length (runs st) + 1)
                           MAX_PORTALS_PER_CHUNK); [|lia].
    cbn [bind]. eexists. split; [reflexivity|].
    cbn [ls_a ls_b ls_a_cursor ls_b_cursor ls_in_portal runs opened].
    rewrite <- Na, <- Nb.
    replace (Z.of_nat i - 1)%Z with (Z.of_nat (i - 1)) by lia.
    split; [apply linked_close; [exact La|rewrite Pa, Nb; reflexivity]|].
    split; [apply linked_close; [exact Lb|rewrite Pb, Na; reflexivity]|].
    split; [exact Sa|]. split; [exact Sb|]. split; [reflexivity|].
    split; [discriminate|].
    apply capacity_ok_taken; unfold scan_count; cbn [runs opened];
      rewrite length_app; cbn [length]; lia.
  - (* a run opens *)
    unfold store. rewrite Na, Nb.
    destruct (Nat.ltb_spec (num_portals a + length (runs st))
                           MAX_PORTALS_PER_CHUNK) as [Ka|Ka].
    + destruct (Nat.ltb_spec (num_portals b + length (runs st))
                             MAX_PORTALS_PER_CHUNK) as [Kb|Kb].
      * left. cbn [bind]. eexists. split; [reflexivity|].
        cbn [ls_a ls_b ls_a_cursor ls_b_cursor ls_in_portal runs opened].
        rewrite <- Na, <- Nb.
        split; [apply linked_open; exact La|].
        split; [apply linked_open; exact Lb|].
        split; [exact Sa|]. split; [exact Sb|]. split; [reflexivity|].
        split; [|apply capacity_ok_taken; unfold scan_count;
                   cbn [runs opened]; lia].
        intros j0 Ej. injection Ej as <-.
        unfold set_portals. cbn [num_portals portals].
        rewrite !upd_same. split; [lia|]. split; reflexivity.
      * right. cbn [bind]. split; [reflexivity|].
        unfold capacity_ok, scan_count. cbn [runs opened].
        destruct (Nat.eqb_spec (length (runs st) + 1) 0); [lia|].
        destruct (Nat.leb_spec (num_portals b + (length (runs st) + 1))
                               MAX_PORTALS_PER_CHUNK); [lia|].
        destruct (_ <=? _); reflexivity.
    + right. cbn [bind]. split; [reflexivity|].
      unfold capacity_ok, scan_count. cbn [runs opened].
      destruct (Nat.eqb_spec (length (runs st) + 1) 0); [lia|].
      destruct (Nat.leb_spec (num_portals a + (length (runs st) + 1))
                             MAX_PORTALS_PER_CHUNK); [lia|].
      reflexivity.
  - (* outside any run *)
    left. cbn [bind]. eexists. split; [reflexivity|].
    cbn [ls_a ls_b ls_a_cursor ls_b_cursor ls_in_portal].
    split; [exact La|]. split; [exact Lb|].
    split; [rewrite Ca; exact Sa|]. split; [rewrite Cb; exact Sb|].
    rewrite Hin. unfold is_open. rewrite Eo.
      split; [reflexivity|]. split; [|exact Hcap].
    intros j0 Ej. discriminate.
Qed.

End LinkScan.

(** *** What the scan records *)

Lemma scan_open_prev (mask : nat -> bool) (L n : nat) :
  n < L -> is_open (scan mask L n) = (0 <? n) && mask (n - 1).
Proof.
  induction n as [|n IH]; intros Hn; [reflexivity|].
  rewrite scan_S. specialize (IH ltac:(lia)).
  replace (S n - 1) with n by lia. change (0 <? S n) with true. cbn [andb].
  unfold scan_step, is_open in *.
  destruct (opened (scan mask L n)) eqn:Eo; destruct (mask n);
    cbn [negb opened]; rewrite ?Eo; try reflexivity.
  destruct (Nat.eqb_spec n (L - 1)); [lia|rewrite Eo; reflexivity].
Qed.

Lemma count_runs_S (mask : nat -> bool) (n : nat) :
  count_runs mask (S n)
  = count_runs mask n + (if run_start mask n then 1 else 0).
Proof.
  unfold count_runs. rewrite seq_S, filter_app, length_app. cbn [filter].
  rewrite Nat.add_0_l. destruct (run_start mask n); reflexivity.
Qed.

(** The slots the scan has taken are the maximal runs it has met. *)
Lemma scan_count_runs (mask : nat -> bool) (L n : nat) :
  n <= L -> scan_count (scan mask L n) = count_runs mask n.
Proof.
  induction n as [|n IH]; intros Hn; [reflexivity|].
  rewrite scan_S, count_runs_S, <- IH by lia.
  pose proof (@scan_open_prev mask L n ltac:(lia)) as Hprev.
  unfold run_start. rewrite <- Hprev.
  unfold scan_step, scan_count, is_open.
  destruct (opened (scan mask L n)) eqn:Eo; destruct (mask n);
    cbn [negb andb runs opened]; rewrite ?Eo; try lia.
  - destruct (n =? L - 1); cbn [runs opened]; rewrite ?Eo; [|lia].
    rewrite length_app; cbn [length]; lia.
  - rewrite length_app; cbn [length]; lia.
Qed.

(** A run is left open at the end of the edge exactly when it starts at
    the last position. *)
Lemma scan_open_last (mask : nat -> bool) (L : nat) :
  1 <= L -> is_open (scan mask L L) = run_start mask (L - 1).
Proof.
  intros HL. destruct L as [|m]; [lia|].
  rewrite scan_S. replace (S m - 1) with m by lia.
  pose proof (@scan_open_prev mask (S m) m ltac:(lia)) as Hprev.
  unfold run_start. rewrite <- Hprev.
  unfold scan_step, is_open.
  destruct (opened (scan mask (S m) m)) eqn:Eo; destruct (mask m);
    cbn [negb andb opened]; rewrite ?Eo; try reflexivity.
  replace (m =? S m - 1) with true by (symmetry; apply Nat.eqb_eq; lia).
  reflexivity.
Qed.

(** The recorded runs are the maximal runs, except one that starts at the
    last position of the edge. *)
Lemma scan_recorded (mask : nat -> bool) (L : nat) :
  1 <= L ->
  length (runs (scan mask L L)) + (if run_start mask (L - 1) then 1 else 0)
  = count_runs mask L.
Proof.
  intros HL. rewrite <- (@scan_count_runs mask L L) by lia.
  rewrite <- scan_open_last by exact HL.
  unfold scan_count, is_open. destruct (opened _); reflexivity.
Qed.

(** Every recorded run, and the open one, is a stretch of crossable
    positions met so far. *)
Lemma scan_runs_sound (mask : nat -> bool) (L n : nat) :
  (forall i0 i1, In (i0, i1) (runs (scan mask L n)) ->
     i0 <= i1 < n /\ forall i, i0 <= i <= i1 -> mask i = true) /\
  (forall i0, opened (scan mask L n) = Some i0 ->
     i0 < n /\ forall i, i0 <= i < n -> mask i = true).
Proof.
  induction n as [|n [IHr IHo]].
  - split; [intros i0 i1 []|discriminate].
  - rewrite scan_S. unfold scan_step.
    destruct (opened (scan mask L n)) as [j0|] eqn:Eo.
    + destruct (IHo j0 eq_refl) as [Hj Hmask].
      destruct (mask n) eqn:Em; cbn [negb].
      * destruct (n =? L - 1); cbn [runs opened].
        -- split; [|discriminate].
           intros i0 i1 Hin. apply in_app_or in Hin.
           destruct Hin as [Hin|[E|[]]].
           ++ destruct (IHr i0 i1 Hin) as [Hb Hm]. split; [lia|exact Hm].
           ++ injection E as <- <-. split; [lia|].
              intros i Hi. destruct (Nat.eq_dec i n) as [->|Hne];
                [exact Em|apply Hmask; lia].
        -- split.
           ++ intros i0 i1 Hin. destruct (IHr i0 i1 Hin) as [Hb Hm].
              split; [lia|exact Hm].
           ++ rewrite Eo. intros i0 E. injection E as <-. split; [lia|].
              intros i Hi. destruct (Nat.eq_dec i n) as [->|Hne];
                [exact Em|apply Hmask; lia].
      * cbn [runs opened]. split; [|discriminate].
        intros i0 i1 Hin. apply in_app_or in Hin.
        destruct Hin as [Hin|[E|[]]].
        -- destruct (IHr i0 i1 Hin) as [Hb Hm]. split; [lia|exact Hm].
        -- injection E as <- <-. split; [lia|].
           intros i Hi. apply Hmask; lia.
    + destruct (mask n) eqn:Em; cbn [runs opened].
      * split.
        -- intros i0 i1 Hin. destruct (IHr i0 i1 Hin) as [Hb Hm].
           split; [lia|exact Hm].
        -- intros i0 E. injection E as <-. split; [lia|].
           intros i Hi. replace i with n by lia. exact Em.
      * split.
        -- intros i0 i1 Hin. destruct (IHr i0 i1 Hin) as [Hb Hm].
           split; [lia|exact Hm].
        -- rewrite Eo. discriminate.
Qed.

Lemma edge_types_assertion_holds (a_type b_type : edge_type) :
  edge_types_assertion a_type b_type = true.
Proof. destruct a_type, b_type; reflexivity. Qed.

Lemma scan_count_step (mask : nat -> bool) (L n : nat) :
  scan_count (scan mask L n) <= scan_count (scan mask L (S n)).
Proof.
  rewrite scan_S. unfold scan_step, scan_count.
  destruct (opened (scan mask L n)) eqn:Eo; destruct (mask n);
    cbn [negb runs opened]; rewrite ?Eo; try lia.
  - destruct (n =? L - 1); cbn [runs opened]; rewrite ?Eo; [|lia].
    rewrite length_app; cbn [length]; lia.
  - rewrite length_app; cbn [length]; lia.
Qed.

Lemma capacity_ok_step (na nb : nat) (mask : nat -> bool) (L n : nat) :
  capacity_ok na nb (scan mask L n) = false ->
  capacity_ok na nb (scan mask L (S n)) = false.
Proof.
  pose proof (scan_count_step mask L n) as Hle. unfold capacity_ok.
  intros H. apply orb_false_iff in H. destruct H as [H0 H1].
  apply Nat.eqb_neq in H0. apply andb_false_iff in H1.
  apply orb_false_iff. split; [apply Nat.eqb_neq; lia|].
  apply andb_false_iff.
  destruct H1 as [H1|H1]; apply Nat.leb_gt in H1;
    [left|right]; apply Nat.leb_gt; lia.
Qed.

Lemma cursor_start_bound (t : edge_type) :
  cursor_start t < FIELD_RES_R * FIELD_RES_C.
Proof.
  pose proof (@edge_off_bound t 0 ltac:(lia)) as B. unfold edge_off in B.
  rewrite Nat.mul_0_l, Nat.add_0_r in B. exact B.
Qed.

(** A call whose first chunk is stored after the second one fails the
    second cursor assertion in the first iteration of the scan loop. *)
Lemma n_link_chunks_stored_after (a : nav_chunk) (a_ptr : nat)
  (a_type : edge_type) (a_coord : coord) (b : nav_chunk) (b_ptr : nat)
  (b_type : edge_type) (b_coord : coord) :
  b_ptr < a_ptr ->
  n_link_chunks a a_ptr a_type a_coord b b_ptr b_type b_coord = AssertFail.
Proof.
  intros Hgt. unfold n_link_chunks, assert.
  rewrite edge_types_assertion_holds, line_len_eq. cbn [bind].
  change (seq 0 64) with (0 :: seq 1 63). cbn [for_each].
  unfold link_step at 1. cbn [ls_a_cursor ls_b_cursor].
  rewrite cursor_assertion_own.
  rewrite (@cursor_assertion_other a_ptr b_ptr _ (cursor_start b_type)
             (cursor_start_bound a_type)).
  pose proof (cursor_start_bound a_type) as Ba.
  destruct (Nat.ltb_spec (cursor_start a_type) (FIELD_RES_R * FIELD_RES_C));
    [|lia].
  destruct (Nat.leb_spec a_ptr b_ptr); [lia|]. reflexivity.
Qed.

Lemma n_link_chunks_ok_order (a : nav_chunk) (a_ptr : nat)
  (a_type : edge_type) (a_coord : coord) (b : nav_chunk) (b_ptr : nat)
  (b_type : edge_type) (b_coord : coord) (ab : nav_chunk * nav_chunk) :
  n_link_chunks a a_ptr a_type a_coord b b_ptr b_type b_coord = Ok ab ->
  a_ptr <= b_ptr.
Proof.
  intros E. destruct (Nat.le_gt_cases a_ptr b_ptr) as [Hle|Hgt]; [exact Hle|].
  rewrite n_link_chunks_stored_after in E by exact Hgt. discriminate E.
Qed.

(** [n_link_chunks] on two edges that run in the same direction, the
    first chunk not stored after the second: either both chunks have room
    for every run the scan opens, and the call records the runs of [scan]
    in both; or one of them has not, and the call writes past the end of
    its portal array. *)
Lemma n_link_chunks_spec (a : nav_chunk) (a_ptr : nat) (a_type : edge_type)
  (a_coord : coord) (b : nav_chunk) (b_ptr : nat) (b_type : edge_type)
  (b_coord : coord) :
  same_orientation a_type b_type -> a_ptr <= b_ptr ->
  let st := scan (crossable a a_type b b_type) 64 64 in
  (capacity_ok (num_portals a) (num_portals b) st = true /\
   exists a' b',
     n_link_chunks a a_ptr a_type a_coord b b_ptr b_type b_coord
     = Ok (a', b') /\
     linked a a_type a_coord b_ptr (num_portals b) (runs st) a' /\
     linked b b_type b_coord a_ptr (num_portals a) (runs st) b') \/
  (capacity_ok (num_portals a) (num_portals b) st = false /\
   n_link_chunks a a_ptr a_type a_coord b b_ptr b_type b_coord
   = OutOfBounds).
Proof.
  intros Horient Hptr st. unfold n_link_chunks, assert.
  rewrite edge_types_assertion_holds, line_len_eq. cbn [bind].
  destruct (@for_each_seq_cases link_state
    (link_inv a a_ptr a_type a_coord b b_ptr b_type b_coord 64)
    (fun i => capacity_ok (num_portals a) (num_portals b)
                (scan (crossable a a_type b b_type) 64 i) = false)
    (link_step a_ptr a_type a_coord b_ptr b_type b_coord
       (if on_horizontal_edge a_type then 1 else FIELD_RES_C) 64) 64)
    with (s := mklink a b (cursor_start a_type) (cursor_start b_type) false)
    as [(s' & E & Hinv)|(E & Hbad)].
  - intros i s Hi Hinv. apply link_step_spec; assumption.
  - intros i _. apply capacity_ok_step.
  - unfold link_inv. cbn [ls_a ls_b ls_a_cursor ls_b_cursor ls_in_portal].
    change (scan (crossable a a_type b b_type) 64 0) with (mkscan [] None).
    cbn [runs opened].
    split; [apply linked_refl|]. split; [apply linked_refl|].
    split; [unfold edge_off; lia|]. split; [unfold edge_off; lia|].
    split; [reflexivity|]. split; [discriminate|reflexivity].
  - left. destruct Hinv as (La & Lb & _ & _ & _ & _ & Hcap).
    split; [exact Hcap|]. exists (ls_a s'), (ls_b s').
    rewrite E. cbn [bind]. split; [reflexivity|]. split; assumption.
  - right. split; [exact Hbad|]. rewrite E. reflexivity.
Qed.

(** The portals a call records in each chunk are the maximal runs of
    crossable positions of the edge, less one when a run starts at the last
    position: that run is opened and never closed. *)
Lemma n_link_chunks_recorded (a : nav_chunk) (a_ptr : nat)
  (a_type : edge_type) (a_coord : coord) (b : nav_chunk) (b_ptr : nat)
  (b_type : edge_type) (b_coord : coord) (a' b' : nav_chunk) :
  same_orientation a_type b_type ->
  n_link_chunks a a_ptr a_type a_coord b b_ptr b_type b_coord = Ok (a', b') ->
  let mask := crossable a a_type b b_type in
  num_portals a' + (if run_start mask 63 then 1 else 0)
  = num_portals a + count_runs mask 64 /\
  num_portals b' + (if run_start mask 63 then 1 else 0)
  = num_portals b + count_runs mask 64.
Proof.
  intros Horient E mask.
  destruct (@n_link_chunks_spec a a_ptr a_type a_coord b b_ptr b_type b_coord
              Horient (n_link_chunks_ok_order _ _ _ _ _ _ _ _ E))
    as [(_ & a1 & b1 & E1 & La & Lb)|(_ & E1)];
    rewrite E1 in E; [|discriminate].
  injection E as <- <-.
  destruct La as (_ & Na & _). destruct Lb as (_ & Nb & _).
  pose proof (@scan_recorded mask 64 ltac:(lia)) as Hrec.
  change (64 - 1) with 63 in Hrec. fold mask in Na, Nb. lia.
Qed.

(** ** The chunk array during discovery *)

Lemma opposite_orientation (t : edge_type) :
  same_orientation t (opposite t).
Proof. destruct t; reflexivity. Qed.

Lemma opposite_involutive (t : edge_type) : opposite (opposite t) = t.
Proof. destruct t; reflexivity. Qed.

Lemma crossable_sym (a : nav_chunk) (ta : edge_type) (b : nav_chunk)
  (tb : edge_type) (i : nat) :
  crossable b tb a ta i = crossable a ta b tb i.
Proof. unfold crossable. apply andb_comm. Qed.

Lemma crossable_ext (a a' : nav_chunk) (ta : edge_type) (b b' : nav_chunk)
  (tb : edge_type) (i : nat) :
  cost_base a' = cost_base a -> cost_base b' = cost_base b ->
  crossable a' ta b' tb i = crossable a ta b tb i.
Proof. unfold crossable, passable. intros -> ->. reflexivity. Qed.

Lemma extends_refl (chs : nat -> nav_chunk) : extends chs chs.
Proof. intros idx. repeat split; auto. Qed.

Lemma extends_trans (chs1 chs2 chs3 : nat -> nav_chunk) :
  extends chs1 chs2 -> extends chs2 chs3 -> extends chs1 chs3.
Proof.
  intros H12 H23 idx. destruct (H12 idx) as (C1 & N1 & P1).
  destruct (H23 idx) as (C2 & N2 & P2). split; [congruence|].
  split; [lia|]. intros k Hk. rewrite P2 by lia. apply P1; exact Hk.
Qed.

Lemma portal_paired_extends (w h : nat) (chs chs' : nat -> nav_chunk)
  (idx k : nat) :
  extends chs chs' -> k < num_portals (chs idx) ->
  portal_paired w h chs idx k -> portal_paired w h chs' idx k.
Proof.
  intros Hext Hk (t & idx' & k' & i0 & i1 & Hn & Hk' & Hc & Hc' & Hch & He0
                  & He1 & Hq0 & Hq1 & Hi & Hcross).
  destruct (Hext idx) as (C & N & P). destruct (Hext idx') as (C' & N' & P').
  exists t, idx', k', i0, i1.
  rewrite (P k Hk), (P' k' Hk').
  repeat (split; [first [assumption|lia]|]).
  intros i Hi'. rewrite <- (Hcross i Hi'). apply crossable_ext; assumption.
Qed.

Lemma linked_new_slot (a : nav_chunk) (t : edge_type) (co : coord)
  (b_ptr nb : nat) (rs : list (nat * nat)) (a' : nav_chunk) (k : nat) :
  linked a t co b_ptr nb rs a' ->
  num_portals a <= k < num_portals a' ->
  exists j i0 i1, k = num_portals a + j /\ nth_error rs j = Some (i0, i1) /\
    portals a' k = closed_portal co t i0 i1 (PortalAt b_ptr (nb + j)).
Proof.
  intros (_ & Hn & _ & Hnew) Hk.
  assert (Hj : k - num_portals a < length rs) by lia.
  destruct (nth_error rs (k - num_portals a)) as [[i0 i1]|] eqn:E;
    [|apply nth_error_None in E; lia].
  exists (k - num_portals a), i0, i1.
  split; [lia|]. split; [exact E|].
  replace k with (num_portals a + (k - num_portals a)) at 1 by lia.
  apply Hnew; exact E.
Qed.

Lemma run_link_call_inv (w h : nat) (lc : link_call)
  (chs chs' : nat -> nav_chunk) :
  call_ok w h lc -> run_link_call lc chs = Ok chs' ->
  exists a' b' rs,
    chs' = upd (upd chs (lc_a lc) a') (lc_b lc) b' /\
    linked (chs (lc_a lc)) (lc_a_type lc) (lc_a_coord lc) (lc_b lc)
           (num_portals (chs (lc_b lc))) rs a' /\
    linked (chs (lc_b lc)) (lc_b_type lc) (lc_b_coord lc) (lc_a lc)
           (num_portals (chs (lc_a lc))) rs b' /\
    (forall i0 i1, In (i0, i1) rs ->
       i0 <= i1 < 64 /\
       forall i, i0 <= i <= i1 ->
         crossable (chs (lc_a lc)) (lc_a_type lc)
                   (chs (lc_b lc)) (lc_b_type lc) i = true).
Proof.
  intros (_ & _ & Hlt & Ht & _) E. unfold run_link_call, link_in_store in E.
  assert (Horient : same_orientation (lc_a_type lc) (lc_b_type lc))
    by (rewrite Ht; apply opposite_orientation).
  destruct (@n_link_chunks_spec (chs (lc_a lc)) (lc_a lc) (lc_a_type lc)
              (lc_a_coord lc) (chs (lc_b lc)) (lc_b lc) (lc_b_type lc)
              (lc_b_coord lc) Horient (Nat.lt_le_incl _ _ Hlt))
    as [(_ & a' & b' & E1 & La & Lb)|(_ & E1)];
    rewrite E1 in E; cbn [bind fst snd] in E; [|discriminate].
  injection E as <-. exists a', b'. eexists.
  split; [reflexivity|]. split; [exact La|]. split; [exact Lb|].
  intros i0 i1 Hin. apply (scan_runs_sound _ 64 64); exact Hin.
Qed.

Lemma upd2_other (A : Type) (f : nat -> A) (i j k : nat) (x y : A) :
  k <> i -> k <> j -> upd (upd f i x) j y k = f k.
Proof. intros Hi Hj. rewrite !upd_other by assumption. reflexivity. Qed.

Lemma upd2_first (A : Type) (f : nat -> A) (i j : nat) (x y : A) :
  i <> j -> upd (upd f i x) j y i = x.
Proof. intros Hij. rewrite upd_other by exact Hij. apply upd_same. Qed.

Lemma run_link_call_extends (w h : nat) (lc : link_call)
  (chs chs' : nat -> nav_chunk) :
  call_ok w h lc -> run_link_call lc chs = Ok chs' -> extends chs chs'.
Proof.
  intros Hok E. pose proof Hok as (_ & _ & Hlt & _).
  pose proof (Nat.lt_neq _ _ Hlt) as Hne.
  destruct (run_link_call_inv chs Hok E)
    as (a' & b' & rs & -> & (Ca & Na & Pa & _) & (Cb & Nb & Pb & _) & _).
  intros idx.
  destruct (Nat.eq_dec idx (lc_b lc)) as [->|Hb].
  - rewrite upd_same. split; [exact Cb|]. split; [lia|exact Pb].
  - destruct (Nat.eq_dec idx (lc_a lc)) as [->|Ha].
    + rewrite upd2_first by exact Hne.
      split; [exact Ca|]. split; [lia|exact Pa].
    + rewrite upd2_other by assumption. repeat split; auto.
Qed.

Lemma closed_portal_fields (co : coord) (t : edge_type) (i0 i1 : nat)
  (q : portal_ptr) :
  chunk (closed_portal co t i0 i1 q) = co /\
  endpoints0 (closed_portal co t i0 i1 q) = edge_coord t (Z.of_nat i0) /\
  endpoints1 (closed_portal co t i0 i1 q) = edge_coord t (Z.of_nat i1) /\
  num_neighbours (closed_portal co t i0 i1 q) = 0 /\
  connected (closed_portal co t i0 i1 q) = q.
Proof. repeat split. Qed.

Lemma run_link_call_discovered (w h : nat) (lc : link_call)
  (chs chs' : nat -> nav_chunk) :
  call_ok w h lc -> discovered w h chs -> run_link_call lc chs = Ok chs' ->
  discovered w h chs'.
Proof.
  intros Hok Hdisc E idx k Hidx Hk.
  pose proof (run_link_call_extends chs Hok E) as Hext.
  destruct (Nat.lt_ge_cases k (num_portals (chs idx))) as [Hold|Hnew].
  { apply (portal_paired_extends Hext Hold). apply Hdisc; assumption. }
  pose proof Hok as (Hia & Hib & Hlt & Ht & Hna & Hnb & Hca & Hcb).
  pose proof (Nat.lt_neq _ _ Hlt) as Hne.
  destruct (run_link_call_inv chs Hok E)
    as (a' & b' & rs & -> & La & Lb & Hruns).
  pose proof La as (Ca & Na & _). pose proof Lb as (Cb & Nb & _).
  destruct (Nat.eq_dec idx (lc_b lc)) as [->|Hb].
  - (* a new portal of [b] *)
    rewrite upd_same in Hk.
    destruct (linked_new_slot Lb (conj Hnew Hk))
      as (j & i0 & i1 & -> & Ej & Pk).
    assert (Hj : j < length rs) by (apply nth_error_Some; congruence).
    destruct (La) as (_ & _ & _ & Hnewa). specialize (Hnewa j i0 i1 Ej).
    destruct (Hruns i0 i1 (nth_error_In _ _ Ej)) as [Hi Hcross].
    exists (lc_b_type lc), (lc_a lc), (num_portals (chs (lc_a lc)) + j), i0, i1.
    assert (Hopp : opposite (lc_b_type lc) = lc_a_type lc)
      by (rewrite Ht; apply opposite_involutive).
    rewrite Hopp, upd_same, upd2_first, Pk, Hnewa by exact Hne.
    split; [exact Hnb|]. split; [lia|].
    split; [reflexivity|]. split; [reflexivity|].
    split; [exact Hcb|]. split; [reflexivity|]. split; [reflexivity|].
    split; [reflexivity|]. split; [reflexivity|]. split; [exact Hi|].
    intros i Hi'. rewrite crossable_sym.
    rewrite (@crossable_ext (chs (lc_a lc)) a' _ (chs (lc_b lc)) b' _ i Ca Cb).
    apply Hcross; exact Hi'.
  - destruct (Nat.eq_dec idx (lc_a lc)) as [->|Ha].
    + (* a new portal of [a] *)
      rewrite upd2_first in Hk by exact Hne.
      destruct (linked_new_slot La (conj Hnew Hk))
        as (j & i0 & i1 & -> & Ej & Pk).
      assert (Hj : j < length rs) by (apply nth_error_Some; congruence).
      destruct (Lb) as (_ & _ & _ & Hnewb). specialize (Hnewb j i0 i1 Ej).
      destruct (Hruns i0 i1 (nth_error_In _ _ Ej)) as [Hi Hcross].
      exists (lc_a_type lc), (lc_b lc), (num_portals (chs (lc_b lc)) + j), i0, i1.
      rewrite upd_same, upd2_first, Pk, Hnewb by exact Hne.
      rewrite <- Ht.
      split; [exact Hna|]. split; [lia|].
      split; [reflexivity|]. split; [reflexivity|].
      split; [exact Hca|]. split; [reflexivity|]. split; [reflexivity|].
      split; [reflexivity|]. split; [reflexivity|]. split; [exact Hi|].
      intros i Hi'.
      rewrite (@crossable_ext (chs (lc_a lc)) a' _ (chs (lc_b lc)) b' _ i Ca Cb).
      apply Hcross; exact Hi'.
    + rewrite upd2_other in Hk by assumption. lia.
Qed.

Lemma chunk_idx_div_mod (w r c : nat) :
  c < w -> CHUNK_IDX r w c / w = r /\ CHUNK_IDX r w c mod w = c.
Proof.
  intros Hc. unfold CHUNK_IDX. split.
  - rewrite Nat.div_add_l by lia. rewrite Nat.div_small by lia. lia.
  - rewrite Nat.add_comm, Nat.Div0.mod_add. apply Nat.mod_small; exact Hc.
Qed.

Lemma chunk_idx_bound (w h r c : nat) :
  r < h -> c < w -> CHUNK_IDX r w c < h * w.
Proof. unfold CHUNK_IDX. intros Hr Hc. nia. Qed.

Lemma link_calls_ok (w h : nat) (lc : link_call) :
  In lc (link_calls w h) -> call_ok w h lc.
Proof.
  intros Hin. apply in_link_calls in Hin.
  destruct Hin as (r & c & Hr & Hc & Hin). apply in_link_calls_at in Hin.
  destruct (chunk_idx_div_mod r Hc) as [Hd Hm].
  destruct Hin as [[Hb ->]|[Hb ->]]; unfold call_ok;
    cbn [lc_a lc_b lc_a_type lc_b_type lc_a_coord lc_b_coord opposite].
  - destruct (@chunk_idx_div_mod w (r + 1) c Hc) as [Hd' Hm'].
    unfold neighbour_across. rewrite Hd, Hm, Hd', Hm'.
    destruct (Nat.ltb_spec (r + 1) h); [|lia].
    destruct (Nat.leb_spec 1 (r + 1)); [|lia].
    replace (r + 1 - 1) with r by lia.
    split; [apply chunk_idx_bound; lia|].
    split; [apply chunk_idx_bound; lia|].
    split; [unfold CHUNK_IDX; nia|]. repeat split.
  - destruct (@chunk_idx_div_mod w r (c + 1) ltac:(lia)) as [Hd' Hm'].
    unfold neighbour_across. rewrite Hd, Hm, Hd', Hm'.
    destruct (Nat.ltb_spec (c + 1) w); [|lia].
    destruct (Nat.leb_spec 1 (c + 1)); [|lia].
    replace (c + 1 - 1) with c by lia.
    split; [apply chunk_idx_bound; lia|].
    split; [apply chunk_idx_bound; lia|].
    split; [unfold CHUNK_IDX; lia|]. repeat split.
Qed.

(** Partial correctness of a loop over a list. *)
Lemma for_each_list_partial (Ix St : Type) (I : St -> Prop)
  (body : Ix -> St -> result St) (l : list Ix) :
  (forall x s s', In x l -> I s -> body x s = Ok s' -> I s') ->
  forall s s', I s -> for_each l body s = Ok s' -> I s'.
Proof.
  induction l as [|x l IH]; intros Hstep s s' Hs E; cbn [for_each] in E.
  - injection E as <-. exact Hs.
  - apply bind_ok_inv in E. destruct E as (s1 & E1 & E2).
    apply (IH (fun y t t' Hy => Hstep y t t' (or_intror Hy)) s1 s');
      [|exact E2].
    apply (Hstep x s s1); [left; reflexivity|exact Hs|exact E1].
Qed.

(** At the end of the loops of [n_create_portals], started on chunks
    without portals, every recorded portal is half of a pair and the cost
    fields are as they were. *)
Lemma create_portals_loops_discovered (w h : nat)
  (chs : nat -> nav_chunk) (s : (nat -> nav_chunk) * nat) :
  (forall idx, idx < h * w -> num_portals (chs idx) = 0) ->
  create_portals_loops w h chs = Ok s ->
  discovered w h (fst s) /\ extends chs (fst s) /\
  snd s = length (link_calls w h).
Proof.
  intros Hzero E. rewrite create_portals_loops_schedule in E.
  apply bind_ok_inv in E. destruct E as (chs' & E & E').
  injection E' as <-. cbn [fst snd].
  assert (G : discovered w h chs' /\ extends chs chs');
    [|split; [apply G|split; [apply G|reflexivity]]].
  apply (@for_each_list_partial link_call (nat -> nav_chunk)
           (fun x => discovered w h x /\ extends chs x)
           run_link_call (link_calls w h)) with (s := chs); [| |exact E].
  - intros lc s1 s2 Hin [Hd He] E1. apply link_calls_ok in Hin. split.
    + apply (run_link_call_discovered Hin Hd E1).
    + apply (extends_trans He). apply (run_link_call_extends s1 Hin E1).
  - split; [|apply extends_refl].
    intros idx k Hidx Hk. rewrite (Hzero idx Hidx) in Hk. lia.
Qed.

Lemma crossable_open_cells (a b : nav_chunk) (t : edge_type) (i : nat) :
  crossable a t b (opposite t) i = true ->
  match t with
  | EDGE_TOP => open_cell a 0 i /\ open_cell b (FIELD_RES_R - 1) i
  | EDGE_BOT => open_cell a (FIELD_RES_R - 1) i /\ open_cell b 0 i
  | EDGE_LEFT => open_cell a i 0 /\ open_cell b i (FIELD_RES_C - 1)
  | EDGE_RIGHT => open_cell a i (FIELD_RES_C - 1) /\ open_cell b i 0
  end.
Proof.
  unfold crossable, passable, open_cell. intros H.
  apply andb_true_iff in H. destruct H as [Ha Hb].
  apply negb_true_iff, Z.eqb_neq in Ha, Hb.
  rewrite !edge_off_eq in *. unfold cell_off.
  change FIELD_RES_R with 64. change FIELD_RES_C with 64.
  destruct t; cbn [opposite] in *; split;
    match goal with
    | H : cost_base ?ch ?x <> _ |- cost_base ?ch ?y <> _ =>
        replace y with x by lia; exact H
    end.
Qed.

(** C4.  Every portal recorded by portal discovery (the loops of
    [n_create_portals], started on chunks that hold no portal) belongs to
    one edge [t] of its chunk that faces a neighbouring chunk.  Its two
    endpoints lie on the boundary row of that edge (row 0 for the top edge,
    row FIELD_RES_R - 1 for the bottom edge) or on its boundary column
    (column 0 for the left edge, column FIELD_RES_C - 1 for the right
    edge), at two positions [i0 <= i1]: the fixed coordinate is the same
    in both, and the one that varies does not decrease from endpoints[0]
    to endpoints[1].  Every cell of that row or column from [i0] to [i1]
    can be entered, and so can the cell that faces it in the neighbour. *)
Theorem recorded_portal_spans_edge (w h : nat) (chs : nat -> nav_chunk)
  (s : (nat -> nav_chunk) * nat) (idx k : nat) :
  (forall j, j < h * w -> num_portals (chs j) = 0) ->
  create_portals_loops w h chs = Ok s ->
  idx < h * w -> k < num_portals (fst s idx) ->
  let p := portals (fst s idx) k in
  exists t idx' i0 i1,
    neighbour_across w h idx t = Some idx' /\
    i0 <= i1 < 64 /\
    match t with
    | EDGE_TOP =>
        endpoints0 p = mkcoord 0 (Z.of_nat i0) /\
        endpoints1 p = mkcoord 0 (Z.of_nat i1) /\
        forall i, i0 <= i <= i1 ->
          open_cell (fst s idx) 0 i /\
          open_cell (fst s idx') (FIELD_RES_R - 1) i
    | EDGE_BOT =>
        endpoints0 p = mkcoord (Z.of_nat (FIELD_RES_R - 1)) (Z.of_nat i0) /\
        endpoints1 p = mkcoord (Z.of_nat (FIELD_RES_R - 1)) (Z.of_nat i1) /\
        forall i, i0 <= i <= i1 ->
          open_cell (fst s idx) (FIELD_RES_R - 1) i /\
          open_cell (fst s idx') 0 i
    | EDGE_LEFT =>
        endpoints0 p = mkcoord (Z.of_nat i0) 0 /\
        endpoints1 p = mkcoord (Z.of_nat i1) 0 /\
        forall i, i0 <= i <= i1 ->
          open_cell (fst s idx) i 0 /\
          open_cell (fst s idx') i (FIELD_RES_C - 1)
    | EDGE_RIGHT =>
        endpoints0 p = mkcoord (Z.of_nat i0) (Z.of_nat (FIELD_RES_C - 1)) /\
        endpoints1 p = mkcoord (Z.of_nat i1) (Z.of_nat (FIELD_RES_C - 1)) /\
        forall i, i0 <= i <= i1 ->
          open_cell (fst s idx) i (FIELD_RES_C - 1) /\
          open_cell (fst s idx') i 0
    end.
Proof.
  intros Hzero E Hidx Hk p.
  destruct (create_portals_loops_discovered w h chs Hzero E) as (Hd & _ & _).
  destruct (Hd idx k Hidx Hk)
    as (t & idx' & k' & i0 & i1 & Hn & _ & _ & _ & _ & He0 & He1 & _ & _
        & Hi & Hcross).
  exists t, idx', i0, i1. fold p in He0, He1.
  split; [exact Hn|]. split; [exact Hi|].
  rewrite He0, He1, !edge_coord_eq.
  pose proof (fun i Hi' => crossable_open_cells _ _ _ _ (Hcross i Hi')) as Ho.
  destruct t; (split; [reflexivity|split; [reflexivity|exact Ho]]).
Qed.

(** ** Portal linker *)

Lemma edges_appended_refl (p : portal) : edges_appended p p [].
Proof.
  unfold edges_appended. cbn [length]. repeat split; auto.
  intros k e E. destruct k; discriminate.
Qed.

Lemma edges_appended_snoc (p p' : portal) (es : list edge) (e : edge) :
  edges_appended p p' es ->
  edges_appended p (add_edge p' (upd (edges p') (num_neighbours p') e))
                 (es ++ [e]).
Proof.
  intros (Hc & H0 & H1 & Hcon & Hn & Hold & Hnew).
  unfold edges_appended, add_edge.
  cbn [chunk endpoints0 endpoints1 connected num_neighbours edges].
  repeat (split; [assumption|]).
  split; [rewrite length_app; cbn [length]; lia|]. split.
  - intros k Hk. rewrite upd_other by lia. apply Hold; exact Hk.
  - intros k e' E.
    assert (Hk : k < length (es ++ [e])) by (apply nth_error_Some; congruence).
    rewrite length_app in Hk; cbn [length] in Hk.
    destruct (Nat.eq_dec k (length es)) as [->|Hne].
    + rewrite nth_error_app2, Nat.sub_diag in E by lia.
      injection E as <-. rewrite <- Hn. apply upd_same.
    + rewrite nth_error_app1 in E by lia.
      rewrite upd_other by lia. apply Hnew; exact E.
Qed.

Lemma edges_appended_midpoint (p p' : portal) (es : list edge) :
  edges_appended p p' es -> midpoint p' = midpoint p.
Proof.
  intros (_ & H0 & H1 & _). unfold midpoint. rewrite H0, H1. reflexivity.
Qed.

Lemma found_edges_S (self : nat) (ch : nav_chunk) (i j : nat) :
  found_edges self ch i (seq 0 (S j))
  = found_edges self ch i (seq 0 j) ++ found_edges self ch i [j].
Proof. unfold found_edges. rewrite seq_S, flat_map_app. reflexivity. Qed.

Lemma pathfinder_calls_S (ch : nav_chunk) (i j : nat) :
  pathfinder_calls ch i (seq 0 (S j))
  = pathfinder_calls ch i (seq 0 j) ++ pathfinder_calls ch i [j].
Proof. unfold pathfinder_calls. rewrite seq_S, flat_map_app. reflexivity. Qed.

Lemma found_edges_prefix (self : nat) (ch : nav_chunk) (i j n : nat) :
  j <= n ->
  length (found_edges self ch i (seq 0 j))
  <= length (found_edges self ch i (seq 0 n)).
Proof.
  intros Hj. replace n with (j + (n - j)) by lia.
  unfold found_edges. rewrite seq_app, flat_map_app, length_app. lia.
Qed.

Lemma found_edges_length (self : nat) (ch : nav_chunk) (i : nat)
  (js : list nat) :
  length (found_edges self ch i js)
  <= length (filter (fun j => negb (i =? j)) js).
Proof.
  induction js as [|j js IH]; [reflexivity|].
  unfold found_edges in *. cbn [flat_map filter]. rewrite length_app.
  destruct (i =? j); cbn [negb length]; [lia|].
  destruct (AStar_GridPath _ _ _); cbn [length]; lia.
Qed.

Lemma cost_field_ext (ch ch' : nav_chunk) :
  cost_base ch' = cost_base ch -> cost_field ch' = cost_field ch.
Proof. unfold cost_field. intros ->. reflexivity. Qed.

Lemma link_portals_step_spec (self : nat) (ch : nav_chunk) (i j : nat)
  (s : nav_chunk * list (coord * coord * list Z)) :
  num_portals ch <= MAX_PORTALS_PER_CHUNK ->
  i < num_portals ch -> j < num_portals ch ->
  num_neighbours (portals ch i)
    + length (found_edges self ch i (seq 0 (num_portals ch)))
  <= MAX_PORTALS_PER_CHUNK - 1 ->
  linker_row_inv self ch i j s ->
  exists s', link_portals_step self i j s = Ok s' /\
             linker_row_inv self ch i (1 + j) s'.
Proof.
  intros Hn Hi Hj Hroom (Np & Cb & Hdone & Hcur & Hrest & Hlog).
  unfold link_portals_step, linker_row_inv. change (1 + j) with (S j).
  rewrite found_edges_S, pathfinder_calls_S.
  unfold found_edges at 3, pathfinder_calls at 3. cbn [flat_map].
  rewrite !app_nil_r.
  destruct (Nat.eqb_spec i j) as [Eij|Hij].
  - exists s. rewrite !app_nil_r. split; [reflexivity|].
    repeat (split; [assumption|]). assumption.
  - unfold load.
    destruct (Nat.ltb_spec i MAX_PORTALS_PER_CHUNK); [|lia].
    destruct (Nat.ltb_spec j MAX_PORTALS_PER_CHUNK); [|lia].
    cbn [bind].
    assert (Mi : midpoint (portals (fst s) i) = midpoint (portals ch i))
      by (apply (edges_appended_midpoint Hcur)).
    assert (Mj : midpoint (portals (fst s) j) = midpoint (portals ch j)).
    { destruct (Nat.lt_ge_cases j i) as [Hlt|Hge].
      - apply (edges_appended_midpoint (Hdone j Hlt)).
      - rewrite Hrest by lia. reflexivity. }
    rewrite Mi, Mj, (@cost_field_ext ch (fst s) Cb).
    destruct (AStar_GridPath (midpoint (portals ch i))
                (midpoint (portals ch j)) (cost_field ch)) as [cost|] eqn:EA.
    + pose proof Hcur as (_ & _ & _ & _ & Hnn & _).
      pose proof (@found_edges_prefix self ch i (S j) (num_portals ch)
                    ltac:(lia)) as Hpre.
      rewrite found_edges_S, length_app in Hpre.
      unfold found_edges at 2 in Hpre. cbn [flat_map] in Hpre.
      destruct (Nat.eqb_spec i j) as [|_]; [contradiction|].
      rewrite EA in Hpre. cbn [length app] in Hpre.
      unfold store.
      destruct (Nat.ltb_spec (num_neighbours (portals (fst s) i))
                             (MAX_PORTALS_PER_CHUNK - 1)); [|lia].
      cbn [bind]. eexists. split; [reflexivity|].
      unfold set_portals. cbn [fst snd num_portals cost_base portals].
      split; [exact Np|]. split; [exact Cb|]. split.
      { intros k Hk. rewrite upd_other by lia. apply Hdone; exact Hk. }
      split.
      { rewrite upd_same. apply edges_appended_snoc; exact Hcur. }
      split.
      { intros k Hk. rewrite upd_other by lia. apply Hrest; exact Hk. }
      rewrite Hlog, <- app_assoc. reflexivity.
    + eexists. split; [reflexivity|]. cbn [fst snd]. rewrite app_nil_r.
      repeat (split; [assumption|]). rewrite Hlog, <- app_assoc. reflexivity.
Qed.

Lemma others_count (i a n : nat) :
  length (filter (fun j => negb (i =? j)) (seq a n))
  = n - (if (a <=? i) && (i <? a + n) then 1 else 0).
Proof.
  revert a. induction n as [|n IH]; intros a; [reflexivity|].
  cbn [seq filter]. specialize (IH (S a)).
  destruct (Nat.eqb_spec i a) as [->|Hne]; cbn [negb length].
  - rewrite IH.
    destruct (Nat.leb_spec (S a) a); [lia|].
    destruct (Nat.leb_spec a a); [|lia].
    destruct (Nat.ltb_spec a (a + S n)); [|lia]. cbn [andb]. lia.
  - rewrite IH.
    destruct (Nat.leb_spec (S a) i); destruct (Nat.leb_spec a i);
      destruct (Nat.ltb_spec i (S a + n));
      destruct (Nat.ltb_spec i (a + S n)); cbn [andb]; lia.
Qed.

Lemma found_edges_room (self : nat) (ch : nav_chunk) (i : nat) :
  i < num_portals ch ->
  num_neighbours (portals ch i) + num_portals ch <= MAX_PORTALS_PER_CHUNK ->
  num_neighbours (portals ch i)
    + length (found_edges self ch i (seq 0 (num_portals ch)))
  <= MAX_PORTALS_PER_CHUNK - 1.
Proof.
  intros Hi Hroom.
  pose proof (found_edges_length self ch i (seq 0 (num_portals ch))) as Hle.
  rewrite others_count in Hle.
  destruct (Nat.leb_spec 0 i); [|lia].
  destruct (Nat.ltb_spec i (0 + num_portals ch)); [|lia].
  cbn [andb] in Hle. lia.
Qed.

Lemma in_found_edges (self : nat) (ch : nav_chunk) (i j : nat) (w : float)
  (js : list nat) :
  In (mkedge (PortalAt self j) w) (found_edges self ch i js) <->
  In j js /\ j <> i /\
  AStar_GridPath (midpoint (portals ch i)) (midpoint (portals ch j))
                 (cost_field ch) = Some w.
Proof.
  unfold found_edges. rewrite in_flat_map. split.
  - intros (j' & Hj' & Hin).
    destruct (Nat.eqb_spec i j'); [contradiction|].
    destruct (AStar_GridPath _ _ _) as [cost|] eqn:EA; [|contradiction].
    destruct Hin as [E|[]]. injection E as <- <-. auto.
  - intros (Hj & Hne & EA). exists j. split; [exact Hj|].
    destruct (Nat.eqb_spec i j); [congruence|]. rewrite EA. left; reflexivity.
Qed.

Lemma in_pathfinder_calls (ch : nav_chunk) (i : nat) (js : list nat)
  (x y : coord) (g : list Z) :
  In (x, y, g) (pathfinder_calls ch i js) <->
  exists j, In j js /\ j <> i /\
            x = midpoint (portals ch i) /\ y = midpoint (portals ch j) /\
            g = cost_field ch.
Proof.
  unfold pathfinder_calls. rewrite in_flat_map. split.
  - intros (j & Hj & Hin). destruct (Nat.eqb_spec i j); [contradiction|].
    destruct Hin as [E|[]]. injection E as <- <- <-. exists j. auto.
  - intros (j & Hj & Hne & -> & -> & ->). exists j. split; [exact Hj|].
    destruct (Nat.eqb_spec i j); [congruence|]. left; reflexivity.
Qed.

(** The linker returns normally on a chunk whose portals have room for
    their edges, and leaves the chunk as [linker_inv] tells. *)
Lemma n_link_chunk_portals_spec (self : nat) (ch : nav_chunk) :
  num_portals ch <= MAX_PORTALS_PER_CHUNK ->
  (forall i, i < num_portals ch ->
     num_neighbours (portals ch i) + num_portals ch
     <= MAX_PORTALS_PER_CHUNK) ->
  exists s, n_link_chunk_portals self ch = Ok s /\
            linker_inv self ch (num_portals ch) s.
Proof.
  intros Hn Hroom. unfold n_link_chunk_portals.
  apply (@for_each_seq_total _ (linker_inv self ch)).
  - intros i s Hi (Np & Cb & Hdone & Hrest & Hlog). rewrite Np.
    destruct (@for_each_seq_total _ (linker_row_inv self ch i)
                (fun j s' => link_portals_step self i j s') (num_portals ch))
      with (s := s) as (s' & E & Np' & Cb' & Hdone' & Hcur' & Hrest' & Hlog').
    + intros j s1 Hj Hinv. apply link_portals_step_spec; try assumption.
      apply found_edges_room; [exact Hi|apply Hroom; exact Hi].
    + split; [exact Np|]. split; [exact Cb|]. split; [exact Hdone|].
      split; [rewrite Hrest by lia; apply edges_appended_refl|].
      split; [intros k Hk; apply Hrest; lia|].
      cbn [seq pathfinder_calls flat_map]. rewrite app_nil_r. exact Hlog.
    + exists s'. split; [exact E|].
      split; [exact Np'|]. split; [exact Cb'|]. split.
      { intros k Hk. destruct (Nat.eq_dec k i) as [->|Hne];
          [exact Hcur'|apply Hdone'; lia]. }
      split; [intros k Hk; apply Hrest'; lia|].
      change (1 + i) with (S i).
      rewrite seq_S, flat_map_app. cbn [flat_map]. rewrite app_nil_r.
      exact Hlog'.
  - split; [reflexivity|]. split; [reflexivity|].
    split; [intros k Hk; lia|]. split; [reflexivity|reflexivity].
Qed.

Lemma int_wrap_fits (x : Z) :
  (-2147483648 <= x <= 2147483647)%Z -> int_wrap x = x.
Proof.
  intros Hx. unfold int_wrap.
  rewrite Z.mod_small by lia. lia.
Qed.

(** As long as the sums of the endpoints do not overflow, the cell the
    linker computes is the midpoint of the specification. *)
Lemma midpoint_spec (p : portal) :
  sums_fit_int p -> midpoint p = spec_midpoint p.
Proof.
  intros [Hr Hc]. unfold midpoint, spec_midpoint.
  rewrite !int_wrap_fits by assumption. reflexivity.
Qed.

Lemma cost_field_grid (ch : nav_chunk) : is_cost_grid ch (cost_field ch).
Proof.
  unfold is_cost_grid, cost_field. split; [rewrite length_map; apply length_seq|].
  intros row col Hrow Hcol.
  assert (Hoff : row * FIELD_RES_C + col < FIELD_RES_R * FIELD_RES_C).
  { unfold FIELD_RES_R, FIELD_RES_C in *. nia. }
  rewrite nth_error_map, nth_error_seq.
  apply Nat.ltb_lt in Hoff. rewrite Hoff. reflexivity.
Qed.

(** A chunk has one cost grid. *)
Lemma is_cost_grid_unique (ch : nav_chunk) (g : list Z) :
  is_cost_grid ch g -> g = cost_field ch.
Proof.
  intros [Hlen Hcells].
  destruct (cost_field_grid ch) as [Hlen' Hcells'].
  apply nth_error_ext. intros off.
  destruct (Nat.lt_ge_cases off (FIELD_RES_R * FIELD_RES_C)) as [Hoff|Hoff].
  - assert (E : off = off / FIELD_RES_C * FIELD_RES_C + off mod FIELD_RES_C).
    { pose proof (Nat.div_mod_eq off FIELD_RES_C). lia. }
    assert (Hrow : off / FIELD_RES_C < FIELD_RES_R).
    { apply Nat.Div0.div_lt_upper_bound. unfold FIELD_RES_R, FIELD_RES_C in *.
      lia. }
    assert (Hcol : off mod FIELD_RES_C < FIELD_RES_C)
      by (apply Nat.mod_upper_bound; discriminate).
    rewrite E, Hcells, Hcells' by assumption. reflexivity.
  - rewrite (proj2 (nth_error_None g off)) by lia.
    rewrite (proj2 (nth_error_None (cost_field ch) off)) by lia.
    reflexivity.
Qed.

Lemma found_edges_as_spec (self : nat) (ch : nav_chunk) (i : nat) :
  (forall k, k < num_portals ch -> sums_fit_int (portals ch k)) ->
  i < num_portals ch ->
  found_edges self ch i (seq 0 (num_portals ch))
  = spec_edges self ch (cost_field ch) i.
Proof.
  intros Hfit Hi. unfold found_edges, spec_edges.
  rewrite !flat_map_concat_map. f_equal. apply map_ext_in.
  intros j Hj. apply in_seq in Hj.
  rewrite !midpoint_spec by (apply Hfit; lia). reflexivity.
Qed.

Lemma pathfinder_calls_as_spec (ch : nav_chunk) :
  (forall k, k < num_portals ch -> sums_fit_int (portals ch k)) ->
  map fst (flat_map (fun i => pathfinder_calls ch i (seq 0 (num_portals ch)))
                    (seq 0 (num_portals ch)))
  = spec_pairs ch.
Proof.
  intros Hfit. unfold spec_pairs, pathfinder_calls.
  rewrite !flat_map_concat_map, concat_map, map_map. f_equal.
  apply map_ext_in. intros i Hi. apply in_seq in Hi.
  rewrite !flat_map_concat_map, concat_map, map_map. f_equal.
  apply map_ext_in. intros j Hj. apply in_seq in Hj.
  destruct (i =? j); [reflexivity|]. cbn [map fst].
  rewrite !midpoint_spec by (apply Hfit; lia). reflexivity.
Qed.

Lemma in_spec_edges (self : nat) (ch : nav_chunk) (g : list Z) (i j : nat)
  (w : float) :
  In (mkedge (PortalAt self j) w) (spec_edges self ch g i) <->
  j < num_portals ch /\ j <> i /\
  AStar_GridPath (spec_midpoint (portals ch i)) (spec_midpoint (portals ch j))
                 g = Some w.
Proof.
  unfold spec_edges. rewrite in_flat_map. split.
  - intros (j' & Hj' & Hin). apply in_seq in Hj'.
    destruct (Nat.eqb_spec i j'); [contradiction|].
    destruct (AStar_GridPath _ _ _) as [cost|] eqn:EA; [|contradiction].
    destruct Hin as [E|[]]. injection E as <- <-.
    split; [lia|]. split; [auto|exact EA].
  - intros (Hj & Hne & EA). exists j. split; [apply in_seq; lia|].
    destruct (Nat.eqb_spec i j); [congruence|]. rewrite EA. left; reflexivity.
Qed.

(** C8.  On a chunk with at most MAX_PORTALS_PER_CHUNK portals, each with
    room left for an edge to every other one and with endpoints whose sums
    are values of an [int], the portal linker returns normally.  It calls
    the pathfinder once for every ordered pair (i, j) of distinct portals,
    i outermost, and never for a pair (i, i); every call goes from the
    midpoint of i to the midpoint of j, the componentwise integer average
    of the two endpoints, and is handed the cost grid of the chunk.  The
    edges it appends to portal i are, in the order of j, one edge to portal
    j with the returned cost for every j to which the pathfinder reports a
    path on that grid, and none for the others. *)
Theorem linker_edges_for_every_ordered_pair (self : nat) (ch : nav_chunk) :
  num_portals ch <= MAX_PORTALS_PER_CHUNK ->
  (forall i, i < num_portals ch ->
     num_neighbours (portals ch i) + num_portals ch
     <= MAX_PORTALS_PER_CHUNK) ->
  (forall i, i < num_portals ch -> sums_fit_int (portals ch i)) ->
  exists ch' calls,
    n_link_chunk_portals self ch = Ok (ch', calls) /\
    map fst calls = spec_pairs ch /\
    (forall x y g, In (x, y, g) calls <->
       is_cost_grid ch g /\
       exists i j, i < num_portals ch /\ j < num_portals ch /\ j <> i /\
         x = mkcoord (Z.quot (r (endpoints0 (portals ch i))
                              + r (endpoints1 (portals ch i))) 2)
                     (Z.quot (c (endpoints0 (portals ch i))
                              + c (endpoints1 (portals ch i))) 2) /\
         y = mkcoord (Z.quot (r (endpoints0 (portals ch j))
                              + r (endpoints1 (portals ch j))) 2)
                     (Z.quot (c (endpoints0 (portals ch j))
                              + c (endpoints1 (portals ch j))) 2)) /\
    (forall g, is_cost_grid ch g ->
     forall i, i < num_portals ch ->
       edges_appended (portals ch i) (portals ch' i) (spec_edges self ch g i) /\
       forall j w,
         In (mkedge (PortalAt self j) w) (spec_edges self ch g i) <->
         j < num_portals ch /\ j <> i /\
         AStar_GridPath (spec_midpoint (portals ch i))
                        (spec_midpoint (portals ch j)) g = Some w).
Proof.
  intros Hn Hroom Hfit.
  destruct (n_link_chunk_portals_spec self ch Hn Hroom)
    as ([ch' calls] & E & _ & _ & Hdone & _ & Hlog).
  cbn [fst snd] in *. exists ch', calls.
  split; [exact E|]. split; [|split].
  - rewrite Hlog. apply pathfinder_calls_as_spec. exact Hfit.
  - intros x y g. rewrite Hlog, in_flat_map. split.
    + intros (i & Hi & Hin). apply in_seq in Hi.
      apply in_pathfinder_calls in Hin.
      destruct Hin as (j & Hj & Hne & -> & -> & ->). apply in_seq in Hj.
      split; [apply cost_field_grid|].
      exists i, j. rewrite !midpoint_spec by (apply Hfit; lia).
      repeat split; [lia|lia|exact Hne].
    + intros (Hg & i & j & Hi & Hj & Hne & -> & ->). exists i.
      split; [apply in_seq; lia|]. apply in_pathfinder_calls.
      exists j. rewrite !midpoint_spec by (apply Hfit; lia).
      rewrite (is_cost_grid_unique Hg).
      repeat split; [apply in_seq; lia|exact Hne].
  - intros g Hg i Hi. rewrite (is_cost_grid_unique Hg).
    rewrite <- found_edges_as_spec by assumption.
    split; [apply Hdone; exact Hi|].
    intros j w. rewrite found_edges_as_spec by assumption.
    apply in_spec_edges.
Qed.

(** ** Debug overlay *)

(** A loop whose every iteration appends the quads [g x] to the buffer. *)
Lemma for_each_emit (Ix : Type) (l : list Ix) (g : Ix -> list quad)
  (body : Ix -> list quad -> result (list quad)) (cap : nat) :
  (forall x buf, In x l -> length buf + length (g x) <= cap ->
     body x buf = Ok (buf ++ g x)) ->
  forall buf0, length buf0 + length (flat_map g l) <= cap ->
    for_each l body buf0 = Ok (buf0 ++ flat_map g l).
Proof.
  induction l as [|x l IH]; intros Hbody buf0 Hcap; cbn [for_each flat_map].
  - rewrite app_nil_r. reflexivity.
  - cbn [flat_map] in Hcap. rewrite length_app in Hcap.
    rewrite Hbody by (try (left; reflexivity); lia). cbn [bind].
    rewrite IH.
    + rewrite app_assoc. reflexivity.
    + intros y buf Hy. apply Hbody. right; exact Hy.
    + rewrite length_app. lia.
Qed.

Lemma for_each_push (Ix : Type) (l : list Ix) (q : Ix -> quad) (cap : nat)
  (buf0 : list quad) :
  length buf0 + length l <= cap ->
  for_each l (fun x buf => push_quad cap buf (q x)) buf0
  = Ok (buf0 ++ map q l).
Proof.
  intros Hcap.
  rewrite (@for_each_emit Ix l (fun x => [q x]) _ cap).
  - assert (E : flat_map (fun x => [q x]) l = map q l).
    { clear. induction l as [|x l IH]; [reflexivity|].
      cbn [flat_map map app]. rewrite IH. reflexivity. }
    rewrite E. reflexivity.
  - intros x buf _ Hlen. unfold push_quad. cbn [length] in Hlen.
    destruct (Nat.ltb_spec (length buf) cap); [reflexivity|lia].
  - rewrite (@flat_map_constant_length _ _ 1) by reflexivity. lia.
Qed.

Lemma length_cell_quads (ch : nav_chunk) :
  length (cell_quads ch) = FIELD_RES_R * FIELD_RES_C.
Proof.
  unfold cell_quads.
  rewrite (@flat_map_constant_length _ _ FIELD_RES_C).
  - rewrite length_seq. reflexivity.
  - intros row _. rewrite length_map, length_seq. reflexivity.
Qed.

Lemma render_cells_spec (ch : nav_chunk) :
  render_cells ch = Ok (cell_quads ch).
Proof.
  unfold render_cells.
  rewrite (@for_each_emit nat (seq 0 FIELD_RES_R)
    (fun row => map (fun col =>
       mkquad (mkcoord (Z.of_nat row) (Z.of_nat col))
              (if (cost_base ch (cell_off row col) =? COST_IMPASSABLE)%Z
               then red else green)) (seq 0 FIELD_RES_C))
    _ (FIELD_RES_R * FIELD_RES_C)).
  - reflexivity.
  - intros row buf Hrow Hlen. apply in_seq in Hrow.
    rewrite length_map, length_seq in Hlen.
    assert (G : forall l buf1,
      (forall col, In col l -> col < FIELD_RES_C) ->
      for_each l (fun col buf1 =>
        cell <- load (FIELD_RES_R * FIELD_RES_C) (cost_base ch)
                  (cell_off row col) ;;
        push_quad (FIELD_RES_R * FIELD_RES_C) buf1
          (mkquad (mkcoord (Z.of_nat row) (Z.of_nat col))
                  (if (cell =? COST_IMPASSABLE)%Z then red else green))) buf1
      = for_each l (fun col buf1 =>
        push_quad (FIELD_RES_R * FIELD_RES_C) buf1
          (mkquad (mkcoord (Z.of_nat row) (Z.of_nat col))
                  (if (cost_base ch (cell_off row col) =? COST_IMPASSABLE)%Z
                   then red else green))) buf1).
    { induction l as [|col l IH]; intros buf1 Hl; [reflexivity|].
      cbn [for_each]. unfold load at 1.
      assert (Hoff : cell_off row col < FIELD_RES_R * FIELD_RES_C).
      { specialize (Hl col (or_introl eq_refl)).
        unfold cell_off, FIELD_RES_R, FIELD_RES_C in *. lia. }
      destruct (Nat.ltb_spec (cell_off row col) (FIELD_RES_R * FIELD_RES_C));
        [|lia].
      cbn [bind]. destruct (push_quad _ buf1 _); cbn [bind]; try reflexivity.
      apply IH. intros c' Hc'. apply Hl. right; exact Hc'. }
    rewrite G by (intros col Hcol; apply in_seq in Hcol; lia).
    apply (@for_each_push nat (seq 0 FIELD_RES_C)
             (fun col => mkquad (mkcoord (Z.of_nat row) (Z.of_nat col))
                (if (cost_base ch (cell_off row col) =? COST_IMPASSABLE)%Z
                 then red else green))).
    rewrite length_seq. exact Hlen.
  - cbn [length]. fold (cell_quads ch). rewrite length_cell_quads. lia.
Qed.

Lemma n_render_portals_spec (ch : nav_chunk) :
  num_portals ch <= MAX_PORTALS_PER_CHUNK ->
  length (portal_quads ch) <= 2 * FIELD_RES_C + 2 * FIELD_RES_R ->
  n_render_portals ch = Ok (portal_quads ch).
Proof.
  intros Hn Hcap. unfold n_render_portals.
  rewrite (@for_each_emit nat (seq 0 (num_portals ch))
    (fun i => portal_span_quads (portals ch i)) _
    (2 * FIELD_RES_C + 2 * FIELD_RES_R)).
  - reflexivity.
  - intros i buf Hi Hlen. apply in_seq in Hi. unfold load.
    destruct (Nat.ltb_spec i MAX_PORTALS_PER_CHUNK); [|lia]. cbn [bind].
    unfold portal_span_quads in *.
    apply (@for_each_emit Z _ _ _ (2 * FIELD_RES_C + 2 * FIELD_RES_R));
      [|exact Hlen].
    intros row buf1 _ Hlen1. rewrite length_map in Hlen1.
    apply (@for_each_push Z _ (fun col => mkquad (mkcoord row col) yellow)).
    exact Hlen1.
  - cbn [length]. exact Hcap.
Qed.

Lemma in_int_range (lo hi x : Z) :
  In x (int_range lo hi) <-> (lo <= x <= hi)%Z.
Proof.
  unfold int_range. rewrite in_map_iff. split.
  - intros (k & <- & Hk). apply in_seq in Hk. lia.
  - intros Hx. exists (Z.to_nat (x - lo)). split; [lia|].
    apply in_seq. lia.
Qed.

Lemma in_cell_quads (ch : nav_chunk) (q : quad) :
  In q (cell_quads ch) <->
  exists row col, row < FIELD_RES_R /\ col < FIELD_RES_C /\
    q = mkquad (mkcoord (Z.of_nat row) (Z.of_nat col))
               (if (cost_base ch (cell_off row col) =? COST_IMPASSABLE)%Z
                then red else green).
Proof.
  unfold cell_quads. rewrite in_flat_map. split.
  - intros (row & Hrow & Hin). apply in_map_iff in Hin.
    destruct Hin as (col & <- & Hcol). apply in_seq in Hrow, Hcol.
    exists row, col. repeat split; lia.
  - intros (row & col & Hrow & Hcol & ->). exists row.
    split; [apply in_seq; lia|]. apply in_map_iff. exists col.
    split; [reflexivity|apply in_seq; lia].
Qed.

Lemma in_portal_quads (ch : nav_chunk) (q : quad) :
  In q (portal_quads ch) <->
  exists i, i < num_portals ch /\ quad_color q = yellow /\
    in_span (portals ch i) (r (quad_cell q)) (c (quad_cell q)).
Proof.
  unfold portal_quads, portal_span_quads, in_span. rewrite in_flat_map. split.
  - intros (i & Hi & Hin). apply in_seq in Hi. apply in_flat_map in Hin.
    destruct Hin as (row & Hrow & Hin). apply in_map_iff in Hin.
    destruct Hin as (col & <- & Hcol). apply in_int_range in Hrow, Hcol.
    exists i. cbn [quad_color quad_cell r c]. repeat split; lia.
  - intros (i & Hi & Hcol & Hr & Hc). exists i.
    split; [apply in_seq; lia|]. apply in_flat_map.
    exists (r (quad_cell q)). split; [apply in_int_range; exact Hr|].
    apply in_map_iff. exists (c (quad_cell q)).
    split; [|apply in_int_range; exact Hc].
    destruct q as [[qr qc] col]. cbn in *. subst col. reflexivity.
Qed.

Lemma NoDup_map_injective (A B : Type) (f : A -> B) (l : list A) :
  (forall x y, f x = f y -> x = y) -> NoDup l -> NoDup (map f l).
Proof.
  intros Hinj Hnd. induction Hnd as [|x l Hx Hnd IH]; cbn [map]; constructor.
  - intros Hin. apply in_map_iff in Hin. destruct Hin as (y & E & Hy).
    apply Hinj in E. subst y. contradiction.
  - exact IH.
Qed.

Lemma cell_quads_distinct (ch : nav_chunk) :
  NoDup (map quad_cell (cell_quads ch)).
Proof.
  unfold cell_quads. apply NoDup_map_flat_map_seq.
  - intros row. rewrite map_map. cbn [quad_cell].
    apply NoDup_map_injective; [|apply seq_NoDup].
    intros x y E. injection E as E. lia.
  - intros i j x y _ _ Hx Hy E.
    apply in_map_iff in Hx, Hy.
    destruct Hx as (cx & <- & _). destruct Hy as (cy & <- & _).
    cbn [quad_cell] in E. injection E as E _. lia.
Qed.

(** C10, as the code has it.  For a chunk of the map with at most
    MAX_PORTALS_PER_CHUNK portals whose spans fit the portal buffer, the
    overlay hands two batches to the renderer: first the yellow quads, one
    for every cell of the span of every recorded portal, and after them
    the FIELD_RES_R * FIELD_RES_C cell quads, one per cost cell, red on an
    impassable cell and green on any other. *)
Theorem overlay_portal_batch_then_cell_batch (priv : nav_private)
  (chunk_r chunk_c : Z) :
  (0 <= chunk_r < Z.of_nat (height priv))%Z ->
  (0 <= chunk_c < Z.of_nat (width priv))%Z ->
  let ch := chunks priv (CHUNK_IDX (Z.to_nat chunk_r) (width priv)
                                   (Z.to_nat chunk_c)) in
  num_portals ch <= MAX_PORTALS_PER_CHUNK ->
  length (portal_quads ch) <= 2 * FIELD_RES_C + 2 * FIELD_RES_R ->
  N_RenderPathableChunk priv chunk_r chunk_c
  = Ok [portal_quads ch; cell_quads ch] /\
  length (cell_quads ch) = FIELD_RES_R * FIELD_RES_C /\
  NoDup (map quad_cell (cell_quads ch)) /\
  (forall q, In q (cell_quads ch) <->
     exists row col, row < FIELD_RES_R /\ col < FIELD_RES_C /\
       q = mkquad (mkcoord (Z.of_nat row) (Z.of_nat col))
                  (if (cost_base ch (cell_off row col) =? COST_IMPASSABLE)%Z
                   then red else green)) /\
  (forall q, In q (portal_quads ch) <->
     exists i, i < num_portals ch /\ quad_color q = yellow /\
       in_span (portals ch i) (r (quad_cell q)) (c (quad_cell q))).
Proof.
  intros Hr Hc ch Hn Hcap.
  split; [|split; [apply length_cell_quads|split; [apply cell_quads_distinct|
           split; [apply in_cell_quads|apply in_portal_quads]]]].
  unfold N_RenderPathableChunk, assert.
  destruct (Z.leb_spec 0 chunk_r); [|lia].
  destruct (Z.ltb_spec chunk_r (Z.of_nat (height priv))); [|lia].
  destruct (Z.leb_spec 0 chunk_c); [|lia].
  destruct (Z.ltb_spec chunk_c (Z.of_nat (width priv))); [|lia].
  cbn [andb bind]. fold ch.
  rewrite (@n_render_portals_spec ch Hn Hcap), render_cells_spec. cbn [bind].
  rewrite length_cell_quads, Nat.eqb_refl. reflexivity.
Qed.

(** ** Two runs on the same navigation data *)

Lemma result_rel_bind (A B A' B' : Type) (R : A -> B -> Prop)
  (S : A' -> B' -> Prop) (m1 : result A) (m2 : result B)
  (k1 : A -> result A') (k2 : B -> result B') :
  result_rel R m1 m2 ->
  (forall x y, R x y -> result_rel S (k1 x) (k2 y)) ->
  result_rel S (bind m1 k1) (bind m2 k2).
Proof.
  intros Hm Hk. destruct Hm; cbn [bind]; try constructor. apply Hk; assumption.
Qed.

Lemma result_rel_weaken (A B : Type) (R R' : A -> B -> Prop)
  (m1 : result A) (m2 : result B) :
  (forall x y, R x y -> R' x y) -> result_rel R m1 m2 -> result_rel R' m1 m2.
Proof. intros HR Hm. destruct Hm; constructor. apply HR; assumption. Qed.

Lemma result_rel_eq (A : Type) (m : result A) : result_rel eq m m.
Proof. destruct m; constructor. reflexivity. Qed.

Lemma for_each_rel (Ix S1 S2 : Type) (R : S1 -> S2 -> Prop) (l : list Ix)
  (body1 : Ix -> S1 -> result S1) (body2 : Ix -> S2 -> result S2) :
  (forall x s1 s2, In x l -> R s1 s2 ->
     result_rel R (body1 x s1) (body2 x s2)) ->
  forall s1 s2, R s1 s2 ->
    result_rel R (for_each l body1 s1) (for_each l body2 s2).
Proof.
  induction l as [|x l IH]; intros Hbody s1 s2 Hs; cbn [for_each].
  - constructor. exact Hs.
  - apply (@result_rel_bind _ _ _ _ R R).
    + apply Hbody; [left; reflexivity|exact Hs].
    + intros t1 t2 Ht. apply IH; [|exact Ht].
      intros y u1 u2 Hy. apply Hbody. right; exact Hy.
Qed.

Lemma chunk_eqv_refl (ch : nav_chunk) : chunk_eqv ch ch.
Proof. repeat split. Qed.



Lemma scan_ext (mask1 mask2 : nat -> bool) (L n : nat) :
  (forall i, i < n -> mask1 i = mask2 i) -> scan mask1 L n = scan mask2 L n.
Proof.
  induction n as [|n IH]; intros Hm; [reflexivity|].
  rewrite !scan_S, IH by (intros i Hi; apply Hm; lia).
  unfold scan_step. rewrite (Hm n) by lia. reflexivity.
Qed.

Lemma crossable_eqv (a1 a2 b1 b2 : nav_chunk) (ta tb : edge_type) (i : nat) :
  chunk_eqv a1 a2 -> chunk_eqv b1 b2 -> i < 64 ->
  crossable a1 ta b1 tb i = crossable a2 ta b2 tb i.
Proof.
  intros (_ & _ & Ca) (_ & _ & Cb) Hi. unfold crossable, passable.
  rewrite Ca, Cb by (apply edge_off_bound; exact Hi). reflexivity.
Qed.

Lemma linked_eqv (a1 a2 : nav_chunk) (t : edge_type) (co : coord)
  (b_ptr nb : nat) (rs : list (nat * nat)) (a1' a2' : nav_chunk) :
  chunk_eqv a1 a2 ->
  linked a1 t co b_ptr nb rs a1' -> linked a2 t co b_ptr nb rs a2' ->
  chunk_eqv a1' a2'.
Proof.
  intros (Hn & Hp & Hc) L1 L2.
  pose proof L1 as (C1 & N1 & P1 & _). pose proof L2 as (C2 & N2 & P2 & _).
  split; [lia|]. split.
  - intros k Hk.
    destruct (Nat.lt_ge_cases k (num_portals a1)) as [Hold|Hnew].
    + rewrite P1, P2 by lia. apply Hp; exact Hold.
    + destruct (@linked_new_slot a1 t co b_ptr nb rs a1' k L1 ltac:(lia))
        as (j & i0 & i1 & Ek & Ej & ->).
      destruct (@linked_new_slot a2 t co b_ptr nb rs a2' k L2 ltac:(lia))
        as (j' & i0' & i1' & Ek' & Ej' & ->).
      assert (j' = j) by lia. subst j'. rewrite Ej in Ej'.
      injection Ej' as <- <-. reflexivity.
  - intros off Hoff. rewrite C1, C2. apply Hc; exact Hoff.
Qed.

Lemma n_link_chunks_eqv (a1 a2 b1 b2 : nav_chunk) (a_ptr b_ptr : nat)
  (a_type b_type : edge_type) (a_coord b_coord : coord) :
  same_orientation a_type b_type ->
  chunk_eqv a1 a2 -> chunk_eqv b1 b2 ->
  result_rel (fun x y => chunk_eqv (fst x) (fst y) /\ chunk_eqv (snd x) (snd y))
    (n_link_chunks a1 a_ptr a_type a_coord b1 b_ptr b_type b_coord)
    (n_link_chunks a2 a_ptr a_type a_coord b2 b_ptr b_type b_coord).
Proof.
  intros Horient Ha Hb.
  assert (Hscan : scan (crossable a1 a_type b1 b_type) 64 64
                  = scan (crossable a2 a_type b2 b_type) 64 64).
  { apply scan_ext. intros i Hi. apply crossable_eqv; assumption. }
  pose proof Ha as (Na & _). pose proof Hb as (Nb & _).
  destruct (Nat.le_gt_cases a_ptr b_ptr) as [Hptr|Hgt];
    [|rewrite !n_link_chunks_stored_after by exact Hgt; constructor].
  destruct (@n_link_chunks_spec a1 a_ptr a_type a_coord b1 b_ptr b_type
              b_coord Horient Hptr)
    as [(K1 & a1' & b1' & E1 & La1 & Lb1)|(K1 & E1)];
  destruct (@n_link_chunks_spec a2 a_ptr a_type a_coord b2 b_ptr b_type
              b_coord Horient Hptr)
    as [(K2 & a2' & b2' & E2 & La2 & Lb2)|(K2 & E2)];
    rewrite E1, E2; rewrite <- Hscan, <- Na, <- Nb in *;
    try (constructor); try congruence.
  cbn [fst snd]. split.
  - apply (linked_eqv Ha La1 La2).
  - apply (linked_eqv Hb Lb1 Lb2).
Qed.

Lemma store_eqv_upd (n : nat) (chs1 chs2 : nat -> nav_chunk) (k : nat)
  (c1 c2 : nav_chunk) :
  store_eqv n chs1 chs2 -> chunk_eqv c1 c2 ->
  store_eqv n (upd chs1 k c1) (upd chs2 k c2).
Proof.
  intros Hs Hc idx Hidx. unfold upd.
  destruct (idx =? k); [exact Hc|apply Hs; exact Hidx].
Qed.

Lemma run_link_call_eqv (w h : nat) (lc : link_call)
  (chs1 chs2 : nat -> nav_chunk) :
  call_ok w h lc -> store_eqv (h * w) chs1 chs2 ->
  result_rel (store_eqv (h * w)) (run_link_call lc chs1)
             (run_link_call lc chs2).
Proof.
  intros (Hia & Hib & _ & Ht & _) Hs. unfold run_link_call, link_in_store.
  eapply result_rel_bind.
  - apply n_link_chunks_eqv.
    + rewrite Ht. apply opposite_orientation.
    + apply Hs; exact Hia.
    + apply Hs; exact Hib.
  - intros x y [Hx Hy]. constructor.
    apply store_eqv_upd; [apply store_eqv_upd|]; assumption.
Qed.

Lemma n_create_portals_eqv (w h : nat) (chs1 chs2 : nat -> nav_chunk) :
  store_eqv (h * w) chs1 chs2 ->
  result_rel nav_eqv (n_create_portals (mkpriv w h chs1))
             (n_create_portals (mkpriv w h chs2)).
Proof.
  intros Hs. unfold n_create_portals. cbn [width height chunks].
  rewrite !create_portals_loops_schedule.
  assert (Hloop : result_rel (store_eqv (h * w))
            (for_each (link_calls w h) run_link_call chs1)
            (for_each (link_calls w h) run_link_call chs2)).
  { apply for_each_rel; [|exact Hs].
    intros lc s1 s2 Hin Hs12. apply run_link_call_eqv; [|exact Hs12].
    apply link_calls_ok; exact Hin. }
  destruct Hloop as [x y Hxy| | |]; cbn [bind fst snd]; try constructor.
  destruct (assert _); cbn [bind]; constructor.
  split; [reflexivity|]. split; [reflexivity|]. exact Hxy.
Qed.

Lemma cost_field_eqv (c1 c2 : nav_chunk) :
  chunk_eqv c1 c2 -> cost_field c1 = cost_field c2.
Proof.
  intros (_ & _ & Hc). unfold cost_field. apply map_ext_in.
  intros off Hoff. apply in_seq in Hoff. apply Hc. lia.
Qed.

Lemma link_portals_step_eqv (self n i j : nat)
  (s1 s2 : nav_chunk * list (coord * coord * list Z)) :
  i < n -> j < n ->
  chunk_eqv (fst s1) (fst s2) /\ snd s1 = snd s2 /\ num_portals (fst s1) = n ->
  result_rel (fun x y => chunk_eqv (fst x) (fst y) /\ snd x = snd y /\
                         num_portals (fst x) = n)
    (link_portals_step self i j s1) (link_portals_step self i j s2).
Proof.
  intros Hi Hj (He & Hl & Hn). unfold link_portals_step.
  destruct (i =? j); [constructor; auto|].
  pose proof He as (Np & Pp & Cp).
  unfold load. destruct (i <? MAX_PORTALS_PER_CHUNK); [|constructor].
  destruct (j <? MAX_PORTALS_PER_CHUNK); [|constructor]. cbn [bind].
  rewrite <- (Pp i), <- (Pp j), <- (cost_field_eqv He), <- Hl by lia.
  destruct (AStar_GridPath _ _ _) as [cost|].
  - unfold store. destruct (_ <? _); cbn [bind]; constructor.
    cbn [fst snd]. unfold set_portals. cbn [num_portals]. split; [|auto].
    split; [cbn [num_portals]; exact Np|]. cbn [portals cost_base num_portals].
    split; [|exact Cp].
    intros k Hk. unfold upd. destruct (k =? i); [reflexivity|].
    apply Pp; exact Hk.
  - constructor. cbn [fst snd]. auto.
Qed.

Lemma n_link_chunk_portals_eqv (self : nat) (c1 c2 : nav_chunk) :
  chunk_eqv c1 c2 ->
  result_rel (fun x y => chunk_eqv (fst x) (fst y) /\ snd x = snd y)
    (n_link_chunk_portals self c1) (n_link_chunk_portals self c2).
Proof.
  intros He. pose proof He as (Np & _). unfold n_link_chunk_portals.
  rewrite <- Np.
  apply (@result_rel_weaken _ _
           (fun x y => chunk_eqv (fst x) (fst y) /\ snd x = snd y /\
                       num_portals (fst x) = num_portals c1));
    [intros x y (H1 & H2 & _); auto|].
  apply for_each_rel; [|cbn [fst snd]; auto].
  intros i s1 s2 Hin (He' & Hl & Hn). apply in_seq in Hin.
  pose proof He' as (Np' & _). rewrite <- Np', Hn.
  apply for_each_rel; [|auto].
  intros j t1 t2 Hj Ht. apply in_seq in Hj.
  apply link_portals_step_eqv; [lia|lia|exact Ht].
Qed.

Lemma link_all_chunk_portals_eqv (w h : nat) (chs1 chs2 : nat -> nav_chunk) :
  store_eqv (h * w) chs1 chs2 ->
  result_rel (store_eqv (h * w)) (link_all_chunk_portals w h chs1)
             (link_all_chunk_portals w h chs2).
Proof.
  intros Hs. unfold link_all_chunk_portals.
  apply for_each_rel; [|exact Hs].
  intros cr s1 s2 Hr Hs12. apply in_seq in Hr.
  apply for_each_rel; [|exact Hs12].
  intros cc t1 t2 Hc Ht. apply in_seq in Hc.
  eapply result_rel_bind.
  - apply n_link_chunk_portals_eqv. apply Ht. apply chunk_idx_bound; lia.
  - intros x y [Hx _]. constructor. apply store_eqv_upd; assumption.
Qed.

Lemma discover_and_link_eqv (w h : nat) (chs1 chs2 : nat -> nav_chunk) :
  store_eqv (h * w) chs1 chs2 ->
  result_rel handle_eqv (discover_and_link w h chs1)
             (discover_and_link w h chs2).
Proof.
  intros Hs. unfold discover_and_link.
  eapply result_rel_bind; [apply n_create_portals_eqv; exact Hs|].
  intros p1 p2 (Hw & Hh & Hc). rewrite <- Hw, <- Hh.
  eapply result_rel_bind; [apply link_all_chunk_portals_eqv; exact Hc|].
  intros x y Hxy. constructor. cbn [handle_eqv].
  split; [reflexivity|]. split; [reflexivity|]. exact Hxy.
Qed.

(** ** The cost fields of a whole map *)

Lemma block_index (f t x : nat) :
  0 < f -> (t * f <= x < t * f + f <-> x / f = t).
Proof.
  intros Hf. split.
  - intros Hx. symmetry. apply Nat.div_unique with (x - t * f); lia.
  - intros <-. pose proof (Nat.div_mod_eq x f).
    pose proof (Nat.mod_upper_bound x f ltac:(lia)). nia.
Qed.

Lemma build_cost_field_spec (chunk_w chunk_h : nat) (tiles : nat -> tile)
  (ch : nav_chunk) :
  0 < chunk_w <= FIELD_RES_C -> 0 < chunk_h <= FIELD_RES_R ->
  exists ch',
    build_cost_field chunk_w chunk_h tiles ch = Ok ch' /\
    num_portals ch' = 0 /\
    portals ch' = portals ch /\
    forall off,
      off / FIELD_RES_C / (FIELD_RES_R / chunk_h) < chunk_h ->
      off mod FIELD_RES_C / (FIELD_RES_C / chunk_w) < chunk_w ->
      cost_base ch' off = built_cost chunk_w chunk_h tiles off.
Proof.
  intros Hw Hh. unfold build_cost_field.
  set (fr := FIELD_RES_R / chunk_h). set (fc := FIELD_RES_C / chunk_w).
  assert (Hfr : 0 < fr) by (apply Nat.div_str_pos; lia).
  assert (Hfc : 0 < fc) by (apply Nat.div_str_pos; lia).
  pose (Irow := fun (i : nat) (s : nav_chunk) =>
    num_portals s = 0 /\ portals s = portals ch /\
    forall off, off / FIELD_RES_C / fr < i ->
      off mod FIELD_RES_C / fc < chunk_w ->
      cost_base s off = built_cost chunk_w chunk_h tiles off).
  destruct (@for_each_seq_total nav_chunk Irow
    (fun tile_r ch1 => for_each (seq 0 chunk_w) (fun tile_c ch2 =>
       n_set_cost_for_tile ch2 chunk_w chunk_h tile_r tile_c
         (tiles (tile_r * chunk_w + tile_c))) ch1) chunk_h)
    with (s := set_num_portals ch 0) as (ch' & E & Np & Pp & Hcells).
  - intros i s Hi (Np & Pp & Hs).
    pose (Icol := fun (j : nat) (s2 : nav_chunk) =>
      num_portals s2 = 0 /\ portals s2 = portals ch /\
      forall off,
        off / FIELD_RES_C / fr < i \/
        (off / FIELD_RES_C / fr = i /\ off mod FIELD_RES_C / fc < j) ->
        off mod FIELD_RES_C / fc < chunk_w ->
        cost_base s2 off = built_cost chunk_w chunk_h tiles off).
    destruct (@for_each_seq_total nav_chunk Icol
      (fun tile_c ch2 => n_set_cost_for_tile ch2 chunk_w chunk_h i tile_c
                           (tiles (i * chunk_w + tile_c))) chunk_w)
      with (s := s) as (s' & E & Np' & Pp' & Hs').
    + intros j s2 Hj (Np2 & Pp2 & Hs2).
      destruct (@n_set_cost_for_tile_effect s2 chunk_w chunk_h i j
                  (tiles (i * chunk_w + j)))
        as (s3 & E3 & Np3 & Pp3 & Hs3); try lia.
      exists s3. split; [exact E3|].
      split; [congruence|]. split; [congruence|].
      intros off Hcase Hcol. destruct (Hs3 off) as [Hin Hout].
      unfold in_block in Hin, Hout. fold fr fc in Hin, Hout.
      rewrite !block_index in Hin, Hout by assumption.
      destruct (Nat.eq_dec (off / FIELD_RES_C / fr) i) as [Er|Nr];
        [destruct (Nat.eq_dec (off mod FIELD_RES_C / fc) j) as [Ec|Nc]|].
      * rewrite Hin by auto. unfold built_cost. fold fr fc.
        rewrite Er, Ec. reflexivity.
      * rewrite Hout by tauto. apply Hs2; [right; split; lia|exact Hcol].
      * rewrite Hout by tauto. apply Hs2; [left; lia|exact Hcol].
    + split; [exact Np|]. split; [exact Pp|].
      intros off [Hlt|[_ Hlt]] Hcol; [apply Hs; assumption|lia].
    + exists s'. split; [exact E|]. split; [exact Np'|]. split; [exact Pp'|].
      intros off Hrow Hcol. apply Hs'; [|exact Hcol].
      destruct (Nat.eq_dec (off / FIELD_RES_C / fr) i); [right|left]; lia.
  - split; [reflexivity|]. split; [reflexivity|]. intros off Hlt. lia.
  - exists ch'. split; [exact E|]. split; [exact Np|]. split; [exact Pp|].
    exact Hcells.
Qed.

Lemma resolution_assertion_ok (res dim : nat) :
  resolution_assertion res dim = Ok tt ->
  0 < dim <= res /\ dim * (res / dim) = res.
Proof.
  unfold resolution_assertion, umod, assert.
  destruct (Nat.leb_spec dim res); [|discriminate].
  destruct (Nat.eqb_spec dim 0); [discriminate|]. cbn [bind].
  destruct (Nat.eqb_spec (res mod dim) 0) as [Em|]; [|discriminate].
  intros _. split; [lia|]. symmetry. apply Nat.Div0.div_exact. exact Em.
Qed.

(** Every cell of a chunk lies in the block of one of its tiles. *)
Lemma cell_in_chunk (dim off : nat) :
  0 < dim -> dim * (64 / dim) = 64 -> off < 64 -> off / (64 / dim) < dim.
Proof.
  intros Hd He Hoff. apply Nat.Div0.div_lt_upper_bound. lia.
Qed.

Lemma build_cost_fields_spec (w h chunk_w chunk_h : nat)
  (chunk_tiles : nat -> nat -> tile) (block : nat -> nav_chunk) :
  resolution_assertion FIELD_RES_R chunk_h = Ok tt ->
  resolution_assertion FIELD_RES_C chunk_w = Ok tt ->
  exists chs,
    build_cost_fields w h chunk_w chunk_h chunk_tiles block = Ok chs /\
    store_eqv (h * w) chs
      (fun idx => built_chunk chunk_w chunk_h (chunk_tiles idx)).
Proof.
  intros Hrh Hrw.
  apply resolution_assertion_ok in Hrh, Hrw.
  destruct Hrh as [Hh Hhe], Hrw as [Hw Hwe].
  unfold build_cost_fields.
  pose (done := fun (m : nat) (chs : nat -> nav_chunk) =>
    forall idx, idx < m ->
      chunk_eqv (chs idx) (built_chunk chunk_w chunk_h (chunk_tiles idx))).
  destruct (@for_each_seq_total (nat -> nav_chunk) (fun i => done (i * w))
    (fun chunk_r chs1 => for_each (seq 0 w) (fun chunk_c chs2 =>
       ch <- build_cost_field chunk_w chunk_h
               (chunk_tiles (CHUNK_IDX chunk_r w chunk_c))
               (chs2 (CHUNK_IDX chunk_r w chunk_c)) ;;
       Ok (upd chs2 (CHUNK_IDX chunk_r w chunk_c) ch)) chs1) h)
    with (s := block) as (chs & E & Hdone).
  - intros i s Hi Hs.
    destruct (@for_each_seq_total (nat -> nav_chunk)
      (fun j => done (i * w + j))
      (fun chunk_c chs2 =>
         ch <- build_cost_field chunk_w chunk_h
                 (chunk_tiles (CHUNK_IDX i w chunk_c))
                 (chs2 (CHUNK_IDX i w chunk_c)) ;;
         Ok (upd chs2 (CHUNK_IDX i w chunk_c) ch)) w)
      with (s := s) as (s' & E & Hs').
    + intros j s2 Hj Hs2.
      destruct (@build_cost_field_spec chunk_w chunk_h
                  (chunk_tiles (CHUNK_IDX i w j)) (s2 (CHUNK_IDX i w j))
                  Hw Hh) as (ch' & E' & Np & _ & Hcells).
      rewrite E'. cbn [bind]. eexists. split; [reflexivity|].
      intros idx Hidx. unfold upd, CHUNK_IDX.
      destruct (Nat.eqb_spec idx (i * w + j)) as [->|Hne].
      * split; [exact Np|]. split; [rewrite Np; intros k Hk; lia|].
        intros off Hoff. cbn [built_chunk cost_base]. apply Hcells.
        -- apply cell_in_chunk; [lia|exact Hhe|].
           apply Nat.Div0.div_lt_upper_bound. exact Hoff.
        -- apply cell_in_chunk; [lia|exact Hwe|].
           apply Nat.mod_upper_bound. unfold FIELD_RES_C. lia.
      * apply Hs2. lia.
    + intros idx Hidx. apply Hs. lia.
    + exists s'. split; [exact E|]. intros idx Hidx. apply Hs'. lia.
  - intros idx Hidx. lia.
  - exists chs. split; [exact E|]. exact Hdone.
Qed.

(** ** The whole build *)

Lemma same_layout_refl (ch : nav_chunk) : same_layout ch ch.
Proof. repeat split. Qed.

Lemma same_layout_trans (c1 c2 c3 : nav_chunk) :
  same_layout c1 c2 -> same_layout c2 c3 -> same_layout c1 c3.
Proof.
  intros (N1 & C1 & P1) (N2 & C2 & P2).
  split; [congruence|]. split; [congruence|].
  intros k. destruct (P1 k) as (A1 & A2 & A3 & A4).
  destruct (P2 k) as (B1 & B2 & B3 & B4). repeat split; congruence.
Qed.

Lemma link_portals_step_layout (self i j : nat)
  (s s' : nav_chunk * list (coord * coord * list Z)) :
  link_portals_step self i j s = Ok s' -> same_layout (fst s) (fst s').
Proof.
  unfold link_portals_step. destruct (i =? j).
  { intros E. injection E as <-. apply same_layout_refl. }
  unfold load. destruct (i <? MAX_PORTALS_PER_CHUNK); [|discriminate].
  destruct (j <? MAX_PORTALS_PER_CHUNK); [|discriminate]. cbn [bind].
  destruct (AStar_GridPath _ _ _) as [cost|].
  - unfold store. destruct (_ <? _); [|discriminate]. cbn [bind].
    intros E. injection E as <-. cbn [fst]. unfold set_portals, same_layout.
    cbn [num_portals cost_base portals].
    split; [reflexivity|]. split; [reflexivity|].
    intros k. unfold upd. destruct (Nat.eqb_spec k i) as [->|_];
      repeat split.
  - intros E. injection E as <-. apply same_layout_refl.
Qed.

Lemma n_link_chunk_portals_layout (self : nat) (ch : nav_chunk)
  (s : nav_chunk * list (coord * coord * list Z)) :
  n_link_chunk_portals self ch = Ok s -> same_layout ch (fst s).
Proof.
  unfold n_link_chunk_portals.
  apply (@for_each_seq_partial _ (fun _ t => same_layout ch (fst t)));
    [|apply same_layout_refl].
  intros i t t' _ Ht. 
  apply (@for_each_seq_partial _ (fun _ u => same_layout ch (fst u)));
    [|exact Ht].
  intros j u u' _ Hu E. apply (same_layout_trans Hu).
  apply (link_portals_step_layout _ _ _ _ E).
Qed.

Lemma link_all_chunk_portals_layout (w h : nat) (chs chs' : nat -> nav_chunk) :
  link_all_chunk_portals w h chs = Ok chs' ->
  forall idx, same_layout (chs idx) (chs' idx).
Proof.
  unfold link_all_chunk_portals.
  apply (@for_each_seq_partial _
           (fun _ t => forall idx, same_layout (chs idx) (t idx)));
    [|intros idx; apply same_layout_refl].
  intros i t t' _ Ht.
  apply (@for_each_seq_partial _
           (fun _ u => forall idx, same_layout (chs idx) (u idx)));
    [|exact Ht].
  intros j u u' _ Hu E idx. apply bind_ok_inv in E.
  destruct E as (res & E1 & E2). injection E2 as <-. unfold upd.
  destruct (Nat.eqb_spec idx (CHUNK_IDX i w j)) as [->|_]; [|apply Hu].
  apply (same_layout_trans (Hu _)).
  apply (n_link_chunk_portals_layout _ _ E1).
Qed.

Lemma portal_paired_layout (w h : nat) (chs chs' : nat -> nav_chunk)
  (idx k : nat) :
  (forall j, same_layout (chs j) (chs' j)) ->
  portal_paired w h chs idx k -> portal_paired w h chs' idx k.
Proof.
  intros Hl (t & idx' & k' & i0 & i1 & Hn & Hk' & Hc & Hc' & Hch & He0 & He1
             & Hq0 & Hq1 & Hi & Hcross).
  destruct (Hl idx) as (N & C & P). destruct (Hl idx') as (N' & C' & P').
  destruct (P k) as (A1 & A2 & A3 & A4).
  destruct (P' k') as (B1 & B2 & B3 & B4).
  exists t, idx', k', i0, i1.
  rewrite N', A1, A2, A3, A4, B2, B3, B4.
  repeat (split; [assumption|]).
  intros i Hi'. rewrite <- (Hcross i Hi'). apply crossable_ext; assumption.
Qed.

Lemma build_unfold (w h chunk_w chunk_h : nat)
  (chunk_tiles : nat -> nat -> tile) (block : nat -> nav_chunk) :
  N_BuildForMapData w h chunk_w chunk_h chunk_tiles (Some block)
  = (resolution_assertion FIELD_RES_R chunk_h ;;;
     resolution_assertion FIELD_RES_C chunk_w ;;;
     chs <- build_cost_fields w h chunk_w chunk_h chunk_tiles block ;;
     discover_and_link w h chs).
Proof. reflexivity. Qed.

(** The stages of a build that returns a store. *)
Lemma build_stages (w h chunk_w chunk_h : nat)
  (chunk_tiles : nat -> nat -> tile) (block : nat -> nav_chunk)
  (priv : nav_private) :
  N_BuildForMapData w h chunk_w chunk_h chunk_tiles (Some block)
  = Ok (Some priv) ->
  exists chs0 s,
    build_cost_fields w h chunk_w chunk_h chunk_tiles block = Ok chs0 /\
    store_eqv (h * w) chs0
      (fun idx => built_chunk chunk_w chunk_h (chunk_tiles idx)) /\
    create_portals_loops w h chs0 = Ok s /\
    link_all_chunk_portals w h (fst s) = Ok (chunks priv) /\
    width priv = w /\ height priv = h.
Proof.
  rewrite build_unfold. intros E.
  destruct (resolution_assertion FIELD_RES_R chunk_h) as [[]| | |] eqn:Erh;
    try discriminate.
  destruct (resolution_assertion FIELD_RES_C chunk_w) as [[]| | |] eqn:Erw;
    try discriminate.
  cbn [bind] in E.
  destruct (@build_cost_fields_spec w h chunk_w chunk_h chunk_tiles block
              Erh Erw)
    as (chs0 & E0 & Heqv).
  rewrite E0 in E. cbn [bind] in E. unfold discover_and_link in E.
  apply bind_ok_inv in E. destruct E as (p & Ep & E).
  apply bind_ok_inv in E. destruct E as (chs' & El & E).
  injection E as <-. unfold n_create_portals in Ep.
  cbn [width height chunks] in Ep.
  apply bind_ok_inv in Ep. destruct Ep as (s & Es & Ep).
  apply bind_ok_inv in Ep. destruct Ep as ([] & Ea & Ep).
  injection Ep as <-. cbn [width height chunks] in *.
  exists chs0, s. repeat (split; [first [assumption|reflexivity]|]).
  reflexivity.
Qed.

Lemma neighbour_across_bound (w h idx idx' : nat) (t : edge_type) :
  idx < h * w -> neighbour_across w h idx t = Some idx' -> idx' < h * w.
Proof.
  intros Hidx. unfold neighbour_across, CHUNK_IDX.
  assert (Hw : 0 < w) by nia.
  assert (Hrow : idx / w < h)
    by (apply Nat.Div0.div_lt_upper_bound; lia).
  pose proof (Nat.mod_upper_bound idx w ltac:(lia)) as Hcol.
  destruct t.
  - destruct (Nat.ltb_spec (idx / w + 1) h); [|discriminate].
    intros E. injection E as <-. nia.
  - destruct (Nat.leb_spec 1 (idx mod w)); [|discriminate].
    intros E. injection E as <-. nia.
  - destruct (Nat.ltb_spec (idx mod w + 1) w); [|discriminate].
    intros E. injection E as <-. nia.
  - destruct (Nat.leb_spec 1 (idx / w)); [|discriminate].
    intros E. injection E as <-. nia.
Qed.

(** After a build that returns a store, every recorded portal is half of a
    pair. *)
Lemma build_discovered (w h chunk_w chunk_h : nat)
  (chunk_tiles : nat -> nat -> tile) (block : nat -> nav_chunk)
  (priv : nav_private) :
  N_BuildForMapData w h chunk_w chunk_h chunk_tiles (Some block)
  = Ok (Some priv) ->
  width priv = w /\ height priv = h /\ discovered w h (chunks priv).
Proof.
  intros E.
  destruct (build_stages _ _ _ _ _ _ E)
    as (chs0 & s & _ & Heqv & Es & El & Hw & Hh).
  split; [exact Hw|]. split; [exact Hh|].
  assert (Hzero : forall j, j < h * w -> num_portals (chs0 j) = 0).
  { intros j Hj. destruct (Heqv j Hj) as (Hn & _). exact Hn. }
  destruct (create_portals_loops_discovered w h chs0 Hzero Es) as (Hd & _ & _).
  pose proof (link_all_chunk_portals_layout _ _ _ El) as Hl.
  intros idx k Hidx Hk. apply (@portal_paired_layout w h (fst s) _ idx k Hl).
  apply Hd; [exact Hidx|]. destruct (Hl idx) as (N & _). lia.
Qed.

(** C7.  After a build that returns a store, every recorded portal [p]
    (slot [k] of chunk [idx]) lies on an edge [t] of its chunk across which
    the map has a chunk [idx'], never on an edge that faces the outside of
    the world; [p.connected] points to a recorded portal of [idx'], which
    spans the same positions of the facing edge and whose own [connected]
    points back to [p]; and no other recorded portal of the map is
    connected to [p]. *)
Theorem build_portals_have_one_counterpart (w h chunk_w chunk_h : nat)
  (chunk_tiles : nat -> nat -> tile) (block : nat -> nav_chunk)
  (priv : nav_private) (idx k : nat) :
  N_BuildForMapData w h chunk_w chunk_h chunk_tiles (Some block)
  = Ok (Some priv) ->
  idx < height priv * width priv ->
  k < num_portals (chunks priv idx) ->
  exists t idx' k' i0 i1,
    neighbour_across (width priv) (height priv) idx t = Some idx' /\
    idx' < height priv * width priv /\
    k' < num_portals (chunks priv idx') /\
    connected (portals (chunks priv idx) k) = PortalAt idx' k' /\
    connected (portals (chunks priv idx') k') = PortalAt idx k /\
    endpoints0 (portals (chunks priv idx) k) = edge_coord t (Z.of_nat i0) /\
    endpoints1 (portals (chunks priv idx) k) = edge_coord t (Z.of_nat i1) /\
    endpoints0 (portals (chunks priv idx') k')
    = edge_coord (opposite t) (Z.of_nat i0) /\
    endpoints1 (portals (chunks priv idx') k')
    = edge_coord (opposite t) (Z.of_nat i1) /\
    (forall idx'' k'',
       idx'' < height priv * width priv ->
       k'' < num_portals (chunks priv idx'') ->
       connected (portals (chunks priv idx'') k'') = PortalAt idx k ->
       idx'' = idx' /\ k'' = k').
Proof.
  intros E Hidx Hk.
  destruct (build_discovered _ _ _ _ _ _ E) as (Hw & Hh & Hd).
  rewrite Hw, Hh in *.
  destruct (Hd idx k Hidx Hk)
    as (t & idx' & k' & i0 & i1 & Hn & Hk' & Hc & Hc' & _ & He0 & He1
        & Hq0 & Hq1 & _ & _).
  exists t, idx', k', i0, i1.
  split; [exact Hn|].
  split; [apply (@neighbour_across_bound w h idx idx' t Hidx Hn)|].
  repeat (split; [assumption|]).
  intros idx'' k'' Hidx'' Hk'' Hcon.
  destruct (Hd idx'' k'' Hidx'' Hk'')
    as (t2 & j & m & _ & _ & _ & _ & Hc2 & Hc2' & _).
  rewrite Hcon in Hc2. injection Hc2 as <- <-.
  rewrite Hc in Hc2'. injection Hc2' as <- <-. split; reflexivity.
Qed.

(** The block [malloc] hands out has no part in what a build returns. *)
Lemma build_as_pipeline (w h chunk_w chunk_h : nat)
  (chunk_tiles : nat -> nat -> tile) (block : nat -> nav_chunk) :
  result_rel handle_eqv
    (N_BuildForMapData w h chunk_w chunk_h chunk_tiles (Some block))
    (resolution_assertion FIELD_RES_R chunk_h ;;;
     resolution_assertion FIELD_RES_C chunk_w ;;;
     discover_and_link w h
       (fun idx => built_chunk chunk_w chunk_h (chunk_tiles idx))).
Proof.
  rewrite build_unfold.
  destruct (resolution_assertion FIELD_RES_R chunk_h) as [[]| | |] eqn:Erh;
    cbn [bind]; try constructor.
  destruct (resolution_assertion FIELD_RES_C chunk_w) as [[]| | |] eqn:Erw;
    cbn [bind]; try constructor.
  destruct (@build_cost_fields_spec w h chunk_w chunk_h chunk_tiles block
              Erh Erw) as (chs & E & Heqv).
  rewrite E. cbn [bind]. apply discover_and_link_eqv. exact Heqv.
Qed.





Lemma result_rel_assert_fail (A B : Type) (R : A -> B -> Prop)
  (m : result A) (p : result B) :
  result_rel R m p -> p = AssertFail -> m = AssertFail.
Proof. intros H E. destruct H; try discriminate. reflexivity. Qed.

Lemma result_rel_out_of_bounds (A B : Type) (R : A -> B -> Prop)
  (m : result A) (p : result B) :
  result_rel R m p -> p = OutOfBounds -> m = OutOfBounds.
Proof. intros H E. destruct H; try discriminate. reflexivity. Qed.

Lemma result_rel_ok (A B : Type) (R : A -> B -> Prop)
  (m : result A) (p : result B) :
  result_rel R m p -> is_ok p = true ->
  exists x y, m = Ok x /\ p = Ok y /\ R x y.
Proof.
  intros H E. destruct H; try discriminate. eauto.
Qed.

(** ** Capacity of the portal arrays *)

Lemma count_runs_le (mask : nat -> bool) (n d : nat) :
  count_runs mask n <= count_runs mask (n + d).
Proof.
  induction d as [|d IH]; [rewrite Nat.add_0_r; lia|].
  replace (n + S d) with (S (n + d)) by lia. rewrite count_runs_S. lia.
Qed.

(** Where positions come in pairs, a maximal run starts on an even
    position and covers its pair: four consecutive positions hold at most
    one start. *)
Lemma count_runs_paired (mask : nat -> bool) (k : nat) :
  (forall m, m < 2 * k -> mask (2 * m + 1) = mask (2 * m)) ->
  count_runs mask (4 * k) <= k.
Proof.
  induction k as [|k IH]; intros Hpair; [reflexivity|].
  replace (4 * S k) with (S (S (S (S (4 * k))))) by lia.
  rewrite !count_runs_S. specialize (IH ltac:(intros m Hm; apply Hpair; lia)).
  pose proof (Hpair (2 * k) ltac:(lia)) as P0.
  pose proof (Hpair (2 * k + 1) ltac:(lia)) as P1.
  replace (2 * (2 * k) + 1) with (S (4 * k)) in P0 by lia.
  replace (2 * (2 * k)) with (4 * k) in P0 by lia.
  replace (2 * (2 * k + 1) + 1) with (S (S (S (4 * k)))) in P1 by lia.
  replace (2 * (2 * k + 1)) with (S (S (4 * k))) in P1 by lia.
  unfold run_start.
  replace (S (4 * k) - 1) with (4 * k) by lia.
  replace (S (S (4 * k)) - 1) with (S (4 * k)) by lia.
  replace (S (S (S (4 * k))) - 1) with (S (S (4 * k))) by lia.
  change (0 <? S (4 * k)) with true.
  change (0 <? S (S (4 * k))) with true.
  change (0 <? S (S (S (4 * k)))) with true.
  rewrite P0, P1.
  destruct (mask (4 * k)); destruct (mask (S (S (4 * k))));
    destruct ((0 <? 4 * k) && mask (4 * k - 1)); cbn [andb negb]; lia.
Qed.

Lemma count_runs_paired_edge (mask : nat -> bool) (n : nat) :
  (forall m, m < 32 -> mask (2 * m + 1) = mask (2 * m)) ->
  n <= 64 -> count_runs mask n <= 16.
Proof.
  intros Hpair Hn.
  pose proof (@count_runs_paired mask 16 ltac:(intros m Hm; apply Hpair; lia)).
  pose proof (count_runs_le mask n (64 - n)).
  replace (n + (64 - n)) with (4 * 16) in * by lia. lia.
Qed.

Lemma even_cells_per_tile (d : nat) :
  0 < d <= 32 -> d * (64 / d) = 64 -> Nat.even (64 / d) = true.
Proof.
  intros Hd He.
  assert (Hall : forallb (fun x =>
            implb ((0 <? x) && (x * (64 / x) =? 64)) (Nat.even (64 / x)))
            (seq 0 33) = true) by (vm_compute; reflexivity).
  rewrite forallb_forall in Hall.
  specialize (Hall d ltac:(apply in_seq; lia)).
  destruct (Nat.ltb_spec 0 d); [|lia].
  destruct (Nat.eqb_spec (d * (64 / d)) 64); [|lia].
  exact Hall.
Qed.

Lemma pair_same_block (f m : nat) :
  Nat.even f = true -> (2 * m + 1) / f = (2 * m) / f.
Proof.
  intros Hf. apply Nat.even_spec in Hf. destruct Hf as [f' ->].
  rewrite <- !Nat.Div0.div_div.
  replace ((2 * m + 1) / 2) with m
    by (apply Nat.div_unique with 1; lia).
  replace ((2 * m) / 2) with m
    by (apply Nat.div_unique with 0; lia).
  reflexivity.
Qed.

Lemma edge_off_row_col (t : edge_type) (i : nat) :
  i < 64 ->
  edge_off t i / FIELD_RES_C
  = (match t with EDGE_BOT => 63 | EDGE_TOP => 0 | _ => i end) /\
  edge_off t i mod FIELD_RES_C
  = (match t with EDGE_LEFT => 0 | EDGE_RIGHT => 63 | _ => i end).
Proof.
  intros Hi. apply cell_off_split.
  - unfold FIELD_RES_C. destruct t; lia.
  - rewrite edge_off_eq. unfold cell_off, FIELD_RES_C. destruct t; lia.
Qed.

(** A chunk built from tiles that cover at least two cells each way has
    its boundary cells in pairs. *)
Lemma built_cost_paired (chunk_w chunk_h : nat) (tiles : nat -> tile)
  (t : edge_type) (m : nat) :
  0 < chunk_w <= 32 -> chunk_w * (64 / chunk_w) = 64 ->
  0 < chunk_h <= 32 -> chunk_h * (64 / chunk_h) = 64 ->
  m < 32 ->
  built_cost chunk_w chunk_h tiles (edge_off t (2 * m + 1))
  = built_cost chunk_w chunk_h tiles (edge_off t (2 * m)).
Proof.
  intros Hw Hwe Hh Hhe Hm. unfold built_cost.
  destruct (@edge_off_row_col t (2 * m + 1) ltac:(lia)) as [R1 C1].
  destruct (@edge_off_row_col t (2 * m) ltac:(lia)) as [R0 C0].
  rewrite R1, C1, R0, C0. change FIELD_RES_R with 64. change FIELD_RES_C with 64.
  pose proof (@pair_same_block _ m (even_cells_per_tile Hw Hwe)) as Pw.
  pose proof (@pair_same_block _ m (even_cells_per_tile Hh Hhe)) as Ph.
  destruct t; rewrite ?Pw, ?Ph; reflexivity.
Qed.

(** The calls that touch a chunk are told apart by their pair of chunk
    indices. *)
Lemma NoDup_touching_pairs (w h idx : nat) :
  NoDup (map call_pair (filter (touches idx) (link_calls w h))).
Proof.
  change (touches idx)
    with (fun lc => (fun ab : nat * nat => (fst ab =? idx) || (snd ab =? idx))
                      (call_pair lc)).
  rewrite <- filter_map_swap. apply NoDup_filter, NoDup_link_calls.
Qed.

(** No chunk is on a side of more than four calls: one per edge. *)
Lemma touches_at_most_4 (w h idx : nat) :
  length (filter (touches idx) (link_calls w h)) <= 4.
Proof.
  rewrite <- (length_map call_pair).
  change 4 with (length [(idx, idx + w); (idx, idx + 1);
                         (idx - w, idx); (idx - 1, idx)]).
  apply NoDup_incl_length.
  - apply NoDup_touching_pairs.
  - intros x Hx. apply in_map_iff in Hx. destruct Hx as (lc & <- & Hlc).
    apply filter_In in Hlc. destruct Hlc as [Hin Ht].
    apply in_link_calls in Hin. destruct Hin as (r & c & _ & _ & Hin).
    apply in_link_calls_at in Hin. unfold touches in Ht.
    apply orb_true_iff in Ht.
    destruct Hin as [[_ ->]|[_ ->]]; unfold call_pair;
      cbn [lc_a lc_b] in *; unfold CHUNK_IDX in *;
      destruct Ht as [Ht|Ht]; apply Nat.eqb_eq in Ht; subst idx; cbn [In].
    + left. f_equal. lia.
    + right; right; left. f_equal. lia.
    + right; left. f_equal. lia.
    + right; right; right; left. f_equal. lia.
Qed.

Lemma link_scan_spec (a : nav_chunk) (a_ptr : nat) (a_type : edge_type)
  (a_coord : coord) (b : nav_chunk) (b_ptr : nat) (b_type : edge_type)
  (b_coord : coord) (n : nat) :
  same_orientation a_type b_type -> a_ptr <= b_ptr -> n <= 64 ->
  (exists s,
     link_scan a a_ptr a_type a_coord b b_ptr b_type b_coord n = Ok s /\
     link_inv a a_ptr a_type a_coord b b_ptr b_type b_coord 64 n s) \/
  (link_scan a a_ptr a_type a_coord b b_ptr b_type b_coord n = OutOfBounds /\
   capacity_ok (num_portals a) (num_portals b)
     (scan (crossable a a_type b b_type) 64 n) = false).
Proof.
  intros Horient Hptr Hn. unfold link_scan. rewrite line_len_eq.
  apply (@for_each_seq_cases link_state
    (link_inv a a_ptr a_type a_coord b b_ptr b_type b_coord 64)
    (fun i => capacity_ok (num_portals a) (num_portals b)
                (scan (crossable a a_type b b_type) 64 i) = false)).
  - intros i s Hi Hinv.
    apply link_step_spec; [exact Horient|exact Hptr|lia|exact Hinv].
  - intros i _. apply capacity_ok_step.
  - unfold link_inv. cbn [ls_a ls_b ls_a_cursor ls_b_cursor ls_in_portal].
    change (scan (crossable a a_type b b_type) 64 0) with (mkscan [] None).
    cbn [runs opened].
    split; [apply linked_refl|]. split; [apply linked_refl|].
    split; [unfold edge_off; lia|]. split; [unfold edge_off; lia|].
    split; [reflexivity|]. split; [discriminate|reflexivity].
Qed.

Lemma crossable_paired (a b : nav_chunk) (ta tb : edge_type) (m : nat) :
  paired_cells a -> paired_cells b -> m < 32 ->
  crossable a ta b tb (2 * m + 1) = crossable a ta b tb (2 * m).
Proof.
  intros Pa Pb Hm. unfold crossable, passable.
  rewrite (Pa ta m Hm), (Pb tb m Hm). reflexivity.
Qed.

(** On two chunks whose boundary cells come in pairs and which have 16
    slots left, the scan never runs out of slots: it takes at most 16. *)
Lemma link_scan_within_capacity (a : nav_chunk) (a_ptr : nat)
  (a_type : edge_type) (a_coord : coord) (b : nav_chunk) (b_ptr : nat)
  (b_type : edge_type) (b_coord : coord) (n : nat) :
  same_orientation a_type b_type -> a_ptr <= b_ptr ->
  paired_cells a -> paired_cells b ->
  num_portals a + 16 <= MAX_PORTALS_PER_CHUNK ->
  num_portals b + 16 <= MAX_PORTALS_PER_CHUNK ->
  n <= 64 ->
  exists s,
    link_scan a a_ptr a_type a_coord b b_ptr b_type b_coord n = Ok s /\
    linked a a_type a_coord b_ptr (num_portals b)
           (runs (scan (crossable a a_type b b_type) 64 n)) (ls_a s) /\
    linked b b_type b_coord a_ptr (num_portals a)
           (runs (scan (crossable a a_type b b_type) 64 n)) (ls_b s) /\
    length (runs (scan (crossable a a_type b b_type) 64 n)) <= 16.
Proof.
  intros Horient Hptr Pa Pb Ka Kb Hn.
  assert (Hcount : scan_count (scan (crossable a a_type b b_type) 64 n) <= 16).
  { rewrite scan_count_runs by exact Hn.
    apply count_runs_paired_edge; [|exact Hn].
    intros m Hm. apply crossable_paired; assumption. }
  destruct (@link_scan_spec a a_ptr a_type a_coord b b_ptr b_type b_coord n
              Horient Hptr Hn) as [(s & E & La & Lb & _)|(_ & Hbad)].
  - exists s. split; [exact E|]. split; [exact La|]. split; [exact Lb|].
    unfold scan_count in Hcount. lia.
  - rewrite capacity_ok_taken in Hbad by lia. discriminate.
Qed.

Lemma n_link_chunks_as_scan (a : nav_chunk) (a_ptr : nat)
  (a_type : edge_type) (a_coord : coord) (b : nav_chunk) (b_ptr : nat)
  (b_type : edge_type) (b_coord : coord) :
  n_link_chunks a a_ptr a_type a_coord b b_ptr b_type b_coord
  = (assert (edge_types_assertion a_type b_type) ;;;
     s <- link_scan a a_ptr a_type a_coord b b_ptr b_type b_coord
            (if on_horizontal_edge a_type then FIELD_RES_C else FIELD_RES_R) ;;
     Ok (ls_a s, ls_b s)).
Proof. reflexivity. Qed.

(** A loop over a list, stopped after any number of iterations. *)
Lemma for_each_prefix_total (Ix St : Type) (I : list Ix -> St -> Prop)
  (body : Ix -> St -> result St) (l : list Ix) :
  (forall pre x post s, l = pre ++ x :: post -> I pre s ->
     exists s', body x s = Ok s' /\ I (pre ++ [x]) s') ->
  forall s0, I [] s0 ->
  forall pre post, l = pre ++ post ->
    exists s, for_each pre body s0 = Ok s /\ I pre s.
Proof.
  intros Hstep s0 H0 pre. induction pre as [|x pre IH] using rev_ind;
    intros post El.
  - exists s0. split; [reflexivity|exact H0].
  - rewrite <- app_assoc in El. cbn [app] in El.
    destruct (IH (x :: post) El) as (s & E & Hs).
    destruct (Hstep pre x post s El Hs) as (s' & E' & Hs').
    exists s'. split; [|exact Hs'].
    rewrite for_each_app, E. cbn [bind for_each]. rewrite E'. reflexivity.
Qed.

Lemma touched_count_app (idx : nat) (pre : list link_call) (lc : link_call) :
  length (filter (touches idx) (pre ++ [lc]))
  = length (filter (touches idx) pre) + (if touches idx lc then 1 else 0).
Proof.
  rewrite filter_app, length_app. cbn [filter].
  destruct (touches idx lc); reflexivity.
Qed.

(** The state of the chunk array after the calls [pre] of the schedule of
    a map whose chunks started without portals and with paired boundary
    cells: every chunk holds at most 16 portals per call it was part
    of. *)
Lemma run_link_call_within_capacity (w h : nat) (chs0 chs : nat -> nav_chunk)
  (pre post : list link_call) (lc : link_call) :
  (forall idx, idx < h * w -> paired_cells (chs0 idx)) ->
  link_calls w h = pre ++ lc :: post ->
  extends chs0 chs ->
  (forall idx, idx < h * w ->
     num_portals (chs idx) <= 16 * length (filter (touches idx) pre)) ->
  (exists chs',
     run_link_call lc chs = Ok chs' /\ extends chs0 chs' /\
     forall idx, idx < h * w ->
       num_portals (chs' idx)
       <= 16 * length (filter (touches idx) (pre ++ [lc]))) /\
  (forall n, n <= 64 ->
     exists s,
       link_scan (chs (lc_a lc)) (lc_a lc) (lc_a_type lc) (lc_a_coord lc)
                 (chs (lc_b lc)) (lc_b lc) (lc_b_type lc) (lc_b_coord lc) n
       = Ok s /\
       num_portals (ls_a s) <= MAX_PORTALS_PER_CHUNK /\
       num_portals (ls_b s) <= MAX_PORTALS_PER_CHUNK).
Proof.
  intros Hpair El Hext Hbound.
  assert (Hin : In lc (link_calls w h))
    by (rewrite El; apply in_or_app; right; left; reflexivity).
  pose proof (link_calls_ok _ _ _ Hin) as Hok.
  pose proof Hok as (Hia & Hib & Hlt & Ht & _).
  pose proof (Nat.lt_neq _ _ Hlt) as Hne.
  assert (Horient : same_orientation (lc_a_type lc) (lc_b_type lc))
    by (rewrite Ht; apply opposite_orientation).
  assert (Htouch : forall idx, touches idx lc = true ->
            length (filter (touches idx) pre) <= 3).
  { intros idx Hidx. pose proof (touches_at_most_4 w h idx) as H4.
    rewrite El, filter_app, length_app in H4. cbn [filter] in H4.
    rewrite Hidx in H4. cbn [length] in H4. lia. }
  assert (Ta : touches (lc_a lc) lc = true)
    by (unfold touches; rewrite Nat.eqb_refl; reflexivity).
  assert (Tb : touches (lc_b lc) lc = true)
    by (unfold touches; rewrite Nat.eqb_refl; apply orb_true_r).
  assert (Pa : paired_cells (chs (lc_a lc))).
  { intros t m Hm. destruct (Hext (lc_a lc)) as (-> & _).
    apply Hpair; assumption. }
  assert (Pb : paired_cells (chs (lc_b lc))).
  { intros t m Hm. destruct (Hext (lc_b lc)) as (-> & _).
    apply Hpair; assumption. }
  pose proof (Hbound _ Hia) as Ba. pose proof (Hbound _ Hib) as Bb.
  pose proof (Htouch _ Ta) as Ca. pose proof (Htouch _ Tb) as Cb.
  assert (Ka : num_portals (chs (lc_a lc)) + 16 <= MAX_PORTALS_PER_CHUNK)
    by (unfold MAX_PORTALS_PER_CHUNK; lia).
  assert (Kb : num_portals (chs (lc_b lc)) + 16 <= MAX_PORTALS_PER_CHUNK)
    by (unfold MAX_PORTALS_PER_CHUNK; lia).
  split.
  - destruct (@link_scan_within_capacity (chs (lc_a lc)) (lc_a lc)
                (lc_a_type lc) (lc_a_coord lc) (chs (lc_b lc)) (lc_b lc)
                (lc_b_type lc) (lc_b_coord lc) 64 Horient
                (Nat.lt_le_incl _ _ Hlt) Pa Pb Ka Kb
                ltac:(lia)) as (s & E & La & Lb & Hlen).
    assert (Erun : run_link_call lc chs
                   = Ok (upd (upd chs (lc_a lc) (ls_a s)) (lc_b lc) (ls_b s))).
    { unfold run_link_call, link_in_store.
      rewrite n_link_chunks_as_scan, edge_types_assertion_holds, line_len_eq.
      cbn [assert bind]. rewrite E. reflexivity. }
    eexists. split; [exact Erun|]. split.
    + apply (extends_trans Hext). apply (run_link_call_extends chs Hok Erun).
    + intros idx Hidx. rewrite touched_count_app.
      pose proof La as (_ & Na & _). pose proof Lb as (_ & Nb & _).
      destruct (Nat.eq_dec idx (lc_b lc)) as [->|Hb].
      * rewrite upd_same, Tb. lia.
      * destruct (Nat.eq_dec idx (lc_a lc)) as [->|Ha].
        -- rewrite upd2_first, Ta by exact Hne. lia.
        -- rewrite upd2_other by assumption. specialize (Hbound idx Hidx). lia.
  - intros n Hn.
    destruct (@link_scan_within_capacity (chs (lc_a lc)) (lc_a lc)
                (lc_a_type lc) (lc_a_coord lc) (chs (lc_b lc)) (lc_b lc)
                (lc_b_type lc) (lc_b_coord lc) n Horient
                (Nat.lt_le_incl _ _ Hlt) Pa Pb Ka Kb Hn)
      as (s & E & (_ & Na & _) & (_ & Nb & _) & Hlen).
    exists s. split; [exact E|]. lia.
Qed.

(** Portal discovery with tiles that cover at least two cost cells each
    way: the calls of the schedule, one after the other, stay within the
    capacity of the portal arrays. *)
Lemma discovery_schedule_within_capacity (w h chunk_w chunk_h : nat)
  (chunk_tiles : nat -> nat -> tile) (block : nat -> nav_chunk) :
  resolution_assertion FIELD_RES_R chunk_h = Ok tt ->
  resolution_assertion FIELD_RES_C chunk_w = Ok tt ->
  chunk_w <= 32 -> chunk_h <= 32 ->
  exists chs0,
    build_cost_fields w h chunk_w chunk_h chunk_tiles block = Ok chs0 /\
    forall pre post, link_calls w h = pre ++ post ->
      exists mid,
        for_each pre run_link_call chs0 = Ok mid /\
        (forall idx, idx < h * w ->
           num_portals (mid idx) <= MAX_PORTALS_PER_CHUNK) /\
        (forall lc post', post = lc :: post' ->
         forall n, n <= 64 ->
           exists s,
             link_scan (mid (lc_a lc)) (lc_a lc) (lc_a_type lc)
                       (lc_a_coord lc) (mid (lc_b lc)) (lc_b lc)
                       (lc_b_type lc) (lc_b_coord lc) n = Ok s /\
             num_portals (ls_a s) <= MAX_PORTALS_PER_CHUNK /\
             num_portals (ls_b s) <= MAX_PORTALS_PER_CHUNK).
Proof.
  intros Hrh Hrw Hw32 Hh32.
  destruct (@build_cost_fields_spec w h chunk_w chunk_h chunk_tiles block
              Hrh Hrw) as (chs0 & E0 & Heqv).
  apply resolution_assertion_ok in Hrh, Hrw.
  destruct Hrh as [Hh Hhe], Hrw as [Hw Hwe].
  change FIELD_RES_R with 64 in Hhe. change FIELD_RES_C with 64 in Hwe.
  assert (Hpair : forall idx, idx < h * w -> paired_cells (chs0 idx)).
  { intros idx Hidx t m Hm. destruct (Heqv idx Hidx) as (_ & _ & Hc).
    rewrite !Hc by (apply edge_off_bound; lia).
    cbn [built_chunk cost_base]. apply built_cost_paired; try assumption; lia. }
  assert (Hzero : forall idx, idx < h * w -> num_portals (chs0 idx) = 0).
  { intros idx Hidx. destruct (Heqv idx Hidx) as (Hn & _). exact Hn. }
  exists chs0. split; [exact E0|]. intros pre post El.
  destruct (@for_each_prefix_total link_call (nat -> nav_chunk)
    (fun done chs =>
       extends chs0 chs /\
       forall idx, idx < h * w ->
         num_portals (chs idx) <= 16 * length (filter (touches idx) done))
    run_link_call (link_calls w h)) with (s0 := chs0) (pre := pre)
    (post := post) as (mid & Emid & Hext & Hbound).
  - intros done lc rest chs Hl [He Hb].
    destruct (@run_link_call_within_capacity w h chs0 chs done rest lc
                Hpair Hl He Hb) as [(chs' & E' & He' & Hb') _].
    exists chs'. split; [exact E'|]. split; assumption.
  - split; [apply extends_refl|].
    intros idx Hidx. rewrite (Hzero idx Hidx). lia.
  - exact El.
  - exists mid. split; [exact Emid|]. split.
    + intros idx Hidx. specialize (Hbound idx Hidx).
      pose proof (touches_at_most_4 w h idx) as H4.
      rewrite El, filter_app, length_app in H4.
      unfold MAX_PORTALS_PER_CHUNK. lia.
    + intros lc post' -> n Hn.
      destruct (@run_link_call_within_capacity w h chs0 mid pre post' lc
                  Hpair El Hext Hbound) as [_ Hscan].
      apply Hscan; exact Hn.
Qed.


(** ** Further properties of the cost field builder and of the build *)

(** X1.  The two resolution assertions of the build let through exactly
    the chunk dimensions 1, 2, 4, 8, 16, 32 and 64.  A dimension of 0 is
    not caught: the remainder [FIELD_RES % 0] is evaluated, a division by
    zero.  Every other dimension fails the assertion. *)
Theorem resolution_assertion_dimensions (dim : nat) :
  (resolution_assertion FIELD_RES_R dim = Ok tt
   <-> In dim [1; 2; 4; 8; 16; 32; 64]) /\
  (resolution_assertion FIELD_RES_R dim = DivByZero <-> dim = 0) /\
  (resolution_assertion FIELD_RES_R dim = AssertFail
   <-> dim <> 0 /\ ~ In dim [1; 2; 4; 8; 16; 32; 64]) /\
  resolution_assertion FIELD_RES_C dim = resolution_assertion FIELD_RES_R dim.
Proof.
  assert (Hsmall : forallb (fun d =>
            match resolution_assertion FIELD_RES_R d with
            | Ok _ => existsb (Nat.eqb d) [1; 2; 4; 8; 16; 32; 64]
            | DivByZero => d =? 0
            | AssertFail =>
                negb (d =? 0)
                && negb (existsb (Nat.eqb d) [1; 2; 4; 8; 16; 32; 64])
            | OutOfBounds => false
            end) (seq 0 65) = true) by (vm_compute; reflexivity).
  assert (Hin : forall d, existsb (Nat.eqb d) [1; 2; 4; 8; 16; 32; 64] = true
                          <-> In d [1; 2; 4; 8; 16; 32; 64]).
  { intros d. rewrite existsb_exists. split.
    - intros (x & Hx & E). apply Nat.eqb_eq in E. subst x. exact Hx.
    - intros Hd. exists d. split; [exact Hd|apply Nat.eqb_refl]. }
  assert (Hcases :
    match resolution_assertion FIELD_RES_R dim with
    | Ok _ => In dim [1; 2; 4; 8; 16; 32; 64]
    | DivByZero => dim = 0
    | AssertFail => dim <> 0 /\ ~ In dim [1; 2; 4; 8; 16; 32; 64]
    | OutOfBounds => False
    end).
  { destruct (Nat.le_gt_cases dim 64) as [Hle|Hgt].
    - rewrite forallb_forall in Hsmall.
      specialize (Hsmall dim ltac:(apply in_seq; lia)).
      destruct (resolution_assertion FIELD_RES_R dim).
      + apply Hin. exact Hsmall.
      + apply andb_true_iff in Hsmall. destruct Hsmall as [H0 Hn].
        apply negb_true_iff in H0, Hn. apply Nat.eqb_neq in H0.
        split; [exact H0|]. intros Hd. apply Hin in Hd. congruence.
      + discriminate Hsmall.
      + apply Nat.eqb_eq. exact Hsmall.
    - unfold resolution_assertion, FIELD_RES_R.
      destruct (Nat.leb_spec dim 64) as [Hle|_]; [lia|].
      split; [lia|]. cbn [In]. lia. }
  split; [|split; [|split; [|reflexivity]]].
  - split.
    + intros E. rewrite E in Hcases. exact Hcases.
    + intros Hd. destruct (resolution_assertion FIELD_RES_R dim) as [[]| | |].
      * reflexivity.
      * destruct Hcases as [_ Hn]. contradiction.
      * contradiction.
      * subst dim. cbn [In] in Hd. lia.
  - split.
    + intros E. rewrite E in Hcases. exact Hcases.
    + intros ->. reflexivity.
  - split.
    + intros E. rewrite E in Hcases. exact Hcases.
    + intros [H0 Hn]. destruct (resolution_assertion FIELD_RES_R dim).
      * contradiction.
      * reflexivity.
      * contradiction.
      * contradiction.
Qed.

(** X2.  [n_tile_pathable] writes its shape test as
    [!tile->type == TILETYPE_FLAT].  That test blocks the tiles that are not
    flat and have a ramp height above 1, for every tile, exactly when the
    enumerator [TILETYPE_FLAT] is 0. *)
Theorem n_tile_pathable_shape_test :
  (forall t, n_tile_pathable t = negb (spec_tile_blocked t))
  <-> TILETYPE_FLAT = 0%Z.
Proof.
  split.
  - intros H.
    destruct (Z.eq_dec TILETYPE_FLAT 0) as [E|N]; [exact E|exfalso].
    pose (ty := if (TILETYPE_FLAT =? 1)%Z then 2%Z else 1%Z).
    specialize (H (mktile true ty 2)).
    unfold n_tile_pathable, spec_tile_blocked, lnot in H.
    cbn [pathable type ramp_height negb orb] in H.
    assert (Hty : (ty =? 0)%Z = false)
      by (unfold ty; destruct (TILETYPE_FLAT =? 1)%Z; reflexivity).
    assert (Hf : (ty =? TILETYPE_FLAT)%Z = false).
    { unfold ty. destruct (Z.eqb_spec TILETYPE_FLAT 1) as [E1|N1].
      - rewrite E1. reflexivity.
      - apply Z.eqb_neq. lia. }
    rewrite Hty, Hf in H.
    assert (H0 : (0 =? TILETYPE_FLAT)%Z = false) by (apply Z.eqb_neq; lia).
    rewrite H0 in H. cbn in H. discriminate H.
  - intros E t. pose proof (n_tile_pathable_spec t E) as H.
    unfold spec_tile_cost in H.
    destruct (n_tile_pathable t), (spec_tile_blocked t);
      try reflexivity; unfold COST_IMPASSABLE in H; discriminate H.
Qed.

(** X3.  Setting the cost of one tile overwrites the cells of that tile's
    block only: every cost cell outside the block, the number of portals
    and the portal records are what they were. *)
Theorem cost_field_tile_frame (ch : nav_chunk) (chunk_w chunk_h : nat)
  (tile_r tile_c : nat) (t : tile) :
  0 < chunk_w -> 0 < chunk_h -> tile_r < chunk_h -> tile_c < chunk_w ->
  exists ch',
    n_set_cost_for_tile ch chunk_w chunk_h tile_r tile_c t = Ok ch' /\
    num_portals ch' = num_portals ch /\
    portals ch' = portals ch /\
    forall row col,
      col < FIELD_RES_C ->
      ~ in_block chunk_w chunk_h tile_r tile_c row col ->
      cost_base ch' (cell_off row col) = cost_base ch (cell_off row col).
Proof.
  intros Hw Hh Hr Hc.
  destruct (@n_set_cost_for_tile_effect ch chunk_w chunk_h tile_r tile_c t)
    as (ch' & E & Hn & Hp & Hcells); auto.
  exists ch'. split; [exact E|]. split; [exact Hn|]. split; [exact Hp|].
  intros row col Hcol Hout.
  destruct (proj1 (cell_off_split row (cell_off row col) Hcol) eq_refl)
    as [Hd Hm].
  destruct (Hcells (cell_off row col)) as [_ Hkeep].
  apply Hkeep. rewrite Hd, Hm. exact Hout.
Qed.


(** X5.  On a map of at least one chunk each way, the assertion that ends
    [n_create_portals] holds exactly on the square maps.  Once the two
    loops have run, the function returns the linked chunks if the map is as
    wide as it is high and fails its assertion if not; the build therefore
    returns a store for square maps only. *)
Theorem n_links_assertion_holds_on_square_maps_only (w h : nat) :
  1 <= w -> 1 <= h ->
  (forall chs s,
     create_portals_loops w h chs = Ok s ->
     (w = h /\ n_create_portals (mkpriv w h chs) = Ok (mkpriv w h (fst s))) \/
     (w <> h /\ n_create_portals (mkpriv w h chs) = AssertFail)) /\
  (forall chunk_w chunk_h chunk_tiles block priv,
     N_BuildForMapData w h chunk_w chunk_h chunk_tiles (Some block)
     = Ok (Some priv) -> w = h).
Proof.
  intros Hw Hh.
  assert (Hloops : forall chs s,
     create_portals_loops w h chs = Ok s ->
     (w = h /\ n_create_portals (mkpriv w h chs) = Ok (mkpriv w h (fst s))) \/
     (w <> h /\ n_create_portals (mkpriv w h chs) = AssertFail)).
  { intros chs s Es. unfold n_create_portals. cbn [width height chunks].
    rewrite Es. cbn [bind].
    assert (Hn : snd s = (w - 1) * h + w * (h - 1)).
    { rewrite create_portals_loops_schedule in Es.
      apply bind_ok_inv in Es. destruct Es as (chs' & _ & Es).
      injection Es as <-. cbn [snd]. apply length_link_calls; assumption. }
    rewrite Hn.
    pose proof (n_links_assertion_iff_square Hw Hh) as Hsq.
    destruct ((w - 1) * h + w * (h - 1) =? w * (w - 1) + h * (h - 1)).
    - left. split; [apply Hsq; reflexivity|reflexivity].
    - right. split; [|reflexivity].
      intros Ewh. apply Hsq in Ewh. discriminate Ewh. }
  split; [exact Hloops|].
  intros chunk_w chunk_h chunk_tiles block priv E.
  destruct (build_stages _ _ _ _ _ _ E)
    as (chs0 & s & E0 & _ & Es & _ & _ & _).
  destruct (Hloops chs0 s Es) as [[Ewh _]|[_ Ef]]; [exact Ewh|exfalso].
  rewrite build_unfold in E.
  destruct (resolution_assertion FIELD_RES_R chunk_h) as [[]| | |];
    try discriminate E.
  destruct (resolution_assertion FIELD_RES_C chunk_w) as [[]| | |];
    try discriminate E.
  cbn [bind] in E. rewrite E0 in E. cbn [bind] in E.
  unfold discover_and_link in E. rewrite Ef in E. discriminate E.
Qed.

(** ** Further properties of portal discovery *)











(** ** Further properties of the portal linker and of the built store *)

Lemma scan_count_ge_runs (st : scan_state) :
  length (runs st) <= scan_count st.
Proof. unfold scan_count. lia. Qed.

Lemma capacity_ok_runs (na nb : nat) (st : scan_state) :
  capacity_ok na nb st = true ->
  na <= MAX_PORTALS_PER_CHUNK -> nb <= MAX_PORTALS_PER_CHUNK ->
  na + length (runs st) <= MAX_PORTALS_PER_CHUNK /\
  nb + length (runs st) <= MAX_PORTALS_PER_CHUNK.
Proof.
  unfold capacity_ok. intros H Ha Hb.
  pose proof (scan_count_ge_runs st) as Hle.
  apply orb_true_iff in H. destruct H as [H|H].
  - apply Nat.eqb_eq in H. lia.
  - apply andb_true_iff in H. destruct H as [H1 H2].
    apply Nat.leb_le in H1, H2. lia.
Qed.

Lemma run_link_call_unlinked (w h : nat) (lc : link_call)
  (chs chs' : nat -> nav_chunk) :
  call_ok w h lc -> unlinked w h chs -> run_link_call lc chs = Ok chs' ->
  unlinked w h chs'.
Proof.
  intros (Ha & Hb & Hab & Ht & _) Hun E.
  pose proof (Nat.lt_neq _ _ Hab) as Hne.
  unfold run_link_call, link_in_store in E.
  assert (Horient : same_orientation (lc_a_type lc) (lc_b_type lc))
    by (rewrite Ht; apply opposite_orientation).
  destruct (@n_link_chunks_spec (chs (lc_a lc)) (lc_a lc) (lc_a_type lc)
              (lc_a_coord lc) (chs (lc_b lc)) (lc_b lc) (lc_b_type lc)
              (lc_b_coord lc) Horient (Nat.lt_le_incl _ _ Hab))
    as [(Hcap & a' & b' & E1 & La & Lb)|(_ & E1)];
    rewrite E1 in E; cbn [bind fst snd] in E; [|discriminate E].
  injection E as <-.
  destruct (Hun _ Ha) as [Na Fa]. destruct (Hun _ Hb) as [Nb Fb].
  destruct (@capacity_ok_runs _ _ _ Hcap Na Nb) as [Ca Cb].
  assert (Hside : forall ch t co q nq ch',
            linked ch t co q nq
              (runs (scan (crossable (chs (lc_a lc)) (lc_a_type lc)
                                     (chs (lc_b lc)) (lc_b_type lc)) 64 64))
              ch' ->
            num_portals ch
            + length (runs (scan (crossable (chs (lc_a lc)) (lc_a_type lc)
                                            (chs (lc_b lc)) (lc_b_type lc))
                                 64 64))
            <= MAX_PORTALS_PER_CHUNK ->
            (forall k, k < num_portals ch ->
               num_neighbours (portals ch k) = 0) ->
            num_portals ch' <= MAX_PORTALS_PER_CHUNK /\
            forall k, k < num_portals ch' ->
              num_neighbours (portals ch' k) = 0).
  { intros ch t co q nq ch' Hl Hc Hf. pose proof Hl as (_ & Hn & Hold & _).
    split; [lia|]. intros k Hk.
    destruct (Nat.lt_ge_cases k (num_portals ch)) as [Hlt|Hge].
    - rewrite Hold by exact Hlt. apply Hf. exact Hlt.
    - destruct (@linked_new_slot ch t co q nq _ ch' k Hl ltac:(lia))
        as (j & i0 & i1 & _ & _ & ->).
      apply closed_portal_fields. }
  intros idx Hidx.
  destruct (Nat.eq_dec idx (lc_b lc)) as [->|Hnb].
  - rewrite upd_same. apply (Hside _ _ _ _ _ _ Lb Cb Fb).
  - destruct (Nat.eq_dec idx (lc_a lc)) as [->|Hna].
    + rewrite upd2_first by exact Hne. apply (Hside _ _ _ _ _ _ La Ca Fa).
    + rewrite upd2_other by assumption. apply Hun. exact Hidx.
Qed.

Lemma create_portals_loops_unlinked (w h : nat)
  (chs : nat -> nav_chunk) (s : (nat -> nav_chunk) * nat) :
  (forall idx, idx < h * w -> num_portals (chs idx) = 0) ->
  create_portals_loops w h chs = Ok s -> unlinked w h (fst s).
Proof.
  intros Hzero E. rewrite create_portals_loops_schedule in E.
  apply bind_ok_inv in E. destruct E as (chs' & E & E').
  injection E' as <-. cbn [fst].
  apply (@for_each_list_partial link_call (nat -> nav_chunk)
           (unlinked w h) run_link_call (link_calls w h)) with (s := chs);
    [| |exact E].
  - intros lc s1 s2 Hin Hun E1. apply link_calls_ok in Hin.
    apply (run_link_call_unlinked Hin Hun E1).
  - intros idx Hidx. rewrite (Hzero idx Hidx).
    split; [unfold MAX_PORTALS_PER_CHUNK; lia|]. intros k Hk. lia.
Qed.

(** The chunk loops of the build hand every chunk of the map to the portal
    linker once, and the linker works on one chunk alone. *)
Lemma link_all_chunk_portals_each (w h : nat) (chs chs' : nat -> nav_chunk) :
  link_all_chunk_portals w h chs = Ok chs' ->
  forall idx, idx < h * w ->
    exists s, n_link_chunk_portals idx (chs idx) = Ok s /\ chs' idx = fst s.
Proof.
  intros E.
  assert (G : forall idx,
            (idx < h * w ->
             exists s, n_link_chunk_portals idx (chs idx) = Ok s /\
                       chs' idx = fst s) /\
            (h * w <= idx -> chs' idx = chs idx));
    [|intros idx; apply G].
  revert E. unfold link_all_chunk_portals.
  apply (@for_each_seq_partial _
           (fun row t => forall idx,
              (idx < row * w ->
               exists s, n_link_chunk_portals idx (chs idx) = Ok s /\
                         t idx = fst s) /\
              (row * w <= idx -> t idx = chs idx)));
    [|intros idx; split; [lia|reflexivity]].
  intros row t t' _ Ht E.
  assert (G : forall idx,
            (idx < row * w + w ->
             exists s, n_link_chunk_portals idx (chs idx) = Ok s /\
                       t' idx = fst s) /\
            (row * w + w <= idx -> t' idx = chs idx)).
  { revert E.
    apply (@for_each_seq_partial _
             (fun col u => forall idx,
                (idx < row * w + col ->
                 exists s, n_link_chunk_portals idx (chs idx) = Ok s /\
                           u idx = fst s) /\
                (row * w + col <= idx -> u idx = chs idx))).
    - intros col u u' _ Hu E idx. apply bind_ok_inv in E.
      destruct E as (res & E1 & E2). injection E2 as <-.
      unfold CHUNK_IDX in *. unfold upd.
      destruct (Nat.eqb_spec idx (row * w + col)) as [->|Hne].
      + split; [|lia]. intros _. exists res.
        destruct (Hu (row * w + col)) as [_ Hsame].
        rewrite Hsame in E1 by lia. split; [exact E1|reflexivity].
      + destruct (Hu idx) as [Hlow Hhigh]. split.
        * intros Hlt. apply Hlow. lia.
        * intros Hge. apply Hhigh. lia.
    - intros idx. destruct (Ht idx) as [Hlow Hhigh]. split.
      + intros Hlt. apply Hlow. lia.
      + intros Hge. apply Hhigh. lia. }
  intros idx. destruct (G idx) as [Hlow Hhigh]. split.
  - intros Hlt. apply Hlow. lia.
  - intros Hge. apply Hhigh. lia.
Qed.

(** The chunk loops of the build return when every chunk of the map is
    within capacity and none of its portals has an edge yet. *)
Lemma link_all_chunk_portals_total (w h : nat) (chs : nat -> nav_chunk) :
  unlinked w h chs ->
  exists chs', link_all_chunk_portals w h chs = Ok chs'.
Proof.
  intros Hun. unfold link_all_chunk_portals.
  pose (rest := fun (m : nat) (t : nat -> nav_chunk) =>
    forall idx, m <= idx -> t idx = chs idx).
  destruct (@for_each_seq_total (nat -> nav_chunk) (fun i => rest (i * w))
    (fun chunk_r chs1 => for_each (seq 0 w) (fun chunk_c chs2 =>
       res <- n_link_chunk_portals (CHUNK_IDX chunk_r w chunk_c)
                (chs2 (CHUNK_IDX chunk_r w chunk_c)) ;;
       Ok (upd chs2 (CHUNK_IDX chunk_r w chunk_c) (fst res))) chs1) h)
    with (s := chs) as (chs' & E & _).
  - intros i s Hi Hs.
    destruct (@for_each_seq_total (nat -> nav_chunk)
      (fun j => rest (i * w + j))
      (fun chunk_c chs2 =>
         res <- n_link_chunk_portals (CHUNK_IDX i w chunk_c)
                  (chs2 (CHUNK_IDX i w chunk_c)) ;;
         Ok (upd chs2 (CHUNK_IDX i w chunk_c) (fst res))) w)
      with (s := s) as (s' & E & Hs').
    + intros j s2 Hj Hs2. unfold CHUNK_IDX.
      rewrite (Hs2 (i * w + j)) by lia.
      destruct (Hun (i * w + j)) as [Hcap Hfresh]; [nia|].
      destruct (@n_link_chunk_portals_spec (i * w + j) (chs (i * w + j)) Hcap)
        as (res & Er & _).
      { intros k Hk. rewrite (Hfresh k Hk). lia. }
      rewrite Er. cbn [bind]. eexists. split; [reflexivity|].
      intros idx Hidx. rewrite upd_other by lia. apply Hs2. lia.
    + intros idx Hidx. apply Hs. lia.
    + exists s'. split; [exact E|]. intros idx Hidx. apply Hs'. lia.
  - intros idx _. reflexivity.
  - exists chs'. exact E.
Qed.

(** X21.  Portal discovery with tiles that cover at least two cost cells
    each way.  When the chunk tile dimensions pass the resolution
    assertions and are at most 32, the cost fields are built and portal
    discovery never leaves the portal arrays: after any number of the calls
    to [n_link_chunks] that [n_create_portals] makes, every chunk of the
    map holds at most MAX_PORTALS_PER_CHUNK portals, and the scan loop of
    the next call returns normally after any number of positions (no
    assertion fails and every write [portals[num_portals]] is inside the
    array), with at most MAX_PORTALS_PER_CHUNK portals in both chunks.
    The build as a whole then stays inside its arrays: it returns a store
    whose chunks hold at most MAX_PORTALS_PER_CHUNK portals, or it fails
    the assertion on [n_links], and on a square map of at least one chunk
    it returns a store. *)
Theorem discovery_stays_within_capacity (w h chunk_w chunk_h : nat)
  (chunk_tiles : nat -> nat -> tile) (block : nat -> nav_chunk) :
  resolution_assertion FIELD_RES_R chunk_h = Ok tt ->
  resolution_assertion FIELD_RES_C chunk_w = Ok tt ->
  chunk_w <= 32 -> chunk_h <= 32 ->
  (exists chs0,
     build_cost_fields w h chunk_w chunk_h chunk_tiles block = Ok chs0 /\
     forall pre post, link_calls w h = pre ++ post ->
       exists mid,
         for_each pre run_link_call chs0 = Ok mid /\
         (forall idx, idx < h * w ->
            num_portals (mid idx) <= MAX_PORTALS_PER_CHUNK) /\
         (forall lc post', post = lc :: post' ->
          forall n, n <= 64 ->
            exists s,
              link_scan (mid (lc_a lc)) (lc_a lc) (lc_a_type lc)
                        (lc_a_coord lc) (mid (lc_b lc)) (lc_b lc)
                        (lc_b_type lc) (lc_b_coord lc) n = Ok s /\
              num_portals (ls_a s) <= MAX_PORTALS_PER_CHUNK /\
              num_portals (ls_b s) <= MAX_PORTALS_PER_CHUNK)) /\
  (N_BuildForMapData w h chunk_w chunk_h chunk_tiles (Some block)
   = AssertFail \/
   exists priv,
     N_BuildForMapData w h chunk_w chunk_h chunk_tiles (Some block)
     = Ok (Some priv) /\
     width priv = w /\ height priv = h /\
     forall idx, idx < h * w ->
       num_portals (chunks priv idx) <= MAX_PORTALS_PER_CHUNK) /\
  (1 <= w -> w = h ->
   exists priv,
     N_BuildForMapData w h chunk_w chunk_h chunk_tiles (Some block)
     = Ok (Some priv)).
Proof.
  intros Hrh Hrw Hw32 Hh32.
  destruct (@discovery_schedule_within_capacity w h chunk_w chunk_h
              chunk_tiles block Hrh Hrw Hw32 Hh32) as (chs0 & E0 & Hsched).
  split; [exists chs0; split; [exact E0|exact Hsched]|].
  destruct (@build_cost_fields_spec w h chunk_w chunk_h chunk_tiles block
              Hrh Hrw) as (chs1 & E1 & Heqv).
  rewrite E0 in E1. injection E1 as <-.
  destruct (Hsched (link_calls w h) [] (eq_sym (app_nil_r _)))
    as (final & Ef & Hcap & _).
  assert (El : create_portals_loops w h chs0
               = Ok (final, length (link_calls w h))).
  { rewrite create_portals_loops_schedule, Ef. reflexivity. }
  assert (Hun : unlinked w h final).
  { apply (@create_portals_loops_unlinked w h chs0
             (final, length (link_calls w h))); [|exact El].
    intros j Hj. destruct (Heqv j Hj) as (Hn & _). exact Hn. }
  destruct (link_all_chunk_portals_total Hun) as (chs' & Ec).
  assert (Hbuild : N_BuildForMapData w h chunk_w chunk_h chunk_tiles
                     (Some block)
                   = (assert (length (link_calls w h)
                              =? w * (w - 1) + h * (h - 1)) ;;;
                      Ok (Some (mkpriv w h chs')))).
  { rewrite build_unfold, Hrh, Hrw. cbn [bind]. rewrite E0. cbn [bind].
    unfold discover_and_link, n_create_portals. cbn [width height chunks].
    rewrite El. cbn [bind snd fst].
    destruct (length (link_calls w h) =? w * (w - 1) + h * (h - 1));
      cbn [assert bind]; [|reflexivity].
    cbn [width height chunks]. rewrite Ec. reflexivity. }
  split.
  - rewrite Hbuild.
    destruct (length (link_calls w h) =? w * (w - 1) + h * (h - 1));
      cbn [assert bind]; [right|left; reflexivity].
    exists (mkpriv w h chs'). split; [reflexivity|].
    split; [reflexivity|]. split; [reflexivity|].
    intros idx Hidx. cbn [chunks].
    destruct (link_all_chunk_portals_layout _ _ _ Ec idx) as (Hn & _).
    rewrite Hn. apply Hcap. exact Hidx.
  - intros Hw Hwh. rewrite Hbuild, length_link_calls by lia.
    assert (Hsq : ((w - 1) * h + w * (h - 1) =? w * (w - 1) + h * (h - 1))
                  = true)
      by (apply n_links_assertion_iff_square; lia).
    rewrite Hsq. cbn [assert bind]. eexists. reflexivity.
Qed.

Lemma found_edges_ext (self : nat) (ch ch' : nav_chunk) (i : nat)
  (js : list nat) :
  cost_field ch' = cost_field ch ->
  (forall j, midpoint (portals ch' j) = midpoint (portals ch j)) ->
  found_edges self ch' i js = found_edges self ch i js.
Proof.
  intros Hc Hm. unfold found_edges. apply flat_map_ext. intros j.
  rewrite Hc, !Hm. reflexivity.
Qed.

Lemma found_edges_targets (self : nat) (ch : nav_chunk) (i : nat)
  (js : list nat) (e : edge) :
  In e (found_edges self ch i js) ->
  exists j w, e = mkedge (PortalAt self j) w /\ In j js /\ j <> i /\
    AStar_GridPath (midpoint (portals ch i)) (midpoint (portals ch j))
                   (cost_field ch) = Some w.
Proof.
  unfold found_edges. intros H. apply in_flat_map in H.
  destruct H as (j & Hj & H).
  destruct (Nat.eqb_spec i j) as [->|Hne]; [destruct H|].
  destruct (AStar_GridPath _ _ _) as [w|] eqn:Ep; [|destruct H].
  destruct H as [<-|[]]. exists j, w. repeat split; auto.
Qed.

(** The edges found for a portal are listed by increasing target. *)
Lemma found_edges_increasing (self : nat) (ch : nav_chunk) (i a n : nat)
  (e e' j j' : nat) (w w' : float) :
  e < e' ->
  nth_error (found_edges self ch i (seq a n)) e
  = Some (mkedge (PortalAt self j) w) ->
  nth_error (found_edges self ch i (seq a n)) e'
  = Some (mkedge (PortalAt self j') w') ->
  j < j'.
Proof.
  revert e e' j j' w w'. induction n as [|n IH]; intros e e' j j' w w' He E E'.
  - destruct e; discriminate E.
  - unfold found_edges in E, E'. rewrite seq_S, flat_map_app in E, E'.
    fold (found_edges self ch i (seq a n)) in E, E'.
    fold (found_edges self ch i [a + n]) in E, E'.
    assert (Hlast : forall x, In x (found_edges self ch i [a + n]) ->
                    exists w0, x = mkedge (PortalAt self (a + n)) w0).
    { intros x Hx. apply found_edges_targets in Hx.
      destruct Hx as (j0 & w0 & -> & [<-|[]] & _). eauto. }
    assert (Hlen : length (found_edges self ch i [a + n]) <= 1).
    { unfold found_edges. cbn [flat_map]. rewrite app_nil_r.
      destruct (i =? a + n); [cbn; lia|].
      destruct (AStar_GridPath _ _ _); cbn; lia. }
    destruct (Nat.lt_ge_cases e' (length (found_edges self ch i (seq a n))))
      as [Hin'|Hout'].
    + rewrite nth_error_app1 in E' by exact Hin'.
      rewrite nth_error_app1 in E by lia.
      apply (IH e e' j j' w w' He E E').
    + rewrite nth_error_app2 in E' by exact Hout'.
      assert (Hpos : e' - length (found_edges self ch i (seq a n))
                     < length (found_edges self ch i [a + n]))
        by (apply nth_error_Some; rewrite E'; discriminate).
      apply nth_error_In in E'. apply Hlast in E'.
      destruct E' as (w0 & E'). injection E' as -> _.
      rewrite nth_error_app1 in E by lia.
      apply nth_error_In in E. apply found_edges_targets in E.
      destruct E as (j0 & w1 & E & Hj0 & _). injection E as -> _.
      apply in_seq in Hj0. lia.
Qed.

(** When the portals of a chunk have no edge yet, the linker leaves every
    portal with the list of the edges found for it, computed on the chunk
    as the linker leaves it. *)
Lemma linker_edges_final (self : nat) (ch : nav_chunk)
  (s : nav_chunk * list (coord * coord * list Z)) :
  num_portals ch <= MAX_PORTALS_PER_CHUNK ->
  (forall k, k < num_portals ch -> num_neighbours (portals ch k) = 0) ->
  n_link_chunk_portals self ch = Ok s ->
  num_portals (fst s) = num_portals ch /\
  forall k, k < num_portals ch ->
    num_neighbours (portals (fst s) k)
    = length (found_edges self (fst s) k (seq 0 (num_portals (fst s)))) /\
    forall e x,
      nth_error (found_edges self (fst s) k (seq 0 (num_portals (fst s)))) e
      = Some x ->
      edges (portals (fst s) k) e = x.
Proof.
  intros Hn Hzero E.
  destruct (@n_link_chunk_portals_spec self ch Hn) as (s' & E' & Hinv).
  { intros i Hi. rewrite (Hzero i Hi). lia. }
  rewrite E' in E. injection E as <-.
  destruct Hinv as (Np & Cb & Hdone & Hrest & _).
  split; [exact Np|]. intros k Hk.
  assert (Hext : found_edges self (fst s') k (seq 0 (num_portals (fst s')))
                 = found_edges self ch k (seq 0 (num_portals ch))).
  { rewrite Np. apply found_edges_ext.
    - apply cost_field_ext. exact Cb.
    - intros j. destruct (Nat.lt_ge_cases j (num_portals ch)) as [Hj|Hj].
      + apply (edges_appended_midpoint (Hdone j Hj)).
      + rewrite Hrest by exact Hj. reflexivity. }
  rewrite Hext.
  destruct (Hdone k Hk) as (_ & _ & _ & _ & Hnum & _ & Hnew).
  rewrite (Hzero k Hk) in Hnum, Hnew. split; [exact Hnum|].
  intros e x Hx. apply (Hnew e x Hx).
Qed.

(** The same, for every chunk of a store returned by the build. *)
Lemma build_edges_spec (w h chunk_w chunk_h : nat)
  (chunk_tiles : nat -> nat -> tile) (block : nat -> nav_chunk)
  (priv : nav_private) (idx k : nat) :
  N_BuildForMapData w h chunk_w chunk_h chunk_tiles (Some block)
  = Ok (Some priv) ->
  idx < h * w -> k < num_portals (chunks priv idx) ->
  num_portals (chunks priv idx) <= MAX_PORTALS_PER_CHUNK /\
  num_neighbours (portals (chunks priv idx) k)
  = length (found_edges idx (chunks priv idx) k
              (seq 0 (num_portals (chunks priv idx)))) /\
  forall e x,
    nth_error (found_edges idx (chunks priv idx) k
                 (seq 0 (num_portals (chunks priv idx)))) e = Some x ->
    edges (portals (chunks priv idx) k) e = x.
Proof.
  intros E Hidx Hk.
  destruct (build_stages _ _ _ _ _ _ E)
    as (chs0 & s & _ & Heqv & Es & El & _ & _).
  assert (Hzero : forall j, j < h * w -> num_portals (chs0 j) = 0).
  { intros j Hj. destruct (Heqv j Hj) as (Hn & _). exact Hn. }
  pose proof (create_portals_loops_unlinked w h chs0 Hzero Es) as Hun.
  destruct (Hun idx Hidx) as [Hcap Hfresh].
  destruct (link_all_chunk_portals_each _ _ _ El Hidx) as (res & Er & Eidx).
  destruct (@linker_edges_final _ _ _ Hcap Hfresh Er) as [Np Hedges].
  rewrite Eidx in *. split; [lia|]. apply Hedges. lia.
Qed.

(** The endpoints of a portal that is half of a pair are cells of the
    cost field: their sums cannot overflow. *)
Lemma portal_paired_sums_fit (w h : nat) (chs : nat -> nav_chunk)
  (idx k : nat) :
  portal_paired w h chs idx k -> sums_fit_int (portals (chs idx) k).
Proof.
  intros (t & idx' & k' & i0 & i1 & _ & _ & _ & _ & _ & He0 & He1 & _ & _
          & Hi & _).
  unfold sums_fit_int. rewrite He0, He1, !edge_coord_eq.
  destruct t; cbn [r c]; lia.
Qed.

(** X9.  The portal graph of a built store.  In every chunk of a store
    returned by the build, the edges of a portal [k] lead to recorded
    portals of the same chunk other than [k], by increasing slot, so that
    none is listed twice; an edge to portal [j] is there exactly when the
    pathfinder, handed the cost grid of the chunk, reports a path from the
    midpoint of [k] to the midpoint of [j] (the componentwise integer
    average of the two endpoints), and it carries the cost the pathfinder
    returned. *)
Theorem build_edges_stay_in_chunk (w h chunk_w chunk_h : nat)
  (chunk_tiles : nat -> nat -> tile) (block : nat -> nav_chunk)
  (priv : nav_private) (idx k : nat) (g : list Z) :
  N_BuildForMapData w h chunk_w chunk_h chunk_tiles (Some block)
  = Ok (Some priv) ->
  idx < h * w -> k < num_portals (chunks priv idx) ->
  is_cost_grid (chunks priv idx) g ->
  let ch := chunks priv idx in
  let mid := fun i =>
    mkcoord (Z.quot (r (endpoints0 (portals ch i))
                     + r (endpoints1 (portals ch i))) 2)
            (Z.quot (c (endpoints0 (portals ch i))
                     + c (endpoints1 (portals ch i))) 2) in
  num_neighbours (portals ch k) < num_portals ch /\
  (forall e, e < num_neighbours (portals ch k) ->
     exists j cost,
       edges (portals ch k) e = mkedge (PortalAt idx j) cost /\
       j < num_portals ch /\ j <> k /\
       AStar_GridPath (mid k) (mid j) g = Some cost) /\
  (forall j cost,
     j < num_portals ch -> j <> k ->
     AStar_GridPath (mid k) (mid j) g = Some cost ->
     has_edge idx ch k j cost) /\
  (forall e e' j j' cost cost',
     e < e' -> e' < num_neighbours (portals ch k) ->
     edges (portals ch k) e = mkedge (PortalAt idx j) cost ->
     edges (portals ch k) e' = mkedge (PortalAt idx j') cost' ->
     j < j').
Proof.
  intros E Hidx Hk Hg ch mid.
  destruct (build_edges_spec _ _ _ _ _ _ E Hidx Hk) as (Hcap & Hnum & Hnth).
  destruct (build_discovered _ _ _ _ _ _ E) as (_ & _ & Hd).
  assert (Hmid : forall i, i < num_portals ch ->
                 midpoint (portals ch i) = mid i).
  { intros i Hi. apply midpoint_spec.
    apply (@portal_paired_sums_fit w h (chunks priv) idx i).
    apply Hd; [exact Hidx|exact Hi]. }
  fold ch in Hcap, Hnum, Hnth, Hg. change (k < num_portals ch) in Hk.
  rewrite (is_cost_grid_unique Hg).
  set (es := found_edges idx ch k (seq 0 (num_portals ch))) in *.
  assert (Hget : forall e, e < num_neighbours (portals ch k) ->
                 nth_error es e = Some (edges (portals ch k) e)).
  { intros e He. destruct (nth_error es e) as [x|] eqn:Ex.
    - rewrite (Hnth e x Ex). reflexivity.
    - apply nth_error_None in Ex. lia. }
  split; [|split; [|split]].
  - rewrite Hnum. unfold es.
    pose proof (found_edges_length idx ch k (seq 0 (num_portals ch))) as Hl.
    rewrite others_count in Hl.
    destruct (Nat.leb_spec 0 k) as [_|]; [|lia].
    destruct (Nat.ltb_spec k (0 + num_portals ch)) as [_|]; [|lia].
    cbn [andb] in Hl. lia.
  - intros e He. pose proof (Hget e He) as Hx.
    apply nth_error_In in Hx. apply found_edges_targets in Hx.
    destruct Hx as (j & cost & Ee & Hj & Hne & Hp).
    exists j, cost. apply in_seq in Hj.
    split; [exact Ee|]. split; [lia|]. split; [exact Hne|].
    rewrite <- !Hmid by lia. exact Hp.
  - intros j cost Hj Hne Hp.
    assert (Hin : In (mkedge (PortalAt idx j) cost) es).
    { apply in_found_edges. split; [apply in_seq; lia|].
      split; [exact Hne|]. rewrite !Hmid by lia. exact Hp. }
    apply In_nth_error in Hin. destruct Hin as (e & Ee).
    exists e. split.
    + rewrite Hnum. apply nth_error_Some. rewrite Ee. discriminate.
    + apply (Hnth e _ Ee).
  - intros e e' j j' cost cost' He He' Ee Ee'.
    apply (@found_edges_increasing idx ch k 0 (num_portals ch)
             e e' j j' cost cost' He).
    + fold es. rewrite (Hget e ltac:(lia)), Ee. reflexivity.
    + fold es. rewrite (Hget e' He'), Ee'. reflexivity.
Qed.

(** X10.  With a pathfinder that answers the same in both directions, the
    portal graph of every chunk of a built store is symmetric: portal [k]
    has an edge to portal [j] with a given cost exactly when [j] has an
    edge to [k] with that cost. *)
Theorem build_edges_symmetric (w h chunk_w chunk_h : nat)
  (chunk_tiles : nat -> nat -> tile) (block : nat -> nav_chunk)
  (priv : nav_private) (idx k j : nat) (cost : float) :
  (forall a b field, AStar_GridPath a b field = AStar_GridPath b a field) ->
  N_BuildForMapData w h chunk_w chunk_h chunk_tiles (Some block)
  = Ok (Some priv) ->
  idx < h * w ->
  k < num_portals (chunks priv idx) -> j < num_portals (chunks priv idx) ->
  has_edge idx (chunks priv idx) k j cost ->
  has_edge idx (chunks priv idx) j k cost.
Proof.
  intros Hsym E Hidx Hk Hj (e & He & Ee).
  destruct (build_edges_spec _ _ _ _ _ _ E Hidx Hk) as (_ & Hnum & Hnth).
  destruct (build_edges_spec _ _ _ _ _ _ E Hidx Hj) as (_ & Hnum' & Hnth').
  set (ch := chunks priv idx) in *.
  assert (Hx : nth_error (found_edges idx ch k (seq 0 (num_portals ch))) e
               = Some (edges (portals ch k) e)).
  { destruct (nth_error (found_edges idx ch k (seq 0 (num_portals ch))) e)
      as [x|] eqn:Ex.
    - rewrite (Hnth e x Ex). reflexivity.
    - apply nth_error_None in Ex. lia. }
  apply nth_error_In in Hx. rewrite Ee in Hx.
  apply in_found_edges in Hx. destruct Hx as (_ & Hne & Hp).
  rewrite Hsym in Hp.
  assert (Hin : In (mkedge (PortalAt idx k) cost)
                   (found_edges idx ch j (seq 0 (num_portals ch)))).
  { apply in_found_edges. split; [apply in_seq; lia|].
    split; [intros ->; apply Hne; reflexivity|exact Hp]. }
  apply In_nth_error in Hin. destruct Hin as (e' & Ee').
  exists e'. split.
  - rewrite Hnum'. apply nth_error_Some. rewrite Ee'. discriminate.
  - apply (Hnth' e' _ Ee').
Qed.

Lemma length_pathfinder_calls (ch : nav_chunk) (i n : nat) :
  i < n -> length (pathfinder_calls ch i (seq 0 n)) = n - 1.
Proof.
  intros Hi.
  assert (G : forall js,
            length (pathfinder_calls ch i js)
            = length (filter (fun j => negb (i =? j)) js)).
  { induction js as [|j js IH]; [reflexivity|].
    unfold pathfinder_calls in *. cbn [flat_map filter].
    rewrite length_app, IH. destruct (i =? j); reflexivity. }
  rewrite G, others_count.
  destruct (Nat.leb_spec 0 i); [|lia].
  destruct (Nat.ltb_spec i (0 + n)); [|lia]. reflexivity.
Qed.

(** X11.  The portal linker calls the pathfinder once for every ordered
    pair of distinct portals of the chunk, [n * (n - 1)] times for [n]
    portals: no answer is reused, neither for the pair taken the other way
    round nor for a pair with the same midpoints. *)
Theorem linker_pathfinder_call_count (self : nat) (ch : nav_chunk) :
  num_portals ch <= MAX_PORTALS_PER_CHUNK ->
  (forall i, i < num_portals ch ->
     num_neighbours (portals ch i) + num_portals ch
     <= MAX_PORTALS_PER_CHUNK) ->
  exists ch' calls,
    n_link_chunk_portals self ch = Ok (ch', calls) /\
    length calls = num_portals ch * (num_portals ch - 1).
Proof.
  intros Hn Hroom.
  destruct (@n_link_chunk_portals_spec self ch Hn Hroom)
    as ([ch' calls] & E & _ & _ & _ & _ & Hlog).
  exists ch', calls. split; [exact E|]. cbn [snd] in Hlog. rewrite Hlog.
  rewrite (@flat_map_constant_length _ _ (num_portals ch - 1)).
  - rewrite length_seq. reflexivity.
  - intros i Hi. apply in_seq in Hi. apply length_pathfinder_calls. lia.
Qed.

(** ** The overlay of a built store *)


Lemma run_cells_cons (i0 i1 : nat) (rs : list (nat * nat)) :
  run_cells ((i0, i1) :: rs) = (i1 - i0 + 1) + run_cells rs.
Proof. reflexivity. Qed.

Lemma run_cells_snoc (rs : list (nat * nat)) (i0 i1 : nat) :
  run_cells (rs ++ [(i0, i1)]) = run_cells rs + (i1 - i0 + 1).
Proof.
  unfold run_cells. rewrite map_app, list_sum_app.
  cbn [map list_sum fold_right fst snd]. lia.
Qed.

(** The runs the scan has closed, and the run it has open, cover no more
    positions than it has seen. *)
Lemma scan_cells_bound (mask : nat -> bool) (L n : nat) :
  run_cells (runs (scan mask L n))
  + match opened (scan mask L n) with Some j0 => n - j0 | None => 0 end
  <= n.
Proof.
  induction n as [|n IH]; [reflexivity|].
  destruct (scan_runs_sound mask L n) as [_ So].
  rewrite scan_S. unfold scan_step.
  destruct (opened (scan mask L n)) as [j0|] eqn:Eo.
  - destruct (So j0 eq_refl) as [Hj _].
    destruct (mask n); cbn [negb].
    + destruct (n =? L - 1); cbn [runs opened].
      * rewrite run_cells_snoc. lia.
      * rewrite Eo. lia.
    + cbn [runs opened]. rewrite run_cells_snoc. lia.
  - destruct (mask n); cbn [runs opened].
    + lia.
    + rewrite Eo. lia.
Qed.

Lemma length_int_range (lo hi : Z) :
  length (int_range lo hi) = Z.to_nat (hi - lo + 1).
Proof. unfold int_range. rewrite length_map, length_seq. reflexivity. Qed.

Lemma length_portal_span_quads (p : portal) :
  length (portal_span_quads p)
  = Z.to_nat (Z.max (r (endpoints0 p)) (r (endpoints1 p))
              - Z.min (r (endpoints0 p)) (r (endpoints1 p)) + 1)
    * Z.to_nat (Z.max (c (endpoints0 p)) (c (endpoints1 p))
                - Z.min (c (endpoints0 p)) (c (endpoints1 p)) + 1).
Proof.
  unfold portal_span_quads. rewrite <- !length_int_range.
  induction (int_range (Z.min (r (endpoints0 p)) (r (endpoints1 p)))
                       (Z.max (r (endpoints0 p)) (r (endpoints1 p))))
    as [|row rows IH]; [reflexivity|].
  cbn [flat_map length]. rewrite length_app, length_map, IH. lia.
Qed.

(** The span of the portal of a closed run is the run. *)
Lemma length_closed_portal_span (co : coord) (t : edge_type) (i0 i1 : nat)
  (q : portal_ptr) :
  i0 <= i1 ->
  length (portal_span_quads (closed_portal co t i0 i1 q)) = i1 - i0 + 1.
Proof.
  intros Hle. rewrite length_portal_span_quads.
  destruct (closed_portal_fields co t i0 i1 q) as (_ & -> & -> & _).
  rewrite !edge_coord_eq. destruct t; cbn [r c]; lia.
Qed.

Lemma length_new_portal_quads (g : nat -> list quad) (rs : list (nat * nat)) :
  forall base,
    (forall k i0 i1, nth_error rs k = Some (i0, i1) ->
       length (g (base + k)) = i1 - i0 + 1) ->
    length (flat_map g (seq base (length rs))) = run_cells rs.
Proof.
  induction rs as [|[i0 i1] rs IH]; intros base H; [reflexivity|].
  cbn [length seq flat_map]. rewrite length_app, run_cells_cons.
  rewrite (IH (S base)).
  - specialize (H 0 i0 i1 eq_refl). rewrite Nat.add_0_r in H. lia.
  - intros k j0 j1 Hk. replace (S base + k) with (base + S k) by lia.
    apply H. exact Hk.
Qed.

(** Recording runs adds their positions to the portal quads of a
    chunk. *)
Lemma linked_portal_quads (a : nav_chunk) (t : edge_type) (co : coord)
  (b_ptr nb : nat) (rs : list (nat * nat)) (a' : nav_chunk) :
  linked a t co b_ptr nb rs a' ->
  (forall i0 i1, In (i0, i1) rs -> i0 <= i1) ->
  length (portal_quads a') = length (portal_quads a) + run_cells rs.
Proof.
  intros (_ & Hn & Hold & Hnew) Hle. unfold portal_quads.
  rewrite Hn, seq_app, flat_map_app, length_app. f_equal.
  - f_equal. rewrite !flat_map_concat_map. f_equal.
    apply map_ext_in. intros k Hk. apply in_seq in Hk.
    rewrite Hold by lia. reflexivity.
  - change (0 + num_portals a) with (num_portals a).
    apply (@length_new_portal_quads
             (fun i => portal_span_quads (portals a' i)) rs (num_portals a)).
    intros k i0 i1 Hk. cbv beta. rewrite (Hnew k i0 i1 Hk).
    apply length_closed_portal_span. apply (Hle i0 i1).
    apply nth_error_In with k. exact Hk.
Qed.

Lemma run_link_call_cells (w h : nat) (lc : link_call)
  (chs chs' : nat -> nav_chunk) (idx : nat) :
  call_ok w h lc -> run_link_call lc chs = Ok chs' ->
  length (portal_quads (chs' idx))
  <= length (portal_quads (chs idx)) + (if touches idx lc then 64 else 0).
Proof.
  intros (_ & _ & Hlt & Ht & _) E.
  pose proof (Nat.lt_neq _ _ Hlt) as Hne.
  unfold run_link_call, link_in_store in E.
  assert (Horient : same_orientation (lc_a_type lc) (lc_b_type lc))
    by (rewrite Ht; apply opposite_orientation).
  destruct (@n_link_chunks_spec (chs (lc_a lc)) (lc_a lc) (lc_a_type lc)
              (lc_a_coord lc) (chs (lc_b lc)) (lc_b lc) (lc_b_type lc)
              (lc_b_coord lc) Horient (Nat.lt_le_incl _ _ Hlt))
    as [(_ & a' & b' & E1 & La & Lb)|(_ & E1)];
    rewrite E1 in E; cbn [bind fst snd] in E; [|discriminate E].
  injection E as <-.
  pose proof (scan_cells_bound
                (crossable (chs (lc_a lc)) (lc_a_type lc)
                           (chs (lc_b lc)) (lc_b_type lc)) 64 64) as Hcells.
  assert (Hle : forall i0 i1,
            In (i0, i1)
               (runs (scan (crossable (chs (lc_a lc)) (lc_a_type lc)
                                      (chs (lc_b lc)) (lc_b_type lc)) 64 64))
            -> i0 <= i1).
  { intros i0 i1 Hin.
    destruct (scan_runs_sound
                (crossable (chs (lc_a lc)) (lc_a_type lc)
                           (chs (lc_b lc)) (lc_b_type lc)) 64 64) as [Sr _].
    destruct (Sr i0 i1 Hin) as [Hb _]. lia. }
  pose proof (linked_portal_quads La Hle) as Qa.
  pose proof (linked_portal_quads Lb Hle) as Qb.
  unfold touches.
  destruct (Nat.eq_dec idx (lc_b lc)) as [->|Hnb].
  - rewrite upd_same, Nat.eqb_refl, orb_true_r. lia.
  - destruct (Nat.eq_dec idx (lc_a lc)) as [->|Hna].
    + rewrite upd2_first by exact Hne. rewrite Nat.eqb_refl. cbn [orb]. lia.
    + rewrite upd2_other by assumption. lia.
Qed.

Lemma for_each_prefix_partial (Ix St : Type) (I : list Ix -> St -> Prop)
  (body : Ix -> St -> result St) (l : list Ix) :
  (forall pre x s s', In x l -> I pre s -> body x s = Ok s' ->
     I (pre ++ [x]) s') ->
  forall s0 s, I [] s0 -> for_each l body s0 = Ok s -> I l s.
Proof.
  intros Hstep.
  assert (G : forall post pre s0 s,
            (forall x, In x post -> In x l) ->
            I pre s0 -> for_each post body s0 = Ok s -> I (pre ++ post) s).
  { induction post as [|x post IH]; intros pre s0 s Hsub H0 E.
    - cbn in E. injection E as <-. rewrite app_nil_r. exact H0.
    - cbn [for_each] in E. apply bind_ok_inv in E.
      destruct E as (s1 & E1 & E2).
      replace (pre ++ x :: post) with ((pre ++ [x]) ++ post)
        by (rewrite <- app_assoc; reflexivity).
      apply (IH (pre ++ [x]) s1 s).
      + intros y Hy. apply Hsub. right. exact Hy.
      + apply (Hstep pre x s0 s1); [apply Hsub; left; reflexivity| |];
          assumption.
      + exact E2. }
  intros s0 s H0 E. apply (G l [] s0 s); auto.
Qed.

(** A chunk lies on at most four calls, and every call records runs of
    one edge of 64 positions. *)
Lemma create_portals_loops_cells (w h : nat)
  (chs : nat -> nav_chunk) (s : (nat -> nav_chunk) * nat) (idx : nat) :
  num_portals (chs idx) = 0 ->
  create_portals_loops w h chs = Ok s ->
  length (portal_quads (fst s idx)) <= 2 * FIELD_RES_C + 2 * FIELD_RES_R.
Proof.
  intros Hzero E. rewrite create_portals_loops_schedule in E.
  apply bind_ok_inv in E. destruct E as (chs' & E & E').
  injection E' as <-. cbn [fst].
  assert (G : length (portal_quads (chs' idx))
              <= 64 * length (filter (touches idx) (link_calls w h))).
  { revert E.
    apply (@for_each_prefix_partial link_call (nat -> nav_chunk)
             (fun pre x => length (portal_quads (x idx))
                           <= 64 * length (filter (touches idx) pre))).
    - intros pre lc s1 s2 Hin Hinv E1. apply link_calls_ok in Hin.
      pose proof (@run_link_call_cells w h lc s1 s2 idx Hin E1) as Hstep.
      rewrite touched_count_app.
      destruct (touches idx lc); lia.
    - unfold portal_quads. rewrite Hzero. cbn. lia. }
  pose proof (touches_at_most_4 w h idx) as H4.
  unfold FIELD_RES_C, FIELD_RES_R. lia.
Qed.

Lemma portal_quads_layout (c1 c2 : nav_chunk) :
  same_layout c1 c2 -> portal_quads c2 = portal_quads c1.
Proof.
  intros (Hn & _ & Hp). unfold portal_quads. rewrite Hn.
  apply flat_map_ext. intros k. unfold portal_span_quads.
  destruct (Hp k) as (_ & -> & -> & _). reflexivity.
Qed.

(** X12.  The overlay of a built store.  For every chunk of a store
    returned by the build, [N_RenderPathableChunk] returns: the yellow
    quads of the portals of the chunk, at most [2 * FIELD_RES_C + 2 *
    FIELD_RES_R] of them, fit the buffer [n_render_portals] declares for
    them, and no portal is read outside the portal array.  For chunk
    coordinates outside the map, negative ones among them, the call stops at
    its assertions. *)
Theorem overlay_of_built_store (w h chunk_w chunk_h : nat)
  (chunk_tiles : nat -> nat -> tile) (block : nat -> nav_chunk)
  (priv : nav_private) (chunk_r chunk_c : Z) :
  N_BuildForMapData w h chunk_w chunk_h chunk_tiles (Some block)
  = Ok (Some priv) ->
  let ch := chunks priv (CHUNK_IDX (Z.to_nat chunk_r) (width priv)
                                   (Z.to_nat chunk_c)) in
  ((0 <= chunk_r < Z.of_nat h)%Z /\ (0 <= chunk_c < Z.of_nat w)%Z ->
   N_RenderPathableChunk priv chunk_r chunk_c
   = Ok [portal_quads ch; cell_quads ch] /\
   length (portal_quads ch) <= 2 * FIELD_RES_C + 2 * FIELD_RES_R /\
   length (cell_quads ch) = FIELD_RES_R * FIELD_RES_C) /\
  (~ ((0 <= chunk_r < Z.of_nat h)%Z /\ (0 <= chunk_c < Z.of_nat w)%Z) ->
   N_RenderPathableChunk priv chunk_r chunk_c = AssertFail).
Proof.
  intros E ch.
  destruct (build_stages _ _ _ _ _ _ E)
    as (chs0 & s & _ & Heqv & Es & El & Hw & Hh).
  subst w h. split.
  - intros [Hr Hc].
    assert (Hidx : CHUNK_IDX (Z.to_nat chunk_r) (width priv)
                             (Z.to_nat chunk_c)
                   < height priv * width priv)
      by (apply chunk_idx_bound; lia).
    assert (Hzero : forall j, j < height priv * width priv ->
                    num_portals (chs0 j) = 0).
    { intros j Hj. destruct (Heqv j Hj) as (Hn & _). exact Hn. }
    pose proof (create_portals_loops_unlinked _ _ chs0 Hzero Es) as Hun.
    pose proof (link_all_chunk_portals_layout _ _ _ El) as Hl.
    assert (Hcap : length (portal_quads ch)
                   <= 2 * FIELD_RES_C + 2 * FIELD_RES_R).
    { unfold ch. rewrite (portal_quads_layout (Hl _)).
      apply (@create_portals_loops_cells _ _ chs0 s _ (Hzero _ Hidx) Es). }
    assert (Hn : num_portals ch <= MAX_PORTALS_PER_CHUNK).
    { unfold ch.
      destruct (Hl (CHUNK_IDX (Z.to_nat chunk_r) (width priv)
                              (Z.to_nat chunk_c))) as (-> & _).
      apply (Hun _ Hidx). }
    split; [|split; [exact Hcap|apply length_cell_quads]].
    unfold N_RenderPathableChunk, assert.
    destruct (Z.leb_spec 0 chunk_r); [|lia].
    destruct (Z.ltb_spec chunk_r (Z.of_nat (height priv))); [|lia].
    destruct (Z.leb_spec 0 chunk_c); [|lia].
    destruct (Z.ltb_spec chunk_c (Z.of_nat (width priv))); [|lia].
    cbn [andb bind]. fold ch.
    rewrite (@n_render_portals_spec ch Hn Hcap), render_cells_spec.
    cbn [bind]. rewrite length_cell_quads, Nat.eqb_refl. reflexivity.
  - intros Hout. unfold N_RenderPathableChunk, assert.
    destruct (Z.leb_spec 0 chunk_r); [|reflexivity].
    destruct (Z.ltb_spec chunk_r (Z.of_nat (height priv))); [|reflexivity].
    cbn [andb bind].
    destruct (Z.leb_spec 0 chunk_c); [|reflexivity].
    destruct (Z.ltb_spec chunk_c (Z.of_nat (width priv))); [|reflexivity].
    exfalso. apply Hout. lia.
Qed.


(** ** The path overlay *)

Lemma render_grid_path_loop (path : coord_vec) (n : nat) :
  n <= kv_size path -> n < kv_max path ->
  for_each (seq 0 n) (fun i s =>
    buf <- push_quad (kv_size path) (fst s) (mkquad (snd s) blue) ;;
    next <- kv_A path (i + 1) ;;
    Ok (buf, next)) ([], kv_a path 0)
  = Ok (map (fun i => mkquad (kv_a path i) blue) (seq 0 n), kv_a path n).
Proof.
  intros Hn Hm. induction n as [|n IH]; [reflexivity|].
  rewrite seq_S, for_each_app, IH by lia. change (0 + n) with n.
  cbn [bind for_each fst snd].
  unfold push_quad. rewrite length_map, length_seq.
  destruct (Nat.ltb_spec n (kv_size path)); [|lia]. cbn [bind].
  unfold kv_A, load.
  destruct (Nat.ltb_spec (n + 1) (kv_max path)); [|lia]. cbn [bind].
  rewrite map_app. cbn [map]. replace (n + 1) with (S n) by lia.
  reflexivity.
Qed.

(** X13.  The path overlay emits one blue quad for every cell of the
    path, in the order of the path, provided the path is not empty and its
    vector has storage for more cells than it holds.  Its loop header reads
    the element after the last cell of the path, so that on a vector whose
    storage is full the call reads past the storage; on an empty path it
    declares arrays of length zero. *)
Theorem render_grid_path_reads_one_past (path : coord_vec) :
  (0 < kv_size path < kv_max path ->
   n_render_grid_path path
   = Ok (map (fun i => mkquad (kv_a path i) blue)
             (seq 0 (kv_size path)))) /\
  (~ 0 < kv_size path < kv_max path ->
   n_render_grid_path path = OutOfBounds).
Proof.
  unfold n_render_grid_path, vla. split.
  - intros [Hpos Hmax].
    destruct (Nat.eqb_spec (4 * kv_size path) 0); [lia|].
    destruct (Nat.eqb_spec (kv_size path) 0); [lia|]. cbn [bind].
    unfold kv_A at 1. unfold load.
    destruct (Nat.ltb_spec 0 (kv_max path)); [|lia]. cbn [bind].
    rewrite (@render_grid_path_loop path (kv_size path)) by lia.
    cbn [bind fst]. unfold assert.
    rewrite length_map, length_seq, Nat.eqb_refl. reflexivity.
  - intros Hnot.
    destruct (Nat.eqb_spec (4 * kv_size path) 0); [reflexivity|].
    destruct (Nat.eqb_spec (kv_size path) 0); [lia|]. cbn [bind].
    unfold kv_A at 1. unfold load.
    destruct (Nat.ltb_spec 0 (kv_max path)); [|reflexivity]. cbn [bind].
    assert (Hfull : kv_max path <= kv_size path) by lia.
    assert (Hsplit : seq 0 (kv_size path)
                     = seq 0 (kv_max path - 1)
                       ++ (kv_max path - 1)
                          :: seq (kv_max path) (kv_size path - kv_max path)).
    { replace (kv_size path)
        with ((kv_max path - 1) + S (kv_size path - kv_max path)) at 1
        by lia.
      rewrite seq_app. cbn [seq]. change (0 + (kv_max path - 1))
        with (kv_max path - 1).
      replace (S (kv_max path - 1)) with (kv_max path) by lia.
      reflexivity. }
    rewrite Hsplit, for_each_app.
    rewrite (@render_grid_path_loop path (kv_max path - 1)) by lia.
    cbn [bind for_each fst snd]. unfold push_quad.
    rewrite length_map, length_seq.
    destruct (Nat.ltb_spec (kv_max path - 1) (kv_size path)); [|lia].
    cbn [bind]. unfold kv_A, load.
    destruct (Nat.ltb_spec (kv_max path - 1 + 1) (kv_max path)); [lia|].
    reflexivity.
Qed.


Section MapLoaderProperties.

Variable char_is_signed : bool.
Variable TILES_PER_CHUNK_WIDTH : nat.
Variable TILES_PER_CHUNK_HEIGHT : nat.

(** ** The text of a tile *)

Lemma char_at_firstn (n : nat) (str : list Ascii.ascii) (i : nat) :
  i < n -> char_at (firstn n str) i = char_at str i.
Proof.
  intros Hi. unfold char_at. rewrite nth_firstn.
  destruct (Nat.ltb_spec i n); [reflexivity|lia].
Qed.

Lemma tile_of_text_firstn (str : list Ascii.ascii) :
  tile_of_text char_is_signed (firstn 15 str) = (tile_of_text
      char_is_signed) str.
Proof.
  unfold tile_of_text.
  rewrite !(@char_at_firstn 15 str) by lia. reflexivity.
Qed.

(** X14.  [m_al_parse_tile] accepts a string for its length alone: every
    string of 24 characters is parsed, whatever the characters are, and
    every other string is refused.  Of an accepted string only the first 15
    characters are read: two strings of 24 characters that agree on them
    give the same tile. *)
Theorem parse_tile_reads_15_of_24_characters (str : list Ascii.ascii) :
  (length str <> 24 -> m_al_parse_tile char_is_signed str = None) /\
  (length str = 24 ->
   exists t, m_al_parse_tile char_is_signed str = Some t /\
     forall str', length str' = 24 -> firstn 15 str' = firstn 15 str ->
       m_al_parse_tile char_is_signed str' = Some t).
Proof.
  unfold m_al_parse_tile. split.
  - intros Hlen. destruct (Nat.eqb_spec (length str) 24); [lia|reflexivity].
  - intros Hlen. rewrite Hlen. exists (tile_of_text char_is_signed str).
    split; [reflexivity|]. intros str' Hlen' Hfirst. rewrite Hlen'.
    cbn [negb]. change (24 =? 24) with true. cbn [negb].
    rewrite <- (tile_of_text_firstn str'), Hfirst, tile_of_text_firstn.
    reflexivity.
Qed.

Lemma char_value_small (n : nat) :
  n < 128 -> char_value char_is_signed (Ascii.ascii_of_nat n) = Z.of_nat n.
Proof.
  intros Hn. unfold char_value.
  rewrite Ascii.nat_ascii_embedding by lia.
  destruct (Z.leb_spec 128 (Z.of_nat n)); [lia|].
  rewrite andb_false_r. reflexivity.
Qed.

Lemma A2I_digit (d : Z) :
  (0 <= d <= 9)%Z -> A2I char_is_signed (Ascii.ascii_of_nat (Z.to_nat (48 +
      d))) = d.
Proof.
  intros Hd. unfold A2I. rewrite char_value_small by lia. lia.
Qed.

Lemma strtol_hex_digit_of (v : Z) :
  (0 <= v <= 15)%Z ->
  strtol_hex_digit
    (Ascii.ascii_of_nat (Z.to_nat (if (v <? 10)%Z then 48 + v else 55 + v)))
  = v.
Proof.
  intros Hv. unfold strtol_hex_digit.
  rewrite Ascii.nat_ascii_embedding by (destruct (v <? 10)%Z; lia).
  destruct (Z.ltb_spec v 10).
  - destruct (Nat.leb_spec 48 (Z.to_nat (48 + v))); [|lia].
    destruct (Nat.leb_spec (Z.to_nat (48 + v)) 57); [|lia].
    cbn [andb]. lia.
  - destruct (Nat.leb_spec 48 (Z.to_nat (55 + v))); [|lia].
    destruct (Nat.leb_spec (Z.to_nat (55 + v)) 57); [lia|].
    cbn [andb].
    destruct (Nat.leb_spec 65 (Z.to_nat (55 + v))); [|lia].
    destruct (Nat.leb_spec (Z.to_nat (55 + v)) 70); [|lia].
    cbn [andb]. lia.
Qed.

Lemma two_digits (x : Z) :
  (0 <= x <= 99)%Z ->
  (0 <= x / 10 <= 9)%Z /\ (0 <= x mod 10 <= 9)%Z /\
  (10 * (x / 10) + x mod 10 = x)%Z.
Proof.
  intros Hx. pose proof (Z.div_mod x 10 ltac:(lia)).
  pose proof (Z.mod_pos_bound x 10 ltac:(lia)).
  assert (0 <= x / 10)%Z by (apply Z.div_pos; lia).
  assert (x / 10 < 10)%Z by (apply Z.div_lt_upper_bound; lia).
  lia.
Qed.

Lemma three_digits (x : Z) :
  (0 <= x <= 999)%Z ->
  (0 <= x / 100 <= 9)%Z /\ (0 <= x / 10 mod 10 <= 9)%Z /\
  (0 <= x mod 10 <= 9)%Z /\
  (100 * (x / 100) + 10 * (x / 10 mod 10) + x mod 10 = x)%Z.
Proof.
  intros Hx. pose proof (Z.div_mod x 10 ltac:(lia)).
  pose proof (Z.mod_pos_bound x 10 ltac:(lia)).
  pose proof (Z.div_mod (x / 10) 10 ltac:(lia)).
  pose proof (Z.mod_pos_bound (x / 10) 10 ltac:(lia)).
  assert (E : (x / 10 / 10 = x / 100)%Z)
    by (rewrite Z.div_div by lia; reflexivity).
  assert (0 <= x / 100)%Z by (apply Z.div_pos; lia).
  assert (x / 100 < 10)%Z by (apply Z.div_lt_upper_bound; lia).
  lia.
Qed.

(** X15.  The text of a tile can say every tile whose members are in the
    range of their digits: for a type from 0 to 15, a base height from -99
    to 99, a ramp height from 0 to 99, material indices from 0 to 999 and a
    blend mode from 0 to 9, with either value of the two flags, there is a
    string that [m_al_parse_tile] turns into that tile. *)
Theorem every_tile_in_range_has_a_text (t : map_tile) :
  (0 <= type (nav_part t) <= 15)%Z ->
  (0 <= ramp_height (nav_part t) <= 99)%Z ->
  (-99 <= base_height t <= 99)%Z ->
  (0 <= top_mat_idx t <= 999)%Z ->
  (0 <= sides_mat_idx t <= 999)%Z ->
  (0 <= blend_mode t <= 9)%Z ->
  exists str, m_al_parse_tile char_is_signed str = Some t.
Proof.
  destruct t as [[p ty rh] bh tm sm bm bn].
  cbn [nav_part type ramp_height base_height top_mat_idx sides_mat_idx
       blend_mode].
  intros Hty Hrh Hbh Htm Hsm Hbm.
  pose (digit := fun d : Z => Ascii.ascii_of_nat (Z.to_nat (48 + d))).
  pose (flag := fun b : bool => digit (if b then 1 else 0)%Z).
  exists ([Ascii.ascii_of_nat
             (Z.to_nat (if (ty <? 10)%Z then 48 + ty else 55 + ty));
           (if (bh <? 0)%Z then "-" else "+")%char;
           digit (Z.abs bh / 10)%Z; digit (Z.abs bh mod 10)%Z;
           digit (rh / 10)%Z; digit (rh mod 10)%Z;
           digit (tm / 100)%Z; digit (tm / 10 mod 10)%Z; digit (tm mod 10)%Z;
           digit (sm / 100)%Z; digit (sm / 10 mod 10)%Z; digit (sm mod 10)%Z;
           flag p; digit bm; flag bn]
          ++ repeat "0"%char 9).
  unfold m_al_parse_tile. cbn [length app repeat].
  change (24 =? 24) with true. cbn [negb]. f_equal.
  unfold tile_of_text, char_at. cbn [nth app repeat].
  destruct (@two_digits (Z.abs bh) ltac:(lia)) as (B1 & B0 & Eb).
  destruct (@two_digits rh Hrh) as (R1 & R0 & Er).
  destruct (@three_digits tm Htm) as (T2 & T1 & T0 & Et).
  destruct (@three_digits sm Hsm) as (S2 & S1 & S0 & Es).
  unfold flag, digit.
  rewrite strtol_hex_digit_of by exact Hty.
  assert (Hp : (0 <= (if p then 1 else 0) <= 9)%Z) by (destruct p; lia).
  assert (Hn : (0 <= (if bn then 1 else 0) <= 9)%Z) by (destruct bn; lia).
  rewrite (@A2I_digit _ B1), (@A2I_digit _ B0), (@A2I_digit _ R1),
    (@A2I_digit _ R0), (@A2I_digit _ T2), (@A2I_digit _ T1),
    (@A2I_digit _ T0), (@A2I_digit _ S2), (@A2I_digit _ S1),
    (@A2I_digit _ S0), (@A2I_digit _ Hp), (@A2I_digit _ Hn),
    (@A2I_digit _ Hbm).
  rewrite Er, Et, Es, Eb.
  assert (Hsign : ((if Ascii.eqb (if (bh <? 0)%Z then "-" else "+")%char
                                 "-"%char
                    then -1 else 1) * Z.abs bh = bh)%Z).
  { destruct (Z.ltb_spec bh 0).
    - change (Ascii.eqb "-"%char "-"%char) with true. cbv iota. lia.
    - change (Ascii.eqb "+"%char "-"%char) with false. cbv iota. lia. }
  rewrite Hsign. destruct p, bn; reflexivity.
Qed.

(** ** The tiles of a chunk *)

Lemma parse_tile_text (str : list Ascii.ascii) :
  tile_text str -> m_al_parse_tile char_is_signed str = Some ((tile_of_text
      char_is_signed) str).
Proof.
  unfold tile_text, m_al_parse_tile. intros ->. reflexivity.
Qed.

Lemma parse_tile_some (str : list Ascii.ascii) (t : map_tile) :
  m_al_parse_tile char_is_signed str = Some t -> tile_text str /\ t =
      tile_of_text char_is_signed str.
Proof.
  unfold tile_text, m_al_parse_tile.
  destruct (Nat.eqb_spec (length str) 24) as [E|_]; cbn [negb];
    [|discriminate].
  intros H. injection H as <-. split; [exact E|reflexivity].
Qed.

Lemma write_tiles_nil (tiles : nat -> map_tile) (base i : nat) :
  write_tiles tiles base [] i = tiles i.
Proof.
  unfold write_tiles. destruct (base <=? i); [|reflexivity].
  destruct (i - base); reflexivity.
Qed.

Lemma write_tiles_cons (tiles : nat -> map_tile) (base : nat) (t : map_tile)
  (ts : list map_tile) (i : nat) :
  write_tiles (upd tiles base t) (base + 1) ts i
  = write_tiles tiles base (t :: ts) i.
Proof.
  unfold write_tiles, upd.
  destruct (Nat.leb_spec (base + 1) i) as [H1|H1];
    destruct (Nat.leb_spec base i) as [H0|H0]; try lia.
  - replace (i - base) with (S (i - (base + 1))) by lia. cbn [nth_error].
    destruct (nth_error ts (i - (base + 1))); [reflexivity|].
    destruct (Nat.eqb_spec i base); [lia|reflexivity].
  - replace i with base by lia. rewrite Nat.eqb_refl, Nat.sub_diag.
    reflexivity.
  - destruct (Nat.eqb_spec i base); [lia|reflexivity].
Qed.

Lemma write_tiles_ext (t1 t2 : nat -> map_tile) (base : nat)
  (ts : list map_tile) (i : nat) :
  (forall j, t1 j = t2 j) -> write_tiles t1 base ts i = write_tiles t2 base ts
      i.
Proof.
  intros H. unfold write_tiles. rewrite H. reflexivity.
Qed.

Lemma write_tiles_app (tiles : nat -> map_tile) (base : nat)
  (ts us : list map_tile) (i : nat) :
  write_tiles (write_tiles tiles base ts) (base + length ts) us i
  = write_tiles tiles base (ts ++ us) i.
Proof.
  unfold write_tiles.
  destruct (Nat.leb_spec (base + length ts) i) as [H1|H1];
    destruct (Nat.leb_spec base i) as [H0|H0]; try lia.
  - rewrite nth_error_app2 by lia.
    replace (i - base - length ts) with (i - (base + length ts)) by lia.
    destruct (nth_error us (i - (base + length ts))); [reflexivity|].
    assert (E : nth_error ts (i - base) = None)
      by (apply nth_error_None; lia).
    rewrite E. reflexivity.
  - rewrite nth_error_app1 by lia. reflexivity.
  - reflexivity.
Qed.

(** A row of well-formed tokens that fits the array is written to it,
    token by token. *)
Lemma read_row_tokens_ok (tokens : list (list Ascii.ascii)) :
  forall (tiles : nat -> map_tile) (base nread : nat),
    Forall tile_text tokens ->
    base + nread + length tokens <= TILES_PER_CHUNK TILES_PER_CHUNK_WIDTH
        TILES_PER_CHUNK_HEIGHT ->
    exists tiles',
      read_row_tokens char_is_signed TILES_PER_CHUNK_WIDTH
          TILES_PER_CHUNK_HEIGHT tokens tiles base nread
      = Ok (true, tiles', nread + length tokens) /\
      forall i, tiles' i
                = write_tiles tiles (base + nread)
                              (map (tile_of_text char_is_signed) tokens) i.
Proof.
  induction tokens as [|tok tokens IH]; intros tiles base nread Hall Hfit.
  - exists tiles. cbn [read_row_tokens length map].
    rewrite Nat.add_0_r. split; [reflexivity|].
    intros i. rewrite write_tiles_nil. reflexivity.
  - inversion Hall as [|x l Htok Hrest]; subst x l.
    cbn [read_row_tokens length map] in *.
    rewrite (parse_tile_text Htok). unfold store.
    destruct (Nat.ltb_spec (base + nread) (TILES_PER_CHUNK
        TILES_PER_CHUNK_WIDTH TILES_PER_CHUNK_HEIGHT)); [|lia].
    cbn [bind].
    destruct (IH (upd tiles (base + nread) (tile_of_text char_is_signed
        tok)) base
                 (nread + 1) Hrest ltac:(lia)) as (tiles' & E & Hpt).
    exists tiles'. split.
    + rewrite E. f_equal. f_equal. lia.
    + intros i. rewrite Hpt.
      replace (base + (nread + 1)) with (base + nread + 1) by lia.
      apply write_tiles_cons.
Qed.

(** A row of well-formed tokens that does not fit the array is written
    past its end. *)
Lemma read_row_tokens_overflow (tokens : list (list Ascii.ascii)) :
  forall (tiles : nat -> map_tile) (base nread : nat),
    Forall tile_text tokens ->
    base + nread <= TILES_PER_CHUNK TILES_PER_CHUNK_WIDTH
        TILES_PER_CHUNK_HEIGHT ->
    TILES_PER_CHUNK TILES_PER_CHUNK_WIDTH TILES_PER_CHUNK_HEIGHT < base +
        nread + length tokens ->
    read_row_tokens char_is_signed TILES_PER_CHUNK_WIDTH
        TILES_PER_CHUNK_HEIGHT tokens tiles base nread = OutOfBounds.
Proof.
  induction tokens as [|tok tokens IH];
    intros tiles base nread Hall Hin Hover.
  - cbn [length] in Hover. lia.
  - inversion Hall as [|x l Htok Hrest]; subst x l.
    cbn [read_row_tokens length] in *.
    rewrite (parse_tile_text Htok). unfold store.
    destruct (Nat.ltb_spec (base + nread) (TILES_PER_CHUNK
        TILES_PER_CHUNK_WIDTH TILES_PER_CHUNK_HEIGHT));
      [|reflexivity].
    cbn [bind]. apply IH; [exact Hrest|lia|lia].
Qed.

(** What a row that is read to its end has done. *)
Lemma read_row_tokens_true (tokens : list (list Ascii.ascii)) :
  forall (tiles tiles' : nat -> map_tile) (base nread k : nat),
    read_row_tokens char_is_signed TILES_PER_CHUNK_WIDTH
        TILES_PER_CHUNK_HEIGHT tokens tiles base nread
    = Ok (true, tiles', k) ->
    Forall tile_text tokens /\ k = nread + length tokens /\
    (tokens = [] \/ base + k <= TILES_PER_CHUNK TILES_PER_CHUNK_WIDTH
        TILES_PER_CHUNK_HEIGHT) /\
    forall i, tiles' i
              = write_tiles tiles (base + nread)
                            (map (tile_of_text char_is_signed) tokens) i.
Proof.
  induction tokens as [|tok tokens IH]; intros tiles tiles' base nread k E.
  - cbn [read_row_tokens] in E. injection E as <- <-.
    split; [constructor|]. split; [cbn [length]; lia|].
    split; [left; reflexivity|].
    intros i. cbn [map]. rewrite write_tiles_nil. reflexivity.
  - cbn [read_row_tokens] in E.
    destruct (m_al_parse_tile char_is_signed tok) as [t|] eqn:Ep;
        [|discriminate E].
    apply parse_tile_some in Ep. destruct Ep as [Htok ->].
    unfold store in E.
    destruct (Nat.ltb_spec (base + nread) (TILES_PER_CHUNK
        TILES_PER_CHUNK_WIDTH TILES_PER_CHUNK_HEIGHT));
      [|discriminate E].
    cbn [bind] in E. apply IH in E.
    destruct E as (Hall & -> & Hfit & Hpt).
    split; [constructor; assumption|]. split; [cbn [length]; lia|].
    split.
    + right. destruct Hfit as [->|Hfit]; [cbn [length]; lia|lia].
    + intros i. rewrite Hpt. cbn [map].
      replace (base + (nread + 1)) with (base + nread + 1) by lia.
      apply write_tiles_cons.
Qed.

Lemma tokens_of_cons (line : list Ascii.ascii)
  (lines : list (list Ascii.ascii)) :
  tokens_of (line :: lines) = strtok_all line ++ tokens_of lines.
Proof. reflexivity. Qed.

Lemma tokens_of_last (line : list Ascii.ascii) :
  tokens_of [line] = strtok_all line.
Proof. unfold tokens_of. cbn [flat_map]. apply app_nil_r. Qed.

Lemma read_pfchunk_loop_done (stream : list (list Ascii.ascii))
  (tiles : nat -> map_tile) (n : nat) :
  TILES_PER_CHUNK_WIDTH * TILES_PER_CHUNK_HEIGHT <= n ->
  read_pfchunk_loop char_is_signed TILES_PER_CHUNK_WIDTH
      TILES_PER_CHUNK_HEIGHT stream tiles n = Ok (true, tiles, stream).
Proof.
  intros Hn. destruct stream; cbn [read_pfchunk_loop];
    destruct (Nat.ltb_spec n (TILES_PER_CHUNK_WIDTH * TILES_PER_CHUNK_HEIGHT));
    try lia; reflexivity.
Qed.

Lemma read_pfchunk_loop_line (line : list Ascii.ascii)
  (rest : list (list Ascii.ascii)) (tiles : nat -> map_tile) (n : nat) :
  n < TILES_PER_CHUNK_WIDTH * TILES_PER_CHUNK_HEIGHT ->
  read_pfchunk_loop char_is_signed TILES_PER_CHUNK_WIDTH
      TILES_PER_CHUNK_HEIGHT (line :: rest) tiles n
  = (res <- read_row_tokens char_is_signed TILES_PER_CHUNK_WIDTH
      TILES_PER_CHUNK_HEIGHT (strtok_all line) tiles n 0 ;;
     match res with
     | (true, tiles', tiles_in_row) =>
         read_pfchunk_loop char_is_signed TILES_PER_CHUNK_WIDTH
             TILES_PER_CHUNK_HEIGHT rest tiles' (n + tiles_in_row)
     | (false, tiles', _) => Ok (false, tiles', rest)
     end).
Proof.
  intros Hn. cbn [read_pfchunk_loop].
  destruct (Nat.ltb_spec n (TILES_PER_CHUNK_WIDTH * TILES_PER_CHUNK_HEIGHT));
    [reflexivity|lia].
Qed.

(** The loop of [m_al_read_pfchunk] is the loop of the source: while
    tiles are missing it calls [m_al_read_row] on the rest of the array,
    and stops with [false] when that call does. *)
Lemma read_pfchunk_loop_calls_read_row (stream : list (list Ascii.ascii))
  (tiles : nat -> map_tile) (n : nat) :
  read_pfchunk_loop char_is_signed TILES_PER_CHUNK_WIDTH
      TILES_PER_CHUNK_HEIGHT stream tiles n
  = if n <? TILES_PER_CHUNK_WIDTH * TILES_PER_CHUNK_HEIGHT then
      res <- m_al_read_row char_is_signed TILES_PER_CHUNK_WIDTH
          TILES_PER_CHUNK_HEIGHT stream tiles n 0 ;;
      match res with
      | (true, tiles', tiles_in_row, rest) =>
          read_pfchunk_loop char_is_signed TILES_PER_CHUNK_WIDTH
              TILES_PER_CHUNK_HEIGHT rest tiles' (n + tiles_in_row)
      | (false, tiles', _, rest) => Ok (false, tiles', rest)
      end
    else Ok (true, tiles, stream).
Proof.
  destruct (Nat.ltb_spec n (TILES_PER_CHUNK_WIDTH * TILES_PER_CHUNK_HEIGHT))
    as [Hn|Hn]; [|apply read_pfchunk_loop_done; exact Hn].
  destruct stream as [|line rest].
  - cbn [read_pfchunk_loop m_al_read_row READ_LINE bind].
    destruct (Nat.ltb_spec n (TILES_PER_CHUNK_WIDTH * TILES_PER_CHUNK_HEIGHT));
      [reflexivity|lia].
  - rewrite read_pfchunk_loop_line by exact Hn.
    unfold m_al_read_row. cbn [READ_LINE].
    destruct (read_row_tokens char_is_signed TILES_PER_CHUNK_WIDTH
        TILES_PER_CHUNK_HEIGHT (strtok_all line) tiles n 0)
      as [[[[] tiles'] k]| | |]; reflexivity.
Qed.

Lemma read_pfchunk_loop_ok (last : list Ascii.ascii)
  (rest : list (list Ascii.ascii)) (pre : list (list Ascii.ascii)) :
  forall (tiles : nat -> map_tile) (n : nat),
    Forall tile_text (tokens_of (pre ++ [last])) ->
    n + length (tokens_of pre)
    < TILES_PER_CHUNK_WIDTH * TILES_PER_CHUNK_HEIGHT ->
    n + length (tokens_of (pre ++ [last]))
    = TILES_PER_CHUNK_WIDTH * TILES_PER_CHUNK_HEIGHT ->
    exists tiles',
      read_pfchunk_loop char_is_signed TILES_PER_CHUNK_WIDTH
          TILES_PER_CHUNK_HEIGHT (pre ++ last :: rest) tiles n
      = Ok (true, tiles', rest) /\
      forall i, tiles' i
                = write_tiles tiles n
                    (map (tile_of_text char_is_signed)
                         (tokens_of (pre ++ [last]))) i.
Proof.
  induction pre as [|line pre IH]; intros tiles n Hall Hless Hfull.
  - cbn [app] in *. rewrite tokens_of_last in *.
    unfold tokens_of in Hless. cbn [flat_map length] in Hless.
    rewrite read_pfchunk_loop_line by lia.
    destruct (@read_row_tokens_ok (strtok_all last) tiles n 0 Hall)
      as (tiles' & E & Hpt); [unfold TILES_PER_CHUNK; lia|].
    rewrite E. cbn [bind].
    rewrite read_pfchunk_loop_done by lia.
    exists tiles'. split; [reflexivity|].
    intros i. rewrite Hpt. rewrite Nat.add_0_r. reflexivity.
  - cbn [app] in *. rewrite tokens_of_cons in *.
    rewrite length_app in *. apply Forall_app in Hall.
    destruct Hall as [Hline Hall].
    rewrite read_pfchunk_loop_line by lia.
    destruct (@read_row_tokens_ok (strtok_all line) tiles n 0 Hline)
      as (tiles1 & E & Hpt1); [unfold TILES_PER_CHUNK; lia|].
    rewrite E. cbn [bind].
    destruct (IH tiles1 (n + (0 + length (strtok_all line))) Hall
                 ltac:(lia) ltac:(lia)) as (tiles' & E' & Hpt).
    exists tiles'. split; [exact E'|].
    intros i. rewrite Hpt, map_app, <- write_tiles_app.
    rewrite length_map.
    replace (n + (0 + length (strtok_all line)))
      with (n + length (strtok_all line)) by lia.
    apply write_tiles_ext. intros j. rewrite Hpt1, Nat.add_0_r.
    reflexivity.
Qed.

(** X16.  [m_al_read_pfchunk] reads the tiles of a chunk from the tokens
    of the stream, whatever the way the text is cut into lines.  When the
    lines up to some line hold exactly [TILES_PER_CHUNK_WIDTH *
    TILES_PER_CHUNK_HEIGHT] tokens, each of the length of a tile, and fewer
    before that line, the function returns [true], has taken these lines
    and no other off the stream, and has filled the array with the tiles of
    the tokens in the order of the text. *)
Theorem read_pfchunk_fills_the_chunk (pre : list (list Ascii.ascii))
  (last : list Ascii.ascii) (rest : list (list Ascii.ascii))
  (tiles : nat -> map_tile) :
  Forall tile_text (tokens_of (pre ++ [last])) ->
  length (tokens_of pre) < TILES_PER_CHUNK_WIDTH * TILES_PER_CHUNK_HEIGHT ->
  length (tokens_of (pre ++ [last]))
  = TILES_PER_CHUNK_WIDTH * TILES_PER_CHUNK_HEIGHT ->
  exists tiles',
    m_al_read_pfchunk char_is_signed TILES_PER_CHUNK_WIDTH
        TILES_PER_CHUNK_HEIGHT (pre ++ last :: rest) tiles
    = Ok (true, tiles', rest) /\
    (forall i tok, nth_error (tokens_of (pre ++ [last])) i = Some tok ->
       tiles' i = tile_of_text char_is_signed tok) /\
    (forall i, TILES_PER_CHUNK_WIDTH * TILES_PER_CHUNK_HEIGHT <= i ->
       tiles' i = tiles i).
Proof.
  intros Hall Hless Hfull. unfold m_al_read_pfchunk.
  destruct (@read_pfchunk_loop_ok last rest pre tiles 0 Hall
              ltac:(lia) ltac:(lia)) as (tiles' & E & Hpt).
  exists tiles'. split; [exact E|]. split.
  - intros i tok Htok. rewrite Hpt. unfold write_tiles.
    cbn [Nat.leb]. change (0 <=? i) with true. cbv iota.
    rewrite Nat.sub_0_r, nth_error_map, Htok. reflexivity.
  - intros i Hi. rewrite Hpt. unfold write_tiles.
    change (0 <=? i) with true. cbv iota. rewrite Nat.sub_0_r.
    assert (En : nth_error (map (tile_of_text char_is_signed) (tokens_of (pre
        ++ [last]))) i
                 = None)
      by (apply nth_error_None; rewrite length_map; lia).
    rewrite En. reflexivity.
Qed.

Lemma read_pfchunk_loop_overflow (last : list Ascii.ascii)
  (rest : list (list Ascii.ascii)) (pre : list (list Ascii.ascii)) :
  forall (tiles : nat -> map_tile) (n : nat),
    Forall tile_text (tokens_of (pre ++ [last])) ->
    n + length (tokens_of pre)
    < TILES_PER_CHUNK_WIDTH * TILES_PER_CHUNK_HEIGHT ->
    TILES_PER_CHUNK_WIDTH * TILES_PER_CHUNK_HEIGHT
    < n + length (tokens_of (pre ++ [last])) ->
    read_pfchunk_loop char_is_signed TILES_PER_CHUNK_WIDTH
        TILES_PER_CHUNK_HEIGHT (pre ++ last :: rest) tiles n = OutOfBounds.
Proof.
  induction pre as [|line pre IH]; intros tiles n Hall Hless Hover.
  - cbn [app] in *. rewrite tokens_of_last in *.
    unfold tokens_of in Hless. cbn [flat_map length] in Hless.
    rewrite read_pfchunk_loop_line by lia.
    rewrite (@read_row_tokens_overflow (strtok_all last) tiles n 0 Hall);
      [reflexivity|unfold TILES_PER_CHUNK; lia|unfold TILES_PER_CHUNK; lia].
  - cbn [app] in *. rewrite tokens_of_cons in *.
    rewrite length_app in *. apply Forall_app in Hall.
    destruct Hall as [Hline Hall].
    rewrite read_pfchunk_loop_line by lia.
    destruct (@read_row_tokens_ok (strtok_all line) tiles n 0 Hline)
      as (tiles1 & E & _); [unfold TILES_PER_CHUNK; lia|].
    rewrite E. cbn [bind]. apply IH; [exact Hall|lia|lia].
Qed.

(** X17.  [m_al_read_pfchunk] does not check a row against what is left
    of the chunk.  When the line that completes the chunk holds more tokens
    than the chunk still lacks, all of the length of a tile, the tiles in
    excess are written past the end of the array [tiles]. *)
Theorem read_pfchunk_row_overflow (pre : list (list Ascii.ascii))
  (last : list Ascii.ascii) (rest : list (list Ascii.ascii))
  (tiles : nat -> map_tile) :
  Forall tile_text (tokens_of (pre ++ [last])) ->
  length (tokens_of pre) < TILES_PER_CHUNK_WIDTH * TILES_PER_CHUNK_HEIGHT ->
  TILES_PER_CHUNK_WIDTH * TILES_PER_CHUNK_HEIGHT
  < length (tokens_of (pre ++ [last])) ->
  m_al_read_pfchunk char_is_signed TILES_PER_CHUNK_WIDTH
      TILES_PER_CHUNK_HEIGHT (pre ++ last :: rest) tiles = OutOfBounds.
Proof.
  intros Hall Hless Hover. unfold m_al_read_pfchunk.
  apply read_pfchunk_loop_overflow; [exact Hall|lia|lia].
Qed.

Lemma read_pfchunk_loop_true (stream : list (list Ascii.ascii)) :
  forall (tiles tiles' : nat -> map_tile) (n : nat)
         (rest : list (list Ascii.ascii)),
    n < TILES_PER_CHUNK_WIDTH * TILES_PER_CHUNK_HEIGHT ->
    read_pfchunk_loop char_is_signed TILES_PER_CHUNK_WIDTH
        TILES_PER_CHUNK_HEIGHT stream tiles n = Ok (true, tiles', rest) ->
    exists pre last,
      stream = pre ++ last :: rest /\
      Forall tile_text (tokens_of (pre ++ [last])) /\
      n + length (tokens_of pre)
      < TILES_PER_CHUNK_WIDTH * TILES_PER_CHUNK_HEIGHT /\
      n + length (tokens_of (pre ++ [last]))
      = TILES_PER_CHUNK_WIDTH * TILES_PER_CHUNK_HEIGHT.
Proof.
  induction stream as [|line stream IH]; intros tiles tiles' n rest Hn E.
  - cbn [read_pfchunk_loop] in E.
    destruct (Nat.ltb_spec n (TILES_PER_CHUNK_WIDTH * TILES_PER_CHUNK_HEIGHT));
      [discriminate E|lia].
  - rewrite read_pfchunk_loop_line in E by exact Hn.
    apply bind_ok_inv in E. destruct E as ([[ok tiles1] k] & Erow & E).
    destruct ok; [|discriminate E].
    apply read_row_tokens_true in Erow.
    destruct Erow as (Hline & -> & Hfit & _).
    destruct (Nat.lt_ge_cases (n + (0 + length (strtok_all line)))
                (TILES_PER_CHUNK_WIDTH * TILES_PER_CHUNK_HEIGHT))
      as [Hmore|Hdone].
    + destruct (IH tiles1 tiles' _ rest Hmore E)
        as (pre & last & -> & Hall & Hless & Hfull).
      exists (line :: pre), last. cbn [app]. rewrite !tokens_of_cons.
      rewrite !length_app. split; [reflexivity|].
      split; [apply Forall_app; split; assumption|]. split; lia.
    + rewrite read_pfchunk_loop_done in E by exact Hdone.
      injection E as _ <-.
      exists [], line. cbn [app]. rewrite tokens_of_last.
      split; [reflexivity|]. split; [exact Hline|].
      unfold tokens_of. cbn [flat_map length]. split; [lia|].
      destruct Hfit as [Hnil|Hfit].
      * rewrite Hnil in *. cbn [length] in *. lia.
      * unfold TILES_PER_CHUNK in Hfit. lia.
Qed.

(** A row whose tokens run over the end of the array, well formed up to
    the first one in excess, is written past the end. *)
Lemma read_row_tokens_runs_over (tokens : list (list Ascii.ascii)) :
  forall (tiles : nat -> map_tile) (base nread : nat),
    base + nread
    <= TILES_PER_CHUNK TILES_PER_CHUNK_WIDTH TILES_PER_CHUNK_HEIGHT ->
    TILES_PER_CHUNK TILES_PER_CHUNK_WIDTH TILES_PER_CHUNK_HEIGHT
    - (base + nread) < length tokens ->
    Forall tile_text
      (firstn (TILES_PER_CHUNK TILES_PER_CHUNK_WIDTH TILES_PER_CHUNK_HEIGHT
               - (base + nread) + 1) tokens) ->
    read_row_tokens char_is_signed TILES_PER_CHUNK_WIDTH
        TILES_PER_CHUNK_HEIGHT tokens tiles base nread = OutOfBounds.
Proof.
  set (cap := TILES_PER_CHUNK TILES_PER_CHUNK_WIDTH TILES_PER_CHUNK_HEIGHT).
  induction tokens as [|tok tokens IH]; intros tiles base nread Hin Hlen Hall.
  - cbn [length] in Hlen. lia.
  - replace (cap - (base + nread) + 1) with (S (cap - (base + nread)))
      in Hall by lia.
    cbn [firstn] in Hall.
    inversion Hall as [|x l Htok Hrest]; subst x l.
    cbn [read_row_tokens length] in *.
    rewrite (parse_tile_text Htok). unfold store. fold cap.
    destruct (Nat.ltb_spec (base + nread) cap) as [Hlt|Hge]; [|reflexivity].
    cbn [bind]. apply IH; [lia|lia|].
    replace (cap - (base + (nread + 1)) + 1) with (cap - (base + nread))
      by lia.
    exact Hrest.
Qed.

(** No other row is. *)
Lemma read_row_tokens_past_end (tokens : list (list Ascii.ascii)) :
  forall (tiles : nat -> map_tile) (base nread : nat),
    base + nread
    <= TILES_PER_CHUNK TILES_PER_CHUNK_WIDTH TILES_PER_CHUNK_HEIGHT ->
    read_row_tokens char_is_signed TILES_PER_CHUNK_WIDTH
        TILES_PER_CHUNK_HEIGHT tokens tiles base nread = OutOfBounds ->
    TILES_PER_CHUNK TILES_PER_CHUNK_WIDTH TILES_PER_CHUNK_HEIGHT
    - (base + nread) < length tokens /\
    Forall tile_text
      (firstn (TILES_PER_CHUNK TILES_PER_CHUNK_WIDTH TILES_PER_CHUNK_HEIGHT
               - (base + nread) + 1) tokens).
Proof.
  set (cap := TILES_PER_CHUNK TILES_PER_CHUNK_WIDTH TILES_PER_CHUNK_HEIGHT).
  induction tokens as [|tok tokens IH]; intros tiles base nread Hin E.
  - discriminate E.
  - cbn [read_row_tokens] in E.
    destruct (m_al_parse_tile char_is_signed tok) as [t|] eqn:Ep;
      [|discriminate E].
    apply parse_tile_some in Ep. destruct Ep as [Htok ->].
    unfold store in E. fold cap in E.
    replace (cap - (base + nread) + 1) with (S (cap - (base + nread)))
      by lia.
    cbn [firstn length].
    destruct (Nat.ltb_spec (base + nread) cap) as [Hlt|Hge].
    + cbn [bind] in E. apply IH in E; [|lia].
      destruct E as [Hlen Hall].
      replace (cap - (base + (nread + 1)) + 1) with (cap - (base + nread))
        in Hall by lia.
      split; [lia|]. constructor; assumption.
    + replace (cap - (base + nread)) with 0 by lia.
      split; [lia|]. constructor; [exact Htok|constructor].
Qed.

(** A row returns, or is written past the end of the array: no assertion
    is involved. *)
Lemma read_row_tokens_outcome (tokens : list (list Ascii.ascii)) :
  forall (tiles : nat -> map_tile) (base nread : nat),
    (exists res,
       read_row_tokens char_is_signed TILES_PER_CHUNK_WIDTH
           TILES_PER_CHUNK_HEIGHT tokens tiles base nread = Ok res) \/
    read_row_tokens char_is_signed TILES_PER_CHUNK_WIDTH
        TILES_PER_CHUNK_HEIGHT tokens tiles base nread = OutOfBounds.
Proof.
  induction tokens as [|tok tokens IH]; intros tiles base nread;
    cbn [read_row_tokens].
  - left. eexists. reflexivity.
  - destruct (m_al_parse_tile char_is_signed tok);
      [|left; eexists; reflexivity].
    unfold store. destruct (_ <? _); [|right; reflexivity].
    cbn [bind]. apply IH.
Qed.

Lemma read_pfchunk_loop_outcome (stream : list (list Ascii.ascii)) :
  forall (tiles : nat -> map_tile) (n : nat),
    (exists ok tiles' rest,
       read_pfchunk_loop char_is_signed TILES_PER_CHUNK_WIDTH
           TILES_PER_CHUNK_HEIGHT stream tiles n = Ok (ok, tiles', rest)) \/
    read_pfchunk_loop char_is_signed TILES_PER_CHUNK_WIDTH
        TILES_PER_CHUNK_HEIGHT stream tiles n = OutOfBounds.
Proof.
  induction stream as [|line stream IH]; intros tiles n.
  - cbn [read_pfchunk_loop]. destruct (_ <? _); left; eauto.
  - destruct (Nat.lt_ge_cases n
                (TILES_PER_CHUNK_WIDTH * TILES_PER_CHUNK_HEIGHT)) as [Hn|Hn].
    + rewrite read_pfchunk_loop_line by exact Hn.
      destruct (read_row_tokens_outcome (strtok_all line) tiles n 0)
        as [([[ok tiles1] k] & E)|E]; rewrite E; cbn [bind];
        [|right; reflexivity].
      destruct ok; [apply IH|left; eauto].
    + rewrite read_pfchunk_loop_done by exact Hn. left. eauto.
Qed.

Lemma read_pfchunk_loop_runs_over (last : list Ascii.ascii)
  (rest : list (list Ascii.ascii)) (pre : list (list Ascii.ascii)) :
  forall (tiles : nat -> map_tile) (n : nat),
    Forall tile_text (tokens_of pre) ->
    n + length (tokens_of pre)
    < TILES_PER_CHUNK_WIDTH * TILES_PER_CHUNK_HEIGHT ->
    TILES_PER_CHUNK_WIDTH * TILES_PER_CHUNK_HEIGHT
    - (n + length (tokens_of pre)) < length (strtok_all last) ->
    Forall tile_text
      (firstn (TILES_PER_CHUNK_WIDTH * TILES_PER_CHUNK_HEIGHT
               - (n + length (tokens_of pre)) + 1) (strtok_all last)) ->
    read_pfchunk_loop char_is_signed TILES_PER_CHUNK_WIDTH
        TILES_PER_CHUNK_HEIGHT (pre ++ last :: rest) tiles n = OutOfBounds.
Proof.
  induction pre as [|line pre IH]; intros tiles n Hall Hless Hlen Hfirst.
  - cbn [app]. unfold tokens_of in *. cbn [flat_map length] in *.
    rewrite Nat.add_0_r in *.
    rewrite read_pfchunk_loop_line by lia.
    rewrite (@read_row_tokens_runs_over (strtok_all last) tiles n 0);
      unfold TILES_PER_CHUNK; rewrite ?Nat.add_0_r;
      [reflexivity|lia|exact Hlen|exact Hfirst].
  - cbn [app] in *. rewrite tokens_of_cons in *.
    rewrite length_app in *. apply Forall_app in Hall.
    destruct Hall as [Hline Hall].
    rewrite read_pfchunk_loop_line by lia.
    destruct (@read_row_tokens_ok (strtok_all line) tiles n 0 Hline)
      as (tiles1 & E & _); [unfold TILES_PER_CHUNK; lia|].
    rewrite E. cbn [bind].
    replace (n + (length (strtok_all line) + length (tokens_of pre)))
      with (n + (0 + length (strtok_all line)) + length (tokens_of pre))
      in Hlen, Hfirst by lia.
    apply IH; [exact Hall|lia|exact Hlen|exact Hfirst].
Qed.

Lemma read_pfchunk_loop_past_end (stream : list (list Ascii.ascii)) :
  forall (tiles : nat -> map_tile) (n : nat),
    n < TILES_PER_CHUNK_WIDTH * TILES_PER_CHUNK_HEIGHT ->
    read_pfchunk_loop char_is_signed TILES_PER_CHUNK_WIDTH
        TILES_PER_CHUNK_HEIGHT stream tiles n = OutOfBounds ->
    exists pre last rest,
      stream = pre ++ last :: rest /\
      Forall tile_text (tokens_of pre) /\
      n + length (tokens_of pre)
      < TILES_PER_CHUNK_WIDTH * TILES_PER_CHUNK_HEIGHT /\
      TILES_PER_CHUNK_WIDTH * TILES_PER_CHUNK_HEIGHT
      - (n + length (tokens_of pre)) < length (strtok_all last) /\
      Forall tile_text
        (firstn (TILES_PER_CHUNK_WIDTH * TILES_PER_CHUNK_HEIGHT
                 - (n + length (tokens_of pre)) + 1) (strtok_all last)).
Proof.
  induction stream as [|line stream IH]; intros tiles n Hn E.
  - cbn [read_pfchunk_loop] in E. destruct (_ <? _); discriminate E.
  - rewrite read_pfchunk_loop_line in E by exact Hn.
    destruct (read_row_tokens char_is_signed TILES_PER_CHUNK_WIDTH
                TILES_PER_CHUNK_HEIGHT (strtok_all line) tiles n 0)
      as [[[ok tiles1] k]| | |] eqn:Erow; cbn [bind] in E;
      try discriminate E.
    + destruct ok; [|discriminate E].
      apply read_row_tokens_true in Erow.
      destruct Erow as (Hline & -> & _ & _).
      destruct (Nat.lt_ge_cases (n + (0 + length (strtok_all line)))
                  (TILES_PER_CHUNK_WIDTH * TILES_PER_CHUNK_HEIGHT))
        as [Hmore|Hdone];
        [|rewrite read_pfchunk_loop_done in E by exact Hdone; discriminate E].
      destruct (IH tiles1 _ Hmore E)
        as (pre & last & rest & -> & Hall & Hless & Hlen & Hfirst).
      exists (line :: pre), last, rest. cbn [app].
      rewrite !tokens_of_cons, !length_app.
      replace (n + (length (strtok_all line) + length (tokens_of pre)))
        with (n + (0 + length (strtok_all line)) + length (tokens_of pre))
        by lia.
      split; [reflexivity|].
      split; [apply Forall_app; split; assumption|].
      split; [exact Hless|]. split; [exact Hlen|exact Hfirst].
    + apply read_row_tokens_past_end in Erow;
        [|unfold TILES_PER_CHUNK; lia].
      unfold TILES_PER_CHUNK in Erow. rewrite Nat.add_0_r in Erow.
      destruct Erow as [Hlen Hfirst].
      exists [], line, stream. cbn [app]. unfold tokens_of.
      cbn [flat_map length]. rewrite Nat.add_0_r.
      split; [reflexivity|]. split; [constructor|].
      split; [exact Hn|]. split; [exact Hlen|exact Hfirst].
Qed.

(** X18.  What [m_al_read_pfchunk] does with a text, for a chunk of at
    least one tile.  It returns [true] for the texts of a chunk and for no
    other text, as long as every tile is written inside the array: the
    lines it has taken off the stream then hold one token per tile of the
    chunk, each of the length of a tile, the last of these lines is the
    one that completes the count, and the array holds the tiles of these
    tokens in the order of the text.  The proviso is needed: the texts in
    which a line runs over the end of the chunk, and they alone, have
    their tiles in excess written past the end of the array, whatever the
    function returns after that.  On every other text the function
    returns [false]. *)
Theorem read_pfchunk_outcome_by_text (stream : list (list Ascii.ascii))
  (tiles : nat -> map_tile) :
  0 < TILES_PER_CHUNK_WIDTH * TILES_PER_CHUNK_HEIGHT ->
  (forall tiles' rest,
     m_al_read_pfchunk char_is_signed TILES_PER_CHUNK_WIDTH
         TILES_PER_CHUNK_HEIGHT stream tiles = Ok (true, tiles', rest) ->
     exists pre last,
       stream = pre ++ last :: rest /\
       chunk_text TILES_PER_CHUNK_WIDTH TILES_PER_CHUNK_HEIGHT pre last /\
       forall i tok, nth_error (tokens_of (pre ++ [last])) i = Some tok ->
         tiles' i = tile_of_text char_is_signed tok) /\
  (forall pre last rest,
     stream = pre ++ last :: rest ->
     chunk_text TILES_PER_CHUNK_WIDTH TILES_PER_CHUNK_HEIGHT pre last ->
     exists tiles',
       m_al_read_pfchunk char_is_signed TILES_PER_CHUNK_WIDTH
           TILES_PER_CHUNK_HEIGHT stream tiles = Ok (true, tiles', rest)) /\
  (m_al_read_pfchunk char_is_signed TILES_PER_CHUNK_WIDTH
       TILES_PER_CHUNK_HEIGHT stream tiles = OutOfBounds <->
   exists pre last rest,
     stream = pre ++ last :: rest /\
     row_overruns TILES_PER_CHUNK_WIDTH TILES_PER_CHUNK_HEIGHT pre last) /\
  ((exists tiles' rest,
      m_al_read_pfchunk char_is_signed TILES_PER_CHUNK_WIDTH
          TILES_PER_CHUNK_HEIGHT stream tiles = Ok (true, tiles', rest)) \/
   (exists tiles' rest,
      m_al_read_pfchunk char_is_signed TILES_PER_CHUNK_WIDTH
          TILES_PER_CHUNK_HEIGHT stream tiles = Ok (false, tiles', rest)) \/
   m_al_read_pfchunk char_is_signed TILES_PER_CHUNK_WIDTH
       TILES_PER_CHUNK_HEIGHT stream tiles = OutOfBounds).
Proof.
  intros Hpos. unfold m_al_read_pfchunk, chunk_text, row_overruns.
  split; [|split; [|split]].
  - intros tiles' rest E.
    destruct (@read_pfchunk_loop_true stream tiles tiles' 0 rest Hpos E)
      as (pre & last & -> & Hall & Hless & Hfull).
    exists pre, last. split; [reflexivity|].
    split; [split; [exact Hall|split; lia]|].
    destruct (@read_pfchunk_loop_ok last rest pre tiles 0 Hall Hless Hfull)
      as (tiles2 & E2 & Hpt).
    rewrite E2 in E. injection E as <-.
    intros i tok Htok. rewrite Hpt. unfold write_tiles.
    change (0 <=? i) with true. cbv iota.
    rewrite Nat.sub_0_r, nth_error_map, Htok. reflexivity.
  - intros pre last rest -> (Hall & Hless & Hfull).
    destruct (@read_pfchunk_loop_ok last rest pre tiles 0 Hall
                ltac:(lia) ltac:(lia)) as (tiles' & E & _).
    exists tiles'. exact E.
  - split.
    + intros E.
      destruct (@read_pfchunk_loop_past_end stream tiles 0 Hpos E)
        as (pre & last & rest & -> & Hall & Hless & Hlen & Hfirst).
      exists pre, last, rest. split; [reflexivity|].
      cbn [Nat.add] in *. rewrite ?Nat.add_0_l in *.
      split; [exact Hall|]. split; [exact Hless|].
      split; [exact Hlen|exact Hfirst].
    + intros (pre & last & rest & -> & Hall & Hless & Hlen & Hfirst).
      apply read_pfchunk_loop_runs_over;
        rewrite ?Nat.add_0_l; assumption.
  - destruct (read_pfchunk_loop_outcome stream tiles 0)
      as [([] & tiles' & rest & E)|E]; eauto.
Qed.


(** ** [m_al_patch_adjacency_info] *)

Lemma for_each_calls (Ix : Type) (l : list Ix) (g : Ix -> list render_call)
  (body : Ix -> list render_call -> result (list render_call)) :
  (forall x calls, In x l -> body x calls = Ok (calls ++ g x)) ->
  forall calls, for_each l body calls = Ok (calls ++ flat_map g l).
Proof.
  induction l as [|x l IH]; intros Hbody calls; cbn [for_each flat_map].
  - rewrite app_nil_r. reflexivity.
  - rewrite Hbody by (left; reflexivity). cbn [bind].
    rewrite IH by (intros y cs Hy; apply Hbody; right; exact Hy).
    rewrite app_assoc. reflexivity.
Qed.

Lemma for_each_reads_past (Ix St : Type) (body : Ix -> St -> result St)
  (l : list Ix) (x : Ix) :
  In x l ->
  (forall s, body x s = OutOfBounds) ->
  (forall y s, body y s = OutOfBounds \/ exists s', body y s = Ok s') ->
  forall s, for_each l body s = OutOfBounds.
Proof.
  intros Hin Hx Hall. induction l as [|y l IH]; [destruct Hin|].
  intros s. cbn [for_each].
  destruct (Hall y s) as [E|[s' E]]; rewrite E; cbn [bind]; [reflexivity|].
  destruct Hin as [<-|Hin]; [rewrite Hx in E; discriminate E|].
  apply IH. exact Hin.
Qed.

Lemma for_each_ok_or_past (Ix St : Type) (body : Ix -> St -> result St)
  (l : list Ix) :
  (forall y s, body y s = OutOfBounds \/ exists s', body y s = Ok s') ->
  forall s, for_each l body s = OutOfBounds
            \/ exists s', for_each l body s = Ok s'.
Proof.
  intros Hall. induction l as [|y l IH]; intros s; cbn [for_each].
  - right. exists s. reflexivity.
  - destruct (Hall y s) as [E|[s' E]]; rewrite E; cbn [bind];
      [left; reflexivity|apply IH].
Qed.

Lemma patch_tile_in_array (map_width : nat) (chunks : nat -> nat -> map_tile)
  (r c tile_r tile_c : nat) (calls : list render_call) :
  tile_r * TILES_PER_CHUNK_WIDTH + tile_c
  < TILES_PER_CHUNK_WIDTH * TILES_PER_CHUNK_HEIGHT ->
  patch_tile TILES_PER_CHUNK_WIDTH TILES_PER_CHUNK_HEIGHT map_width chunks
    r c tile_r tile_c calls
  = Ok (calls ++ tile_calls TILES_PER_CHUNK_WIDTH map_width chunks
                   r c tile_r tile_c).
Proof.
  intros Hin. unfold patch_tile, tile_calls, load, TILES_PER_CHUNK.
  cbv zeta.
  destruct (Nat.ltb_spec (tile_r * TILES_PER_CHUNK_WIDTH + tile_c)
              (TILES_PER_CHUNK_WIDTH * TILES_PER_CHUNK_HEIGHT)); [|lia].
  cbn [bind].
  destruct (blend_normals _); [rewrite <- app_assoc|]; reflexivity.
Qed.

Lemma patch_tile_past_array (map_width : nat)
  (chunks : nat -> nat -> map_tile) (r c tile_r tile_c : nat)
  (calls : list render_call) :
  TILES_PER_CHUNK_WIDTH * TILES_PER_CHUNK_HEIGHT
  <= tile_r * TILES_PER_CHUNK_WIDTH + tile_c ->
  patch_tile TILES_PER_CHUNK_WIDTH TILES_PER_CHUNK_HEIGHT map_width chunks
    r c tile_r tile_c calls
  = OutOfBounds.
Proof.
  intros Hin. unfold patch_tile, load, TILES_PER_CHUNK. cbv zeta.
  destruct (Nat.ltb_spec (tile_r * TILES_PER_CHUNK_WIDTH + tile_c)
              (TILES_PER_CHUNK_WIDTH * TILES_PER_CHUNK_HEIGHT)); [lia|].
  reflexivity.
Qed.

Lemma patch_tile_ok_or_past (map_width : nat)
  (chunks : nat -> nat -> map_tile) (r c tile_r tile_c : nat)
  (calls : list render_call) :
  patch_tile TILES_PER_CHUNK_WIDTH TILES_PER_CHUNK_HEIGHT map_width chunks
    r c tile_r tile_c calls = OutOfBounds
  \/ exists calls',
       patch_tile TILES_PER_CHUNK_WIDTH TILES_PER_CHUNK_HEIGHT map_width
         chunks r c tile_r tile_c calls = Ok calls'.
Proof.
  destruct (Nat.lt_ge_cases (tile_r * TILES_PER_CHUNK_WIDTH + tile_c)
              (TILES_PER_CHUNK_WIDTH * TILES_PER_CHUNK_HEIGHT)) as [Hin|Hout].
  - right. eexists. apply patch_tile_in_array. exact Hin.
  - left. apply patch_tile_past_array. exact Hout.
Qed.

Lemma patch_adjacency_calls (map_width map_height : nat)
  (chunks : nat -> nat -> map_tile) :
  TILES_PER_CHUNK_HEIGHT <= TILES_PER_CHUNK_WIDTH ->
  m_al_patch_adjacency_info TILES_PER_CHUNK_WIDTH TILES_PER_CHUNK_HEIGHT
    map_width map_height chunks
  = Ok (square_block_calls TILES_PER_CHUNK_WIDTH TILES_PER_CHUNK_HEIGHT
          map_width map_height chunks).
Proof.
  intros Hle. unfold m_al_patch_adjacency_info, square_block_calls.
  rewrite <- (app_nil_l (flat_map _ (seq 0 map_height))).
  apply for_each_calls. intros r calls1 _.
  apply for_each_calls. intros c calls2 _.
  apply for_each_calls. intros tile_r calls3 Hr.
  apply for_each_calls. intros tile_c calls4 Hc.
  apply patch_tile_in_array.
  apply in_seq in Hr. apply in_seq in Hc. nia.
Qed.

Lemma in_square_block_calls (map_width map_height : nat)
  (chunks : nat -> nat -> map_tile) (call : render_call) :
  In call (square_block_calls TILES_PER_CHUNK_WIDTH TILES_PER_CHUNK_HEIGHT
             map_width map_height chunks)
  <-> exists r c tile_r tile_c,
        r < map_height /\ c < map_width /\
        tile_r < TILES_PER_CHUNK_HEIGHT /\ tile_c < TILES_PER_CHUNK_HEIGHT /\
        In call (tile_calls TILES_PER_CHUNK_WIDTH map_width chunks
                   r c tile_r tile_c).
Proof.
  unfold square_block_calls. split.
  - intros H.
    apply in_flat_map in H. destruct H as (r & Hr & H).
    apply in_flat_map in H. destruct H as (c & Hc & H).
    apply in_flat_map in H. destruct H as (tr & Htr & H).
    apply in_flat_map in H. destruct H as (tc & Htc & H).
    apply in_seq in Hr. apply in_seq in Hc.
    apply in_seq in Htr. apply in_seq in Htc.
    exists r, c, tr, tc. repeat split; try lia. exact H.
  - intros (r & c & tr & tc & Hr & Hc & Htr & Htc & H).
    apply in_flat_map. exists r. split; [apply in_seq; lia|].
    apply in_flat_map. exists c. split; [apply in_seq; lia|].
    apply in_flat_map. exists tr. split; [apply in_seq; lia|].
    apply in_flat_map. exists tc. split; [apply in_seq; lia|].
    exact H.
Qed.

(** X19.  [m_al_patch_adjacency_info] runs both loops over the tiles of a
    chunk to [TILES_PER_CHUNK_HEIGHT].  When a chunk is no higher than it
    is wide, the function patches, in every chunk of the map, the tiles
    whose row and column are both below [TILES_PER_CHUNK_HEIGHT], and no
    other: the tiles of the columns from [TILES_PER_CHUNK_HEIGHT] on are
    left as they are.  The normals are smoothed for the patched tiles with
    [blend_normals] set, and for no other. *)
Theorem patch_adjacency_covers_a_square_block (map_width map_height : nat)
  (chunks : nat -> nat -> map_tile) :
  TILES_PER_CHUNK_HEIGHT <= TILES_PER_CHUNK_WIDTH ->
  exists calls,
    m_al_patch_adjacency_info TILES_PER_CHUNK_WIDTH TILES_PER_CHUNK_HEIGHT
      map_width map_height chunks = Ok calls /\
    (forall p desc,
       In (R_GL_TilePatchVertsBlend p desc) calls <->
       p = chunk_r desc * map_width + chunk_c desc /\
       chunk_r desc < map_height /\ chunk_c desc < map_width /\
       tile_r desc < TILES_PER_CHUNK_HEIGHT /\
       tile_c desc < TILES_PER_CHUNK_HEIGHT) /\
    (forall p desc,
       In (R_GL_TilePatchVertsSmooth p desc) calls <->
       In (R_GL_TilePatchVertsBlend p desc) calls /\
       blend_normals (chunks p (tile_r desc * TILES_PER_CHUNK_WIDTH
                                + tile_c desc)) = true).
Proof.
  intros Hle.
  assert (Hblend : forall p desc,
    In (R_GL_TilePatchVertsBlend p desc)
       (square_block_calls TILES_PER_CHUNK_WIDTH TILES_PER_CHUNK_HEIGHT
          map_width map_height chunks) <->
    p = chunk_r desc * map_width + chunk_c desc /\
    chunk_r desc < map_height /\ chunk_c desc < map_width /\
    tile_r desc < TILES_PER_CHUNK_HEIGHT /\
    tile_c desc < TILES_PER_CHUNK_HEIGHT).
  { intros p desc. rewrite in_square_block_calls. split.
    - intros (r & c & tr & tc & Hr & Hc & Htr & Htc & H).
      unfold tile_calls in H. destruct H as [H|H].
      + injection H as <- <-. cbn. repeat split; assumption.
      + destruct (blend_normals _); [destruct H as [H|[]]|destruct H];
          discriminate H.
    - intros (-> & Hr & Hc & Htr & Htc). destruct desc as [r c tr tc].
      cbn in *. exists r, c, tr, tc. repeat split; try assumption.
      left. reflexivity. }
  exists (square_block_calls TILES_PER_CHUNK_WIDTH TILES_PER_CHUNK_HEIGHT
            map_width map_height chunks).
  split; [apply patch_adjacency_calls; exact Hle|].
  split; [exact Hblend|].
  intros p desc. rewrite Hblend. rewrite in_square_block_calls. split.
  - intros (r & c & tr & tc & Hr & Hc & Htr & Htc & H).
    unfold tile_calls in H. destruct H as [H|H]; [discriminate H|].
    destruct (blend_normals _) eqn:Eb; [|destruct H].
    destruct H as [H|[]]. injection H as <- <-. cbn.
    split; [repeat split; assumption|exact Eb].
  - intros ((-> & Hr & Hc & Htr & Htc) & Eb). destruct desc as [r c tr tc].
    cbn in *. exists r, c, tr, tc. repeat split; try assumption.
    unfold tile_calls. right. rewrite Eb. left. reflexivity.
Qed.

(** X20.  When a chunk is higher than it is wide, the column loop of
    [m_al_patch_adjacency_info] leaves the rows of the chunk: in the first
    chunk of a map that has one, a tile is read past the end of the array
    [tiles]. *)
Theorem patch_adjacency_reads_past_the_tiles (map_width map_height : nat)
  (chunks : nat -> nat -> map_tile) :
  TILES_PER_CHUNK_WIDTH < TILES_PER_CHUNK_HEIGHT ->
  0 < map_width -> 0 < map_height ->
  m_al_patch_adjacency_info TILES_PER_CHUNK_WIDTH TILES_PER_CHUNK_HEIGHT
    map_width map_height chunks = OutOfBounds.
Proof.
  intros Hlt Hw Hh. unfold m_al_patch_adjacency_info.
  apply (@for_each_reads_past _ _ _ _ 0); [apply in_seq; lia| |].
  - intros calls1.
    apply (@for_each_reads_past _ _ _ _ 0); [apply in_seq; lia| |].
    + intros calls2.
      apply (@for_each_reads_past _ _ _ _ (TILES_PER_CHUNK_HEIGHT - 1));
        [apply in_seq; lia| |].
      * intros calls3.
        apply (@for_each_reads_past _ _ _ _ TILES_PER_CHUNK_WIDTH);
          [apply in_seq; lia| |].
        -- intros calls4. apply patch_tile_past_array. nia.
        -- intros y s. apply patch_tile_ok_or_past.
      * intros y s. apply for_each_ok_or_past.
        intros y' s'. apply patch_tile_ok_or_past.
    + intros y s. apply for_each_ok_or_past.
      intros y' s'. apply for_each_ok_or_past.
      intros y'' s''. apply patch_tile_ok_or_past.
  - intros y s. apply for_each_ok_or_past.
    intros y' s'. apply for_each_ok_or_past.
    intros y'' s''. apply for_each_ok_or_past.
    intros y3 s3. apply patch_tile_ok_or_past.
Qed.

End MapLoaderProperties.

End Nav.

(** * Worked instances

    The enumerator TILETYPE_FLAT is 0, costs are integers, the chunks
    are laid out as [lp64_chunk_head] says and the pathfinder is
    [straight_pathfinder]. *)

Lemma cost_field_tile_block_witness :
  0%Z = 0%Z /\ 0 < 32 /\ 1 < 32 /\ 2 < 32 /\
  exists ch',
    n_set_cost_for_tile 0 (open_chunk 0%Z) 32 32 1 2 steep_ramp_tile = Ok ch' /\
    forall row col,
      in_block 32 32 1 2 row col ->
      cost_base ch' (cell_off row col) = COST_IMPASSABLE.
Proof.
  split; [reflexivity|]. split; [lia|]. split; [lia|]. split; [lia|].
  destruct (@cost_field_tile_block 0%Z Z (open_chunk 0%Z) 32 32 1 2
              steep_ramp_tile eq_refl ltac:(lia) ltac:(lia) ltac:(lia)
              ltac:(lia)) as (ch' & E & H).
  exists ch'. split; [exact E|].
  intros row col Hin. rewrite (H row col Hin). reflexivity.
Defined.

(** C2, at an edge whose only crossable position is the last one: the
    bottom edge of a chunk of 64 by 64 tiles against the top edge of the
    chunk below, both with the tiles [corner_tiles].  The edge has one
    maximal run of crossable positions, the call records no portal in
    either chunk, and a build of the 2 by 2 map of such chunks returns a
    store in which neither chunk has a portal. *)
Theorem run_at_last_cell_is_not_recorded :
  let a := built_chunk 0 0%Z 64 64 corner_tiles in
  let b := built_chunk 0 0%Z 64 64 corner_tiles in
  count_runs (crossable a EDGE_BOT b EDGE_TOP) 64 = 1 /\
  crossable a EDGE_BOT b EDGE_TOP 63 = true /\
  (exists a' b',
     n_link_chunks 0%Z lp64_chunk_head a 0 EDGE_BOT (chunk_coord 0 0)
                   b 2 EDGE_TOP (chunk_coord 1 0) = Ok (a', b') /\
     num_portals a' = 0 /\ num_portals b' = 0) /\
  (exists priv,
     N_BuildForMapData 0 0%Z lp64_chunk_head straight_pathfinder 2 2 64 64
       (fun _ => corner_tiles) (Some (fun _ => stale_chunk 0%Z))
     = Ok (Some priv) /\
     num_portals (chunks priv 0) = 0 /\ num_portals (chunks priv 2) = 0).
Proof.
  intros a b. split; [vm_compute; reflexivity|].
  split; [vm_compute; reflexivity|]. split.
  - assert (Hn : match n_link_chunks 0%Z lp64_chunk_head a 0 EDGE_BOT (chunk_coord 0 0)
                                     b 2 EDGE_TOP (chunk_coord 1 0) with
                 | Ok x => Some (num_portals (fst x), num_portals (snd x))
                 | _ => None
                 end = Some (0, 0)) by (vm_compute; reflexivity).
    destruct (n_link_chunks 0%Z lp64_chunk_head a 0 EDGE_BOT (chunk_coord 0 0)
                            b 2 EDGE_TOP (chunk_coord 1 0))
      as [[a' b']| | |];
      [|discriminate Hn|discriminate Hn|discriminate Hn].
    exists a', b'. split; [reflexivity|].
    cbn [fst snd] in Hn. injection Hn as -> ->. split; reflexivity.
  - assert (Hy : match resolution_assertion FIELD_RES_R 64 ;;;
                       resolution_assertion FIELD_RES_C 64 ;;;
                       discover_and_link 0%Z lp64_chunk_head straight_pathfinder 2 2
                         (fun _ => built_chunk 0 0%Z 64 64 corner_tiles)
                 with
                 | Ok (Some p) =>
                     Some (width p, height p, num_portals (chunks p 0),
                           num_portals (chunks p 2))
                 | _ => None
                 end = Some (2, 2, 0, 0)) by (vm_compute; reflexivity).
    destruct (result_rel_ok
                (build_as_pipeline 0 0%Z lp64_chunk_head straight_pathfinder 2 2 64 64
                   (fun _ => corner_tiles) (fun _ => stale_chunk 0%Z))
                ltac:(vm_compute; reflexivity))
      as (x & y & E & Ey & Heqv).
    rewrite Ey in Hy. destruct y as [p|]; [|discriminate Hy].
    injection Hy as Hw Hh H0 H2.
    destruct x as [priv|]; [|contradiction].
    destruct Heqv as (Ew & Eh & Hs). exists priv. split; [exact E|].
    destruct (Hs 0) as (N0 & _); [rewrite Eh, Ew, Hw, Hh; lia|].
    destruct (Hs 2) as (N2 & _); [rewrite Eh, Ew, Hw, Hh; lia|].
    split; congruence.
Qed.

Lemma create_portals_links_each_adjacency_once_witness :
  1 <= 3 /\ 1 <= 2 /\
  length (link_calls 3 2) = 7 /\
  NoDup (map call_pair (link_calls 3 2)) /\
  In (mkcall 1 EDGE_RIGHT (mkcoord 0 1) 2 EDGE_LEFT (mkcoord 0 2))
     (link_calls 3 2).
Proof.
  split; [lia|]. split; [lia|].
  destruct (@create_portals_links_each_adjacency_once 0%Z Z 0%Z
              lp64_chunk_head straight_pathfinder 3 2
              ltac:(lia) ltac:(lia)) as (_ & _ & Hin & Hlen & Hnd & _).
  split; [exact Hlen|]. split; [exact Hnd|].
  apply Hin. exists 0, 1. split; [lia|]. split; [lia|].
  right. split; [lia|reflexivity].
Defined.

(** C6, on a map of 2 by 1 open chunks.  The loops count the one link of
    the map; the assertion asks for 2*1 + 1*0 = 2 and fails. *)
Theorem n_links_assertion_fails_on_2_by_1 :
  is_ok (create_portals_loops 0%Z lp64_chunk_head 2 1 (fun _ => open_chunk 0%Z)) = true /\
  length (link_calls 2 1) = 1 /\
  n_create_portals 0%Z lp64_chunk_head (mkpriv 2 1 (fun _ => open_chunk 0%Z)) = AssertFail /\
  N_BuildForMapData 0 0%Z lp64_chunk_head straight_pathfinder 2 1 1 1 (fun _ _ => flat_tile)
                    (Some (fun _ => stale_chunk 0%Z)) = AssertFail.
Proof.
  split; [vm_compute; reflexivity|]. split; [reflexivity|].
  assert (E : n_create_portals 0%Z lp64_chunk_head (mkpriv 2 1 (fun _ => open_chunk 0%Z))
              = AssertFail).
  { assert (Hok : is_ok (create_portals_loops 0%Z lp64_chunk_head 2 1
                                (fun _ => open_chunk 0%Z)) = true)
      by (vm_compute; reflexivity).
    destruct (create_portals_loops 0%Z lp64_chunk_head 2 1 (fun _ => open_chunk 0%Z))
      as [s| | |] eqn:El;
      [|discriminate Hok|discriminate Hok|discriminate Hok].
    apply (@n_create_portals_non_square Z 0%Z lp64_chunk_head
             (mkpriv 2 1 (fun _ => open_chunk 0%Z)) s);
      cbn [width height chunks]; [lia|lia|lia|exact El]. }
  split; [exact E|].
  apply (result_rel_assert_fail
           (build_as_pipeline 0 0%Z lp64_chunk_head straight_pathfinder 2 1 1 1
              (fun _ _ => flat_tile) (fun _ => stale_chunk 0%Z))).
  vm_compute. reflexivity.
Qed.

Lemma discovery_stays_within_capacity_witness :
  resolution_assertion FIELD_RES_R 32 = Ok tt /\
  resolution_assertion FIELD_RES_C 32 = Ok tt /\ 32 <= 32 /\
  (exists chs0,
     build_cost_fields 0 3 3 32 32 (fun _ => wide_comb_tiles)
                       (fun _ => stale_chunk 0%Z) = Ok chs0 /\
     exists final,
       for_each (link_calls 3 3) (run_link_call 0%Z lp64_chunk_head) chs0
       = Ok final /\
       forall idx, idx < 9 ->
         num_portals (final idx) <= MAX_PORTALS_PER_CHUNK) /\
  exists priv,
    N_BuildForMapData 0 0%Z lp64_chunk_head straight_pathfinder 3 3 32 32
                      (fun _ => wide_comb_tiles)
                      (Some (fun _ => stale_chunk 0%Z))
    = Ok (Some priv).
Proof.
  split; [reflexivity|]. split; [reflexivity|]. split; [lia|].
  destruct (@discovery_stays_within_capacity 0 Z 0%Z lp64_chunk_head
              straight_pathfinder 3 3 32 32
              (fun _ => wide_comb_tiles) (fun _ => stale_chunk 0%Z)
              eq_refl eq_refl ltac:(lia) ltac:(lia))
    as ((chs0 & E0 & H) & _ & Hsquare).
  split; [|apply Hsquare; [lia|reflexivity]].
  exists chs0. split; [exact E0|].
  destruct (H (link_calls 3 3) [] (eq_sym (app_nil_r _)))
    as (final & E & Hb & _).
  exists final. split; [exact E|exact Hb].
Defined.

(** C3, on a map of 3 by 3 chunks of 64 by 64 tiles whose boundaries are
    combs: 32 runs on every internal edge.  The chunk dimensions pass the
    resolution assertions of the build.  After the first three calls to
    [n_link_chunks] the second chunk of the first row holds
    MAX_PORTALS_PER_CHUNK portals, 32 from its left and 32 from its bottom
    edge, and no assertion has failed.  The fourth call links its right
    edge: the first run is written to [portals[64]], past the end of the
    array, before any capacity assertion is reached.  The build ends
    there. *)
Theorem portal_array_overflow_on_comb_map :
  resolution_assertion FIELD_RES_R 64 = Ok tt /\
  resolution_assertion FIELD_RES_C 64 = Ok tt /\
  (exists chs0 mid,
     build_cost_fields 0 3 3 64 64 (fun _ => comb_tiles)
                       (fun _ => stale_chunk 0%Z) = Ok chs0 /\
     for_each (firstn 3 (link_calls 3 3)) (run_link_call 0%Z lp64_chunk_head)
              chs0 = Ok mid /\
     num_portals (mid 1) = MAX_PORTALS_PER_CHUNK /\
     nth_error (link_calls 3 3) 3
     = Some (mkcall 1 EDGE_RIGHT (chunk_coord 0 1)
                    2 EDGE_LEFT (chunk_coord 0 2)) /\
     n_link_chunks 0%Z lp64_chunk_head
                   (mid 1) 1 EDGE_RIGHT (chunk_coord 0 1)
                   (mid 2) 2 EDGE_LEFT (chunk_coord 0 2) = OutOfBounds) /\
  N_BuildForMapData 0 0%Z lp64_chunk_head straight_pathfinder 3 3 64 64
                    (fun _ => comb_tiles) (Some (fun _ => stale_chunk 0%Z))
  = OutOfBounds.
Proof.
  split; [reflexivity|]. split; [reflexivity|]. split.
  - assert (H : match build_cost_fields 0 3 3 64 64 (fun _ => comb_tiles)
                        (fun _ => stale_chunk 0%Z) with
                | Ok chs0 =>
                    match for_each (firstn 3 (link_calls 3 3))
                            (run_link_call 0%Z lp64_chunk_head) chs0 with
                    | Ok mid =>
                        match n_link_chunks 0%Z lp64_chunk_head
                                (mid 1) 1 EDGE_RIGHT (chunk_coord 0 1)
                                (mid 2) 2 EDGE_LEFT (chunk_coord 0 2) with
                        | OutOfBounds => Some (num_portals (mid 1))
                        | _ => None
                        end
                    | _ => None
                    end
                | _ => None
                end = Some 64) by (vm_compute; reflexivity).
    destruct (build_cost_fields 0 3 3 64 64 (fun _ => comb_tiles)
                (fun _ => stale_chunk 0%Z)) as [chs0| | |] eqn:E0;
      [|discriminate H|discriminate H|discriminate H].
    destruct (for_each (firstn 3 (link_calls 3 3))
                (run_link_call 0%Z lp64_chunk_head) chs0) as [mid| | |] eqn:E1;
      [|discriminate H|discriminate H|discriminate H].
    destruct (n_link_chunks 0%Z lp64_chunk_head
                (mid 1) 1 EDGE_RIGHT (chunk_coord 0 1)
                (mid 2) 2 EDGE_LEFT (chunk_coord 0 2)) as [ab| | |] eqn:E;
      [discriminate H|discriminate H| |discriminate H].
    injection H as Hn.
    exists chs0, mid. split; [reflexivity|]. split; [exact E1|].
    split; [exact Hn|]. split; [reflexivity|exact E].
  - apply (result_rel_out_of_bounds
             (build_as_pipeline 0 0%Z lp64_chunk_head straight_pathfinder
                3 3 64 64 (fun _ => comb_tiles) (fun _ => stale_chunk 0%Z))).
    vm_compute. reflexivity.
Qed.

Lemma recorded_portal_spans_edge_witness :
  exists s,
    create_portals_loops 0%Z lp64_chunk_head 2 1 (fun _ => open_chunk 0%Z)
    = Ok s /\
    0 < num_portals (fst s 0) /\
    exists i0 i1,
      i0 <= i1 < 64 /\
      endpoints0 (portals (fst s 0) 0) = mkcoord (Z.of_nat i0) 63 /\
      endpoints1 (portals (fst s 0) 0) = mkcoord (Z.of_nat i1) 63 /\
      forall i, i0 <= i <= i1 ->
        open_cell (fst s 0) i 63 /\ open_cell (fst s 1) i 0.
Proof.
  assert (Hn : match create_portals_loops 0%Z lp64_chunk_head 2 1
                       (fun _ => open_chunk 0%Z) with
               | Ok x => Some (num_portals (fst x 0))
               | _ => None
               end = Some 1) by (vm_compute; reflexivity).
  destruct (create_portals_loops 0%Z lp64_chunk_head 2 1
              (fun _ => open_chunk 0%Z))
    as [s| | |] eqn:E;
    [|discriminate Hn|discriminate Hn|discriminate Hn].
  injection Hn as Hn.
  exists s. split; [reflexivity|]. split; [lia|].
  destruct (@recorded_portal_spans_edge Z 0%Z lp64_chunk_head 2 1
              (fun _ => open_chunk 0%Z)
              s 0 0 (fun j _ => eq_refl) E ltac:(lia) ltac:(lia))
    as (t & idx' & i0 & i1 & Hnb & Hi & Hp).
  exists i0, i1. split; [exact Hi|].
  destruct t; try discriminate Hnb.
  injection Hnb as <-. exact Hp.
Defined.

Lemma build_portals_have_one_counterpart_witness :
  exists priv,
    N_BuildForMapData 0 0%Z lp64_chunk_head straight_pathfinder 2 2 1 1 strip_tiles
                      (Some (fun _ => stale_chunk 0%Z)) = Ok (Some priv) /\
    0 < height priv * width priv /\
    0 < num_portals (chunks priv 0) /\
    exists idx' k',
      idx' < height priv * width priv /\
      k' < num_portals (chunks priv idx') /\
      connected (portals (chunks priv 0) 0) = PortalAt idx' k' /\
      connected (portals (chunks priv idx') k') = PortalAt 0 0.
Proof.
  destruct (result_rel_ok
              (build_as_pipeline 0 0%Z lp64_chunk_head straight_pathfinder 2 2 1 1
                 strip_tiles (fun _ => stale_chunk 0%Z))
              ltac:(vm_compute; reflexivity))
    as ([priv|] & y & E & Ey & Heqv).
  - exists priv. split; [exact E|].
    assert (Hy : match resolution_assertion FIELD_RES_R 1 ;;;
                       resolution_assertion FIELD_RES_C 1 ;;;
                       discover_and_link 0%Z lp64_chunk_head straight_pathfinder 2 2
                         (fun idx => built_chunk 0 0%Z 1 1 (strip_tiles idx))
                 with
                 | Ok (Some p) =>
                     (width p, height p, num_portals (chunks p 0))
                 | _ => (0, 0, 0)
                 end = (2, 2, 1)) by (vm_compute; reflexivity).
    rewrite Ey in Hy.
    destruct y as [p|]; [|discriminate Hy]. injection Hy as Hw Hh Hn.
    destruct Heqv as (Ew & Eh & Hs).
    assert (Hn' : num_portals (chunks priv 0) = 1).
    { destruct (Hs 0) as (N & _); [rewrite Eh, Ew, Hw, Hh; lia|].
      rewrite N. exact Hn. }
    assert (Hidx : 0 < height priv * width priv)
      by (rewrite Eh, Ew, Hw, Hh; lia).
    split; [exact Hidx|]. split; [lia|].
    destruct (@build_portals_have_one_counterpart 0 Z 0%Z lp64_chunk_head
                straight_pathfinder
                2 2 1 1 strip_tiles (fun _ => stale_chunk 0%Z) priv 0 0 E
                Hidx ltac:(lia))
      as (t & idx' & k' & i0 & i1 & _ & Hb & Hk' & Hc & Hc' & _).
    exists idx', k'. repeat split; assumption.
  - exfalso. destruct y; [contradiction|].
    assert (Hy : match resolution_assertion FIELD_RES_R 1 ;;;
                       resolution_assertion FIELD_RES_C 1 ;;;
                       discover_and_link 0%Z lp64_chunk_head straight_pathfinder 2 2
                         (fun idx => built_chunk 0 0%Z 1 1 (strip_tiles idx))
                 with
                 | Ok (Some p) => true
                 | _ => false
                 end = true) by (vm_compute; reflexivity).
    rewrite Ey in Hy. discriminate Hy.
Defined.

Lemma linker_edges_for_every_ordered_pair_witness :
  num_portals (two_portal_chunk 0%Z) <= MAX_PORTALS_PER_CHUNK /\
  exists ch' calls,
    n_link_chunk_portals straight_pathfinder 0 (two_portal_chunk 0%Z)
    = Ok (ch', calls) /\
    map fst calls
    = [(mkcoord 63 31, mkcoord 0 31); (mkcoord 0 31, mkcoord 63 31)] /\
    (forall call, In call calls ->
       is_cost_grid (two_portal_chunk 0%Z) (snd call)) /\
    num_neighbours (portals ch' 0) = 1 /\
    edges (portals ch' 0) 0 = mkedge (PortalAt 0 1) 63%Z.
Proof.
  split; [vm_compute; lia|].
  destruct (@linker_edges_for_every_ordered_pair Z straight_pathfinder 0
              (two_portal_chunk 0%Z))
    as (ch' & calls & E & Hcalls & Hin & Hedges).
  - vm_compute. lia.
  - intros i Hi. change (num_portals (two_portal_chunk 0%Z)) with 2 in *.
    destruct i as [|[|i]]; [vm_compute; lia|vm_compute; lia|lia].
  - intros i Hi. change (num_portals (two_portal_chunk 0%Z)) with 2 in *.
    destruct i as [|[|i]]; [| |lia];
      vm_compute; repeat split; intros H; discriminate H.
  - exists ch', calls. split; [exact E|]. split.
    + rewrite Hcalls. vm_compute. reflexivity.
    + split.
      * intros [[x y] g] Hcall. apply Hin in Hcall. apply Hcall.
      * destruct (Hedges (cost_field (two_portal_chunk 0%Z))
                    (cost_field_grid _) 0)
          as [(_ & _ & _ & _ & Hn & _ & Hnew) _];
          [vm_compute; lia|].
        split; [rewrite Hn; vm_compute; reflexivity|].
        apply (Hnew 0). vm_compute. reflexivity.
Defined.

Lemma strip_nav_dimensions :
  width (strip_nav 0 0%Z lp64_chunk_head straight_pathfinder) = 2 /\
  height (strip_nav 0 0%Z lp64_chunk_head straight_pathfinder) = 2 /\
  num_portals (chunks (strip_nav 0 0%Z lp64_chunk_head straight_pathfinder) 0) = 1 /\
  length (portal_quads (chunks (strip_nav 0 0%Z lp64_chunk_head straight_pathfinder) 0)) = 64.
Proof. vm_compute. repeat split. Qed.

Lemma overlay_portal_batch_then_cell_batch_witness :
  let nav := strip_nav 0 0%Z lp64_chunk_head straight_pathfinder in
  N_RenderPathableChunk nav 0 0
  = Ok [portal_quads (chunks nav 0); cell_quads (chunks nav 0)] /\
  length (cell_quads (chunks nav 0)) = 4096 /\
  length (portal_quads (chunks nav 0)) = 64.
Proof.
  intros nav.
  destruct strip_nav_dimensions as (Hw & Hh & Hn & Hq). fold nav in Hw, Hh, Hn, Hq.
  destruct (@overlay_portal_batch_then_cell_batch Z nav 0 0) as (E & Hlen & _).
  - rewrite Hh. lia.
  - rewrite Hw. lia.
  - change (CHUNK_IDX (Z.to_nat 0) (width nav) (Z.to_nat 0)) with 0.
    rewrite Hn. unfold MAX_PORTALS_PER_CHUNK. lia.
  - change (CHUNK_IDX (Z.to_nat 0) (width nav) (Z.to_nat 0)) with 0.
    rewrite Hq. unfold FIELD_RES_C, FIELD_RES_R. lia.
  - change (CHUNK_IDX (Z.to_nat 0) (width nav) (Z.to_nat 0)) with 0 in *.
    split; [exact E|]. split; [exact Hlen|exact Hq].
Defined.

(** C10, on the first chunk of the map [strip_nav], which has one portal
    along its right edge.  The quads do not reach the renderer as the cell
    quads followed by the portal quads: the first quad handed over is
    yellow. *)
Lemma overlay_portal_quads_are_not_emitted_last :
  let nav := strip_nav 0 0%Z lp64_chunk_head straight_pathfinder in
  ~ exists batches,
      N_RenderPathableChunk nav 0 0 = Ok batches /\
      concat batches
      = cell_quads (chunks nav 0) ++ portal_quads (chunks nav 0).
Proof.
  intros nav (batches & E & Hc).
  assert (H1 : match N_RenderPathableChunk nav 0 0 with
               | Ok bs => option_map quad_color (hd_error (concat bs))
               | _ => None
               end = Some yellow) by (vm_compute; reflexivity).
  assert (H2 : option_map quad_color
                 (hd_error (cell_quads (chunks nav 0)
                            ++ portal_quads (chunks nav 0)))
               = Some green) by (vm_compute; reflexivity).
  rewrite E, Hc, H2 in H1. discriminate H1.
Qed.

Lemma cost_field_tile_frame_witness :
  exists ch',
    n_set_cost_for_tile 0 (stale_chunk 0%Z) 32 32 1 2 wall_tile = Ok ch' /\
    num_portals ch' = 7 /\
    cost_base ch' (cell_off 0 0) = 3%Z.
Proof.
  destruct (@cost_field_tile_frame 0%Z Z (stale_chunk 0%Z) 32 32 1 2
              wall_tile ltac:(lia) ltac:(lia) ltac:(lia) ltac:(lia))
    as (ch' & E & Hn & _ & Hkeep).
  exists ch'. split; [exact E|]. split; [exact Hn|].
  rewrite (Hkeep 0 0).
  - reflexivity.
  - unfold FIELD_RES_C. lia.
  - unfold in_block.
    change (FIELD_RES_R / 32) with 2. change (FIELD_RES_C / 32) with 2. lia.
Defined.

(** The build of the map [column_tiles]: the chunk in the middle has a
    portal on its top edge and one on its bottom edge, with an edge of
    cost 63 from the first to the second. *)
Lemma column_map_build :
  exists priv,
    N_BuildForMapData 0 0%Z lp64_chunk_head straight_pathfinder 3 3 1 1 column_tiles
                      (Some (fun _ => stale_chunk 0%Z))
    = Ok (Some priv) /\
    width priv = 3 /\ height priv = 3 /\
    num_portals (chunks priv 4) = 2 /\
    num_neighbours (portals (chunks priv 4) 0) = 1 /\
    edges (portals (chunks priv 4) 0) 0 = mkedge (PortalAt 4 1) 63%Z.
Proof.
  destruct (result_rel_ok
              (build_as_pipeline 0 0%Z lp64_chunk_head straight_pathfinder 3 3 1 1
                 column_tiles (fun _ => stale_chunk 0%Z))
              ltac:(vm_compute; reflexivity))
    as (x & y & E & Ey & Heqv).
  assert (Hy : match resolution_assertion FIELD_RES_R 1 ;;;
                     resolution_assertion FIELD_RES_C 1 ;;;
                     discover_and_link 0%Z lp64_chunk_head straight_pathfinder 3 3
                       (fun idx => built_chunk 0 0%Z 1 1 (column_tiles idx))
               with
               | Ok (Some p) =>
                   Some (width p, height p, num_portals (chunks p 4),
                         num_neighbours (portals (chunks p 4) 0),
                         edges (portals (chunks p 4) 0) 0)
               | _ => None
               end = Some (3, 3, 2, 1, mkedge (PortalAt 4 1) 63%Z))
    by (vm_compute; reflexivity).
  rewrite Ey in Hy. destruct y as [p|]; [|discriminate Hy].
  injection Hy as Hw Hh Hn Hnn He.
  destruct x as [priv|]; [|contradiction].
  destruct Heqv as (Ew & Eh & Hs).
  exists priv. split; [exact E|].
  destruct (Hs 4) as (N4 & P4 & _); [rewrite Eh, Ew, Hw, Hh; lia|].
  split; [congruence|]. split; [congruence|]. split; [congruence|].
  rewrite (P4 0) by lia. split; assumption.
Qed.


Lemma n_links_assertion_holds_on_square_maps_only_witness :
  1 <= 2 /\ 1 <= 1 /\
  forall chs s,
    create_portals_loops 0%Z lp64_chunk_head 2 1 chs = Ok s ->
    n_create_portals 0%Z lp64_chunk_head (mkpriv 2 1 chs) = AssertFail.
Proof.
  split; [lia|]. split; [lia|]. intros chs s Es.
  destruct (@n_links_assertion_holds_on_square_maps_only 0%Z Z 0%Z
              lp64_chunk_head straight_pathfinder 2 1 ltac:(lia) ltac:(lia))
    as [Hloops _].
  destruct (Hloops chs s Es) as [[Ewh _]|[_ Ef]]; [discriminate Ewh|exact Ef].
Defined.



Lemma build_edges_stay_in_chunk_witness :
  exists priv,
    N_BuildForMapData 0 0%Z lp64_chunk_head straight_pathfinder 3 3 1 1
                      column_tiles (Some (fun _ => stale_chunk 0%Z))
    = Ok (Some priv) /\
    num_portals (chunks priv 4) = 2 /\
    exists j cost,
      edges (portals (chunks priv 4) 0) 0 = mkedge (PortalAt 4 j) cost /\
      j < 2 /\ j <> 0 /\
      straight_pathfinder (spec_midpoint (portals (chunks priv 4) 0))
                          (spec_midpoint (portals (chunks priv 4) j))
                          (cost_field (chunks priv 4)) = Some cost.
Proof.
  destruct column_map_build as (priv & E & _ & _ & Hn & Hnn & _).
  exists priv. split; [exact E|]. split; [exact Hn|].
  destruct (@build_edges_stay_in_chunk 0%Z Z 0%Z lp64_chunk_head
              straight_pathfinder
              3 3 1 1 column_tiles (fun _ => stale_chunk 0%Z) priv 4 0
              (cost_field (chunks priv 4)) E
              ltac:(lia) ltac:(rewrite Hn; lia) (cost_field_grid _))
    as (_ & Hedges & _).
  destruct (Hedges 0 ltac:(rewrite Hnn; lia)) as (j & cost & Ee & Hj & Hne & Hp).
  exists j, cost. rewrite Hn in Hj. repeat split; assumption.
Defined.

Lemma straight_pathfinder_symmetric (a b : coord) (field : list Z) :
  straight_pathfinder a b field = straight_pathfinder b a field.
Proof.
  unfold straight_pathfinder.
  rewrite (Z.eqb_sym (r a)), (Z.eqb_sym (c a)).
  replace (Z.abs (r a - r b)) with (Z.abs (r b - r a)) by lia.
  replace (Z.abs (c a - c b)) with (Z.abs (c b - c a)) by lia.
  reflexivity.
Qed.

Lemma build_edges_symmetric_witness :
  exists priv,
    N_BuildForMapData 0 0%Z lp64_chunk_head straight_pathfinder 3 3 1 1 column_tiles
                      (Some (fun _ => stale_chunk 0%Z))
    = Ok (Some priv) /\
    has_edge 4 (chunks priv 4) 0 1 63%Z /\
    has_edge 4 (chunks priv 4) 1 0 63%Z.
Proof.
  destruct column_map_build as (priv & E & _ & _ & Hn & Hnn & He).
  exists priv. split; [exact E|].
  assert (H01 : has_edge 4 (chunks priv 4) 0 1 63%Z).
  { exists 0. split; [rewrite Hnn; lia|exact He]. }
  split; [exact H01|].
  apply (@build_edges_symmetric 0%Z Z 0%Z lp64_chunk_head straight_pathfinder 3 3 1 1
           column_tiles (fun _ => stale_chunk 0%Z) priv 4 0 1 63%Z
           straight_pathfinder_symmetric E ltac:(lia)
           ltac:(rewrite Hn; lia) ltac:(rewrite Hn; lia) H01).
Defined.

Lemma linker_pathfinder_call_count_witness :
  exists ch' calls,
    n_link_chunk_portals straight_pathfinder 0 (two_portal_chunk 0%Z)
    = Ok (ch', calls) /\
    length calls = 2.
Proof.
  destruct (@linker_pathfinder_call_count Z straight_pathfinder 0
              (two_portal_chunk 0%Z))
    as (ch' & calls & E & Hlen).
  - vm_compute. lia.
  - intros i Hi. change (num_portals (two_portal_chunk 0%Z)) with 2 in *.
    destruct i as [|[|i]]; [vm_compute; lia|vm_compute; lia|lia].
  - exists ch', calls. split; [exact E|]. rewrite Hlen. reflexivity.
Defined.

Lemma overlay_of_built_store_witness :
  exists priv,
    N_BuildForMapData 0 0%Z lp64_chunk_head straight_pathfinder 3 3 1 1 column_tiles
                      (Some (fun _ => stale_chunk 0%Z))
    = Ok (Some priv) /\
    N_RenderPathableChunk priv 1 1
    = Ok [portal_quads (chunks priv 4); cell_quads (chunks priv 4)] /\
    N_RenderPathableChunk priv (-1) 1 = AssertFail.
Proof.
  destruct column_map_build as (priv & E & Hw & _).
  exists priv. split; [exact E|].
  destruct (@overlay_of_built_store 0%Z Z 0%Z lp64_chunk_head straight_pathfinder 3 3 1 1
              column_tiles (fun _ => stale_chunk 0%Z) priv 1 1 E)
    as [Hin _].
  destruct (@overlay_of_built_store 0%Z Z 0%Z lp64_chunk_head straight_pathfinder 3 3 1 1
              column_tiles (fun _ => stale_chunk 0%Z) priv (-1) 1 E)
    as [_ Hout].
  split.
  - destruct (Hin ltac:(lia)) as (Er & _). rewrite Er, Hw. reflexivity.
  - apply Hout. lia.
Defined.

Lemma every_tile_in_range_has_a_text_witness :
  exists str,
    m_al_parse_tile true str
    = Some (mkmaptile (mktile true 11 5) (-12) 345 67 1 true).
Proof.
  apply (@every_tile_in_range_has_a_text true
           (mkmaptile (mktile true 11 5) (-12) 345 67 1 true));
    cbn; lia.
Defined.

Lemma read_pfchunk_fills_the_chunk_witness :
  exists tiles',
    m_al_read_pfchunk true 2 2
      ([zero_text ++ [" "%char] ++ zero_text] ++
       (zero_text ++ ["009"%char] ++ zero_text) :: [zero_text])
      (fun _ => tile_of_text true [])
    = Ok (true, tiles', [zero_text]) /\
    tiles' 3 = tile_of_text true zero_text /\
    tiles' 4 = tile_of_text true [].
Proof.
  destruct (@read_pfchunk_fills_the_chunk true 2 2
              [zero_text ++ [" "%char] ++ zero_text]
              (zero_text ++ ["009"%char] ++ zero_text) [zero_text]
              (fun _ => tile_of_text true []))
    as (tiles' & E & Hin & Hout).
  - vm_compute. repeat constructor.
  - vm_compute. lia.
  - vm_compute. reflexivity.
  - exists tiles'. split; [exact E|]. split.
    + apply Hin. vm_compute. reflexivity.
    + apply Hout. vm_compute. lia.
Defined.

Lemma read_pfchunk_row_overflow_witness :
  m_al_read_pfchunk true 1 1
    ([] ++ (zero_text ++ [" "%char] ++ zero_text) :: [])
    (fun _ => tile_of_text true [])
  = OutOfBounds.
Proof.
  apply (@read_pfchunk_row_overflow true 1 1 []
           (zero_text ++ [" "%char] ++ zero_text) []
           (fun _ => tile_of_text true [])).
  - vm_compute. repeat constructor.
  - vm_compute. lia.
  - vm_compute. lia.
Defined.

Lemma read_pfchunk_outcome_by_text_witness :
  exists tiles' pre last,
    m_al_read_pfchunk true 2 1
      [zero_text; []; zero_text; zero_text] (fun _ => tile_of_text true [])
    = Ok (true, tiles', [zero_text]) /\
    [zero_text; []; zero_text; zero_text] = pre ++ last :: [zero_text] /\
    length (tokens_of (pre ++ [last])) = 2 * 1 /\
    tiles' 1 = tile_of_text true zero_text.
Proof.
  destruct (@read_pfchunk_outcome_by_text true 2 1
              [zero_text; []; zero_text; zero_text]
              (fun _ => tile_of_text true []))
    as (Htrue & Hfull & _ & _).
  - vm_compute. lia.
  - destruct (Hfull [zero_text; []] zero_text [zero_text] eq_refl)
      as (tiles' & E).
    + split; [vm_compute; repeat constructor|].
      split; [vm_compute; lia|vm_compute; reflexivity].
    + destruct (Htrue tiles' [zero_text] E)
        as (pre & last & Hs & (_ & _ & Hn) & Htiles).
      exists tiles', pre, last. split; [exact E|]. split; [exact Hs|].
      split; [exact Hn|].
      apply app_inv_tail_iff with (l := [zero_text]) in Hs as Hs'.
      apply Htiles.
      assert (Hpl : pre ++ [last] = [zero_text; []; zero_text]).
      { apply (app_inv_tail [zero_text]). rewrite <- app_assoc.
        cbn [app]. symmetry. exact Hs. }
      rewrite Hpl. vm_compute. reflexivity.
Defined.

Lemma patch_adjacency_covers_a_square_block_witness :
  exists calls,
    m_al_patch_adjacency_info 2 1 1 1 (fun _ _ => tile_of_text true zero_text)
    = Ok calls /\
    In (R_GL_TilePatchVertsBlend 0 (mktiledesc 0 0 0 0)) calls /\
    ~ In (R_GL_TilePatchVertsBlend 0 (mktiledesc 0 0 0 1)) calls.
Proof.
  destruct (@patch_adjacency_covers_a_square_block 2 1 1 1
              (fun _ _ => tile_of_text true zero_text))
    as (calls & E & Hblend & _).
  - lia.
  - exists calls. split; [exact E|]. split.
    + apply Hblend. cbn. lia.
    + intros H. apply Hblend in H. cbn in H. lia.
Defined.

Lemma patch_adjacency_reads_past_the_tiles_witness :
  m_al_patch_adjacency_info 1 2 1 1 (fun _ _ => tile_of_text true zero_text)
  = OutOfBounds.
Proof.
  apply (@patch_adjacency_reads_past_the_tiles 1 2 1 1
           (fun _ _ => tile_of_text true zero_text)); lia.
Defined.
